(** * Waits-for graph of [buildscripts/gdb/mongo_lock.py]

    A shallow embedding of the [Thread], [Lock] and [Graph] classes and of
    the two gdb commands built on them, followed by the properties of the
    graph engine: edge insertion, pruning of isolated nodes and the
    depth-first cycle search. *)

From Stdlib Require Import ZArith String Ascii DecimalString HexadecimalString
  HexadecimalN.
From stdpp Require Import gmap strings list.

Local Open Scope string_scope.
Local Open Scope list_scope.
#[local] Set Warnings "-clear-no-such-hyp".

(* ===================================================================== *)
(** ** Python values used by the module *)
(* ===================================================================== *)

(** The double quote character, which occurs inside several literals of
    the source. *)
Definition dquote : string := String "034"%char "".

(** ['0' * n]. *)
Fixpoint zeros (n : nat) : string :=
  match n with
  | O => ""
  | S n' => String "0"%char (zeros n')
  end.

(** Lower-case hexadecimal digits of a natural number, as [format(n, 'x')]. *)
Definition hex_digits (n : N) : string :=
  HexadecimalString.NilZero.string_of_uint (N.to_hex_uint n).

(** [s.rjust(width, '0')]. *)
Definition zero_pad (width : nat) (s : string) : string :=
  zeros (width - String.length s) +:+ s.

(** ['{:012x}'.format(z)]: sign-aware zero padding to twelve columns. *)
Definition format_012x (z : Z) : string :=
  if (z <? 0)%Z then "-" +:+ zero_pad 11 (hex_digits (Z.to_N (- z)))
  else zero_pad 12 (hex_digits (Z.to_N z)).

(** ['{}'.format(z)] for an integer. *)
Definition format_int (z : Z) : string :=
  DecimalString.NilZero.string_of_int (Z.to_int z).

(** Exceptions the modelled code can raise. [GdbError] is [gdb.error], the
    only one the commands catch. *)
Inductive exn : Type :=
  | KeyError (k : string)
  | IndexError
  | AttributeError (msg : string)
  | GdbError (msg : string).

(** Outcome of a call that may raise. [OutOfFuel] only marks the end of the
    recursion budget of the embedding; it is shown unreachable below. *)
Inductive result (A : Type) : Type :=
  | Ok (a : A)
  | Raise (e : exn)
  | OutOfFuel.
Arguments Ok {A} a.
Arguments Raise {A} e.
Arguments OutOfFuel {A}.

#[global] Instance result_ret : MRet result := fun A a => Ok a.

#[global] Instance result_bind : MBind result := fun A B k r =>
  match r with
  | Ok a => k a
  | Raise e => Raise e
  | OutOfFuel => OutOfFuel
  end.

(** An insertion-ordered [dict] with string keys. *)
Definition dict (V : Type) : Type := list (string * V).

Fixpoint dict_get {V} (d : dict V) (k : string) : option V :=
  match d with
  | [] => None
  | (k', v) :: d' => if decide (k' = k) then Some v else dict_get d' k
  end.

(** [d[k] = v]: overwrite in place, or append a new key. *)
Fixpoint dict_set {V} (d : dict V) (k : string) (v : V) : dict V :=
  match d with
  | [] => [(k, v)]
  | (k', v') :: d' =>
      if decide (k' = k) then (k, v) :: d' else (k', v') :: dict_set d' k v
  end.

Definition dict_keys {V} (d : dict V) : list string := d.*1.

(* ===================================================================== *)
(** ** class Thread, class Lock *)
(* ===================================================================== *)

Record Thread : Type := mkThread {
  thread_id : Z;
  lwpid : Z;
  name : string
}.

Record Lock : Type := mkLock {
  addr : Z;
  resource : string
}.

Definition Thread_str (t : Thread) : string :=
  name t +:+ " (Thread 0x" +:+ format_012x (thread_id t)
         +:+ " (LWP " +:+ format_int (lwpid t) +:+ "))".

Definition Thread_key (t : Thread) : string :=
  "Thread 0x" +:+ format_012x (thread_id t).

Definition Lock_str (l : Lock) : string :=
  "Lock 0x" +:+ format_012x (addr l) +:+ " (" +:+ resource l +:+ ")".

Definition Lock_key (l : Lock) : string :=
  "Lock 0x" +:+ format_012x (addr l).

Arguments format_012x : simpl never.
Arguments format_int : simpl never.
Arguments Thread_str : simpl never.
Arguments Thread_key : simpl never.
Arguments Lock_str : simpl never.
Arguments Lock_key : simpl never.

(** The objects stored in a graph: anything with [key()] and [__str__]. *)
Inductive Node : Type :=
  | NThread (t : Thread)
  | NLock (l : Lock).

Definition key (n : Node) : string :=
  match n with
  | NThread t => Thread_key t
  | NLock l => Lock_key l
  end.

Definition str (n : Node) : string :=
  match n with
  | NThread t => Thread_str t
  | NLock l => Lock_str l
  end.

(* ===================================================================== *)
(** ** class Graph *)
(* ===================================================================== *)

(** One value of [Graph.nodes]: [{'node': ..., 'next_nodes': [...]}]. *)
Record Entry : Type := mkEntry {
  node : Node;
  next_nodes : list string
}.

(** [Graph.nodes], keyed by [node.key()]. *)
Definition Graph : Type := dict Entry.

Definition Graph_init : Graph := [].

Definition is_empty (g : Graph) : bool :=
  match g with
  | [] => true
  | _ :: _ => false
  end.

Definition find_node (g : Graph) (n : Node) : option Entry :=
  dict_get g (key n).

Definition add_node (g : Graph) (n : Node) : Graph :=
  match find_node g n with
  | Some _ => g
  | None => dict_set g (key n) (mkEntry n [])
  end.

(** First entry, in iteration order, with an edge to [from_node]. *)
Fixpoint find_from_node (g : Graph) (from_node : Entry) : option Entry :=
  match g with
  | [] => None
  | (_, e) :: g' =>
      if bool_decide (key (node from_node) ∈ next_nodes e) then Some e
      else find_from_node g' from_node
  end.

(** State of the loop of [remove_nodes_without_edge]: the mapping being
    iterated and the mapping being built. *)
Record prune_state : Type := mkPrune {
  self_nodes : Graph;
  temp_nodes : Graph
}.

Definition keeps (g : Graph) (e : Entry) : bool :=
  match next_nodes e with
  | _ :: _ => true
  | [] => bool_decide (is_Some (find_from_node g e))
  end.

Definition prune_body (st : prune_state) (item : string * Entry) : prune_state :=
  if keeps (self_nodes st) item.2
  then mkPrune (self_nodes st) (dict_set (temp_nodes st) item.1 item.2)
  else st.

Definition prune_loop (g : Graph) (items : list (string * Entry)) : prune_state :=
  fold_left prune_body items (mkPrune g []).

Definition remove_nodes_without_edge (g : Graph) : Graph :=
  temp_nodes (prune_loop g g).

(** [add_edge]: [f_node] is the entry found for [from_node], or the one
    [add_node] has just stored for it. *)
Definition add_edge (g : Graph) (from_node to_node : Node) : Graph :=
  let '(g1, f_node) :=
    match find_node g from_node with
    | Some e => (g, e)
    | None => (add_node g from_node, mkEntry from_node [])
    end in
  let g2 :=
    match find_node g1 to_node with
    | Some _ => g1
    | None => add_node g1 to_node
    end in
  if bool_decide (key to_node ∈ next_nodes f_node) then g2
  else dict_set g2 (key from_node)
         (mkEntry (node f_node) (next_nodes f_node ++ [key to_node])).

(** [l.index(x)]. *)
Fixpoint index (x : string) (l : list string) : nat :=
  match l with
  | [] => O
  | y :: l' => if decide (y = x) then O else S (index x l')
  end.

(** What a call of [depth_first_search] leaves behind: the returned list
    (or [None]) and the two mutable arguments. *)
Record dfs_out : Type := mkOut {
  ret : option (list string);
  out_visited : gset string;
  out_path : list string
}.

(** Python truthiness of an optional list. *)
Definition truthy {A} (o : option (list A)) : bool :=
  match o with
  | Some (_ :: _) => true
  | _ => false
  end.

(** The [for node in next_nodes] loop, given the recursive call. *)
Fixpoint dfs_loop (rec : string -> gset string -> list string -> result dfs_out)
    (ns : list string) (nodes_visited : gset string)
    (nodes_in_cycle : list string) : result dfs_out :=
  match ns with
  | [] => Ok (mkOut None nodes_visited (removelast nodes_in_cycle))
  | n :: ns' =>
      if bool_decide (n ∈ nodes_in_cycle)
      then Ok (mkOut (Some (drop (index n nodes_in_cycle) nodes_in_cycle))
                 nodes_visited nodes_in_cycle)
      else if bool_decide (n ∈ nodes_visited)
      then dfs_loop rec ns' nodes_visited nodes_in_cycle
      else
        o ← rec n nodes_visited nodes_in_cycle;
        if truthy (ret o) then Ok o
        else dfs_loop rec ns' (out_visited o) (out_path o)
  end.

Fixpoint depth_first_search (fuel : nat) (g : Graph) (node_key : string)
    (nodes_visited : gset string) (nodes_in_cycle : list string)
    : result dfs_out :=
  match fuel with
  | O => OutOfFuel
  | S fuel' =>
      let nodes_visited := {[ node_key ]} ∪ nodes_visited in
      let nodes_in_cycle := nodes_in_cycle ++ [node_key] in
      match dict_get g node_key with
      | None => Raise (KeyError node_key)
      | Some e =>
          dfs_loop (depth_first_search fuel' g) (next_nodes e)
            nodes_visited nodes_in_cycle
      end
  end.

(** The recursion is at most one call deep per registered key, plus the
    call that raises on an unregistered one. *)
Definition dfs_fuel (g : Graph) : nat := S (length g).

(** The loop of [detect_cycle] over the keys still to be tried; returns the
    key path of the cycle and the state of the last search. *)
Fixpoint detect_cycle_loop (g : Graph) (ks : list string)
    (nodes_visited : gset string) : result dfs_out :=
  match ks with
  | [] => Ok (mkOut None nodes_visited [])
  | k :: ks' =>
      if bool_decide (k ∈ nodes_visited) then detect_cycle_loop g ks' nodes_visited
      else
        o ← depth_first_search (dfs_fuel g) g k nodes_visited [];
        if truthy (ret o) then Ok o
        else detect_cycle_loop g ks' (out_visited o)
  end.

(** [[str(self.nodes[node_key]['node']) for node_key in cycle_path]]. *)
Fixpoint describe (g : Graph) (cycle_path : list string) : result (list string) :=
  match cycle_path with
  | [] => Ok []
  | k :: ks =>
      match dict_get g k with
      | None => Raise (KeyError k)
      | Some e => ds ← describe g ks; Ok (str (node e) :: ds)
      end
  end.

Definition detect_cycle (g : Graph) : result (option (list string)) :=
  o ← detect_cycle_loop g (dict_keys g) ∅;
  match ret o with
  | Some (k :: ks) => ds ← describe g (k :: ks); Ok (Some ds)
  | _ => Ok None
  end.

(** [to_graph(nodes, message)]: the digraph text, one list item per line. *)
Definition to_graph (g : Graph) (nodes : option (list string))
    (message : option string) : string :=
  let legend :=
    [ "# Legend:";
      "#    Thread 1 -> Lock 1 indicates Thread 1 is waiting on Lock 1";
      "#    Lock 2 -> Thread 2 indicates Lock 2 is held by Thread 2" ] in
  let header := match message with Some m => [m] | None => [] end in
  let open := [ "digraph " +:+ dquote +:+ "mongod+lock-status" +:+ dquote +:+ " {" ] in
  let edges :=
    flat_map (λ item : string * Entry,
      map (λ next_node_key,
             "    " +:+ dquote +:+ item.1 +:+ dquote +:+ " -> "
                    +:+ dquote +:+ next_node_key +:+ dquote +:+ ";")
          (next_nodes item.2)) g in
  let labels :=
    map (λ item : string * Entry,
      let color :=
        if truthy nodes && bool_decide (item.1 ∈ default [] nodes)
        then "color = red" else "" in
      "    " +:+ dquote +:+ item.1 +:+ dquote +:+ " [label=" +:+ dquote
             +:+ str (node item.2) +:+ dquote +:+ " " +:+ color +:+ "]") g in
  String.concat (String "010"%char "")
    (legend ++ header ++ open ++ edges ++ labels ++ ["}"]).

(* ===================================================================== *)
(** ** What gdb reports, and the state of one command *)
(* ===================================================================== *)

(** [thread_dict]: LWP id to [Thread], in insertion order. *)
Definition thread_dict_t : Type := list (Z * Thread).

Fixpoint thread_dict_get (thread_dict : thread_dict_t) (lwp : Z) : option Thread :=
  match thread_dict with
  | [] => None
  | (l, t) :: rest => if decide (l = lwp) then Some t else thread_dict_get rest lwp
  end.

Fixpoint find_thread (thread_dict : thread_dict_t) (search_thread_id : Z)
    : option Thread :=
  match thread_dict with
  | [] => None
  | (_, t) :: rest =>
      if decide (thread_id t = search_thread_id) then Some t
      else find_thread rest search_thread_id
  end.

(** Outcome of [find_frame] and of the reads that follow it: no matching
    frame, a [gdb.error], or the values read. *)
Inductive probe (A : Type) : Type :=
  | NoFrame
  | ProbeError (msg : string)
  | Frame (a : A).
Arguments NoFrame {A}.
Arguments ProbeError {A} msg.
Arguments Frame {A} a.

(** The [std::mutex] a thread is blocked in: its address, its text as gdb
    prints it, and [__owner]. *)
Record mutex_obs : Type := mkMutexObs {
  mutex_value : Z;
  mutex_text : string;
  mutex_holder_lwpid : Z
}.

(** One request of a granted list: [gdb.error] while reading it, or the
    thread id of its locker and the text of its mode. *)
Inductive lock_request : Type :=
  | RequestError (msg : string)
  | Request (lock_holder_id : Z) (mode_text : string).

(** The lock head a thread waits for: [gdb.error] while evaluating it, or
    its address, its text and its granted list. *)
Inductive lock_head_obs : Type :=
  | LockHeadError (msg : string)
  | LockHead (lock_head : Z) (lock_head_text : string)
             (granted_list : list lock_request).

(** One thread of the inferior, as [get_locks] sees it. *)
Record thread_obs : Type := mkThreadObs {
  is_valid : bool;
  selected_lwpid : Z;
  mutex_probe : probe mutex_obs;
  locker_probe : probe lock_head_obs
}.

(** What a command acts on: its graph, the lines printed, the files
    written. *)
Record pass_state : Type := mkState {
  st_graph : Graph;
  st_out : list string;
  st_files : list (string * string)
}.

Definition M (A : Type) : Type := pass_state → result A * pass_state.

#[global] Instance M_ret : MRet M := λ A a st, (Ok a, st).

#[global] Instance M_bind : MBind M := λ A B k m st,
  match m st with
  | (Ok a, st') => k a st'
  | (Raise e, st') => (Raise e, st')
  | (OutOfFuel, st') => (OutOfFuel, st')
  end.

Definition raise {A} (e : exn) : M A := λ st, (Raise e, st).

Definition lift {A} (r : result A) : M A := λ st, (r, st).

Definition print (line : string) : M unit := λ st,
  (Ok tt, mkState (st_graph st) (st_out st ++ [line]) (st_files st)).

Definition write_file (path text : string) : M unit := λ st,
  (Ok tt, mkState (st_graph st) (st_out st) (st_files st ++ [(path, text)])).

Definition get_graph : M Graph := λ st, (Ok (st_graph st), st).

Definition set_graph (g : Graph) : M unit := λ st,
  (Ok tt, mkState g (st_out st) (st_files st)).

Definition graph_add_edge (from_node to_node : Node) : M unit :=
  g ← get_graph; set_graph (add_edge g from_node to_node).

Definition when (b : bool) (m : M unit) : M unit :=
  if b then m else mret tt.

(** [try: body / except gdb.error as err: handler(str(err))]. *)
Definition try_except_gdb (body : M unit) (handler : string → M unit) : M unit :=
  λ st,
    match body st with
    | (Raise (GdbError msg), st') => handler msg st'
    | r => r
    end.

Fixpoint for_each {A} (l : list A) (body : A → M unit) : M unit :=
  match l with
  | [] => mret tt
  | x :: l' => _ ← body x; for_each l' body
  end.

(** [thread_dict[lwp]]. *)
Definition thread_dict_item (thread_dict : thread_dict_t) (lwp : Z) : M Thread :=
  match thread_dict_get thread_dict lwp with
  | Some t => mret t
  | None => raise (KeyError (format_int lwp))
  end.

(** [str] of a thread that may be [None]. *)
Definition str_optional_thread (t : option Thread) : string :=
  match t with
  | Some t => Thread_str t
  | None => "None"
  end.

(** [find_mutex_holder] for the selected thread; [with_graph] tells whether
    a graph was passed. *)
Definition find_mutex_holder (with_graph : bool) (thread_dict : thread_dict_t)
    (show : bool) (obs : thread_obs) : M unit :=
  match mutex_probe obs with
  | NoFrame => mret tt
  | ProbeError msg => raise (GdbError msg)
  | Frame m =>
      mutex_holder ←
        match thread_dict_get thread_dict (mutex_holder_lwpid m) with
        | None =>
            _ ← print ("Warning: Mutex at " +:+ mutex_text m
                       +:+ " held by thread with LWP "
                       +:+ format_int (mutex_holder_lwpid m)
                       +:+ " not found in thread_dict. Using LWP to track thread.");
            mret (mkThread (mutex_holder_lwpid m) (mutex_holder_lwpid m)
                    (dquote +:+ "[unknown]" +:+ dquote))
        | Some t => mret t
        end;
      mutex_waiter ← thread_dict_item thread_dict (selected_lwpid obs);
      _ ← when show
            (print ("Mutex at " +:+ mutex_text m +:+ " held by "
                    +:+ Thread_str mutex_holder +:+ " waited on by "
                    +:+ Thread_str mutex_waiter));
      when with_graph
        (_ ← graph_add_edge (NThread mutex_waiter)
               (NLock (mkLock (mutex_value m) "Mutex"));
         graph_add_edge (NLock (mkLock (mutex_value m) "Mutex"))
           (NThread mutex_holder))
  end.

(** [graph.add_edge(Lock(...), lock_holder)] where [lock_holder] is what
    [find_thread] returned: on [None], [find_node] raises at [node.key()]. *)
Definition graph_add_edge_to_holder (from_node : Node) (lock_holder : option Thread)
    : M unit :=
  match lock_holder with
  | Some t => graph_add_edge from_node (NThread t)
  | None =>
      _ ← (g ← get_graph; set_graph (add_node g from_node));
      raise (AttributeError "'NoneType' object has no attribute 'key'")
  end.

Definition find_lock_manager_holders (with_graph : bool)
    (thread_dict : thread_dict_t) (show : bool) (obs : thread_obs) : M unit :=
  match locker_probe obs with
  | NoFrame => mret tt
  | ProbeError msg => raise (GdbError msg)
  | Frame head =>
      lock_waiter ← thread_dict_item thread_dict (selected_lwpid obs);
      match head with
      | LockHeadError msg => raise (GdbError msg)
      | LockHead lock_head lock_head_text granted_list =>
          for_each granted_list (λ request,
            match request with
            | RequestError msg => raise (GdbError msg)
            | Request lock_holder_id mode_text =>
                let lock_holder := find_thread thread_dict lock_holder_id in
                _ ← when show
                      (print ("MongoDB Lock at " +:+ lock_head_text +:+ " ("
                              +:+ mode_text +:+ ") held by "
                              +:+ str_optional_thread lock_holder
                              +:+ " waited on by " +:+ Thread_str lock_waiter));
                when with_graph
                  (_ ← graph_add_edge (NThread lock_waiter)
                         (NLock (mkLock lock_head "MongoDB lock"));
                   graph_add_edge_to_holder
                     (NLock (mkLock lock_head "MongoDB lock")) lock_holder)
            end)
      end
  end.

Definition get_locks (with_graph : bool) (thread_dict : thread_dict_t)
    (show : bool) (threads : list thread_obs) : M unit :=
  for_each threads (λ thread,
    try_except_gdb
      (if is_valid thread
       then _ ← find_mutex_holder with_graph thread_dict show thread;
            find_lock_manager_holders with_graph thread_dict show thread
       else mret tt)
      (λ err, print ("Ignoring GDB error '" +:+ err +:+ "' in get_locks"))).

(** [s.startswith(p)]. *)
Fixpoint starts_with (p s : string) : bool :=
  match p with
  | EmptyString => true
  | String a p' =>
      match s with
      | EmptyString => false
      | String b s' => if Ascii.eqb a b then starts_with p' s' else false
      end
  end.

(** [s.split(sep)] for a non-empty [sep]; [skip] counts the characters of a
    separator still to be passed over. *)
Fixpoint split_go (sep s : string) (skip : nat) (cur : string) : list string :=
  match s with
  | EmptyString => [cur]
  | String c s' =>
      match skip with
      | S n => split_go sep s' n cur
      | O =>
          if starts_with sep s
          then cur :: split_go sep s' (String.length sep - 1) ""
          else split_go sep s' O (cur +:+ String c "")
      end
  end.

Definition split (s sep : string) : list string := split_go sep s O "".

Definition empty_graph_notice : string :=
  "Not generating the digraph, since the lock graph is empty".

Section commands.
(** Python's text of a list of strings, as ['%s' % cycle_nodes] gives it. *)
Variable str_of_list : list string → string.

(** The body of [mongodb_waitsfor_graph] after [graph = Graph()], given
    what [get_threads_info] returned and the threads of the inferior. *)
Definition mongodb_waitsfor_graph (thread_dict : thread_dict_t)
    (threads : list thread_obs) (graph_file : string) : M unit :=
  try_except_gdb
    (_ ← get_locks true thread_dict false threads;
     g ← get_graph;
     _ ← set_graph (remove_nodes_without_edge g);
     graph ← get_graph;
     if is_empty graph then print empty_graph_notice
     else
       cycle_nodes ← lift (detect_cycle graph);
       let cycle_message :=
         if truthy cycle_nodes
         then "# Cycle detected in the graph nodes "
              +:+ str_of_list (default [] cycle_nodes)
         else "# No cycle detected in the graph" in
       if bool_decide (graph_file ≠ "")
       then
         _ ← print ("Saving digraph to " +:+ graph_file);
         _ ← write_file graph_file
               (to_graph graph cycle_nodes (Some cycle_message));
         match split cycle_message "# " !! 1%nat with
         | Some line => print line
         | None => raise IndexError
         end
       else print (to_graph graph cycle_nodes (Some cycle_message)))
    (λ err, print ("Ignoring GDB error '" +:+ err
                   +:+ "' in mongod_deadlock_graph")).

(** [mongodb_show_locks]: no graph, every relationship printed. *)
Definition mongodb_show_locks (thread_dict : thread_dict_t)
    (threads : list thread_obs) : M unit :=
  try_except_gdb
    (get_locks false thread_dict true threads)
    (λ err, print ("Ignoring GDB error '" +:+ err
                   +:+ "' in mongodb_show_locks")).
End commands.

(** The state a command starts from: [Graph()], nothing printed. *)
Definition initial_state : pass_state := mkState Graph_init [] [].

(* ===================================================================== *)
(** ** Vocabulary of the properties *)
(* ===================================================================== *)

Definition registered (g : Graph) (k : string) : Prop := is_Some (dict_get g k).

(** The outgoing list of a key ([[]] for an unregistered one). *)
Definition outgoing (g : Graph) (k : string) : list string :=
  from_option next_nodes [] (dict_get g k).

Definition edge (g : Graph) (a b : string) : Prop := b ∈ outgoing g a.

Definition has_outgoing (g : Graph) (k : string) : Prop := ∃ b, edge g k b.
Definition has_incoming (g : Graph) (k : string) : Prop := ∃ a, edge g a k.

(** What the class maintains of its [dict]: keys are distinct, and every
    entry is stored under the key of its own node. *)
Definition graph_ok (g : Graph) : Prop :=
  NoDup (dict_keys g) ∧ ∀ k e, (k, e) ∈ g → key (node e) = k.

(** The two invariants of the outgoing lists. *)
Definition targets_registered (g : Graph) : Prop :=
  ∀ a b, edge g a b → registered g b.

Definition outgoing_nodup (g : Graph) : Prop :=
  ∀ k, NoDup (outgoing g k).

(** The node that represents [n] once [n] has been registered: the one
    already stored under its key, if any. *)
Definition representative (g : Graph) (n : Node) : Node :=
  from_option node n (dict_get g (key n)).


(** The structural invariant of the outgoing lists. *)
Definition structural_invariant (g : Graph) : Prop :=
  targets_registered g ∧ outgoing_nodup g.

(** Consecutive elements of [l] are joined by edges of [g]. *)
Fixpoint chain (g : Graph) (l : list string) : Prop :=
  match l with
  | a :: (b :: _) as l' => edge g a b ∧ chain g l'
  | _ => True
  end.

(** A cycle as a list of keys: no key twice, consecutive keys joined by an
    edge, and an edge from the last key back to the first. *)
Definition is_cycle (g : Graph) (c : list string) : Prop :=
  NoDup c ∧ chain g c ∧ ∃ a b, last c = Some a ∧ head c = Some b ∧ edge g a b.

(** A key lies on a directed cycle when it reaches itself in one or more
    edges. *)
Definition on_cycle (g : Graph) (x : string) : Prop := tc (edge g) x x.
Definition has_cycle (g : Graph) : Prop := ∃ x, on_cycle g x.
Definition acyclic (g : Graph) : Prop := ∀ x, ¬ on_cycle g x.

Definition key_set (g : Graph) : gset string := list_to_set (dict_keys g).

(** The keys visited and no longer on the path are closed under edges and
    lie on no cycle. *)
Definition finished_inv (g : Graph) (vis : gset string) (path : list string) : Prop :=
  ∀ x, x ∈ vis → x ∉ path →
    (∀ y, edge g x y → y ∈ vis ∧ y ∉ path) ∧ ¬ on_cycle g x.

(** A search that returns [c] leaves a path that extends [start], repeats
    no key, follows edges, and whose last key has an edge to a key [n] of
    the path; [c] is the path from the first position of [n] on. *)
Definition cycle_found (g : Graph) (start : list string) (o : dfs_out)
    (c : list string) : Prop :=
  ∃ n z, (start `prefix_of` out_path o)
    ∧ NoDup (out_path o) ∧ chain g (out_path o)
    ∧ last (out_path o) = Some z ∧ edge g z n ∧ n ∈ out_path o
    ∧ c = drop (index n (out_path o)) (out_path o).

Definition dfs_pre (g : Graph) (fuel : nat) (k : string)
    (vis : gset string) (path : list string) : Prop :=
  registered g k ∧ (k ∉ vis) ∧ (∀ x, x ∈ path → x ∈ vis)
  ∧ NoDup path ∧ (chain g path)
  ∧ (∀ a, last path = Some a → edge g a k)
  ∧ finished_inv g vis path ∧ (size (key_set g ∖ vis) < fuel)%nat.

Definition dfs_post (g : Graph) (k : string) (vis : gset string)
    (path : list string) (r : result dfs_out) : Prop :=
  match r with
  | Ok o =>
      match ret o with
      | None => out_path o = path ∧ vis ⊆ out_visited o ∧ k ∈ out_visited o
                ∧ finished_inv g (out_visited o) path
      | Some c => cycle_found g (path ++ [k]) o c
      end
  | _ => False
  end.

(** [ds] are the descriptions of the nodes stored under the keys [ks]. *)
Definition described_by (g : Graph) (ks ds : list string) : Prop :=
  Forall2 (λ k d, ∃ e, dict_get g k = Some e ∧ d = str (node e)) ks ds.

(** Distinct registered keys have distinct descriptions. *)
Definition str_separates (g : Graph) : Prop :=
  ∀ k1 k2 e1 e2, dict_get g k1 = Some e1 → dict_get g k2 = Some e2 →
    str (node e1) = str (node e2) → k1 = k2.

(** Number of edges: the outgoing lists, end to end. *)
Definition num_edges (g : Graph) : nat :=
  length (flat_map (λ item : string * Entry, next_nodes item.2) g).

(** The lines [get_locks] prints when [show] is off: the warning of
    [find_mutex_holder] and the notice of a caught [gdb.error]. *)
Definition is_diagnostic (line : string) : bool :=
  starts_with "Warning: Mutex at " line
  || starts_with "Ignoring GDB error '" line.

(** A computation that writes no file and prints diagnostics only. *)
Definition only_diagnostics {A} (m : M A) : Prop :=
  ∀ st r st', m st = (r, st') →
    st_files st' = st_files st
    ∧ ∃ extra, st_out st' = st_out st ++ extra
               ∧ Forall (λ line, is_diagnostic line = true) extra.

(** A computation that leaves the graph alone. *)
Definition keeps_graph {A} (m : M A) : Prop :=
  ∀ st r st', m st = (r, st') → st_graph st' = st_graph st.

(** The thread [find_mutex_holder] makes up for an owner it cannot find. *)
Definition placeholder_thread (lwp : Z) : Thread :=
  mkThread lwp lwp (dquote +:+ "[unknown]" +:+ dquote).

(** A snapshot with one thread, LWP 100, registered in [thread_dict]. *)
Definition snapshot_threads : thread_dict_t :=
  [(100%Z, mkThread 1000 100 "conn1")].

(** That thread waits for a lock-manager lock granted to a locker whose
    thread id, 2457, is the id of no thread of the snapshot. *)
Definition waits_for_unknown_locker : thread_obs :=
  mkThreadObs true 100 NoFrame
    (Frame (LockHead 20480 "0x5000" [Request 2457 "MODE_X"])).

(** That thread waits for a mutex owned by LWP 999, which is not in the
    snapshot. *)
Definition waits_for_unknown_owner : thread_obs :=
  mkThreadObs true 100 (Frame (mkMutexObs 4096 "0x1000" 999)) NoFrame.

(** That thread waits for nothing. *)
Definition waits_for_nothing : thread_obs :=
  mkThreadObs true 100 NoFrame NoFrame.

(** Two threads and a mutex, for the examples below. *)
Definition waiter_thread : Thread := mkThread 1 101 "conn1".
Definition holder_thread : Thread := mkThread 2 102 "conn2".
Definition contended_lock : Lock := mkLock 4096 "Mutex".

(** [conn1] waits for the mutex, which [conn2] holds while waiting for it
    again: a path into a cycle of two nodes. *)
Definition self_deadlock_graph : Graph :=
  add_edge
    (add_edge
       (add_edge Graph_init (NThread waiter_thread) (NLock contended_lock))
       (NLock contended_lock) (NThread holder_thread))
    (NThread holder_thread) (NLock contended_lock).

(** [conn1] waits for the mutex, whose owner is the placeholder of LWP 999;
    [conn2] is registered and waits for nothing. *)
Definition unknown_owner_graph : Graph :=
  add_node
    (add_edge
       (add_edge Graph_init (NThread waiter_thread) (NLock contended_lock))
       (NLock contended_lock) (NThread (placeholder_thread 999)))
    (NThread holder_thread).

(** The nodes the commands make: a lock is a ["Mutex"] or a
    ["MongoDB lock"]. *)
Definition program_node (n : Node) : Prop :=
  match n with
  | NThread _ => True
  | NLock l => resource l = "Mutex" ∨ resource l = "MongoDB lock"
  end.

Definition program_graph (g : Graph) : Prop :=
  ∀ k e, dict_get g k = Some e → program_node (node e).

(** The characters of a formatted number: neither a space nor an [x]. *)
Definition plain (c : ascii) : Prop := c ≠ " "%char ∧ c ≠ "x"%char.

(** What holds of the graph throughout a command. *)
Definition command_graph (g : Graph) : Prop :=
  graph_ok g ∧ structural_invariant g ∧ program_graph g.

(** A computation that keeps [command_graph]. *)
Definition keeps_command_graph {A} (m : M A) : Prop :=
  ∀ st r st', command_graph (st_graph st) → m st = (r, st') →
    command_graph (st_graph st').

(* ===================================================================== *)
(** ** Reading keys back, and equality of nodes *)
(* ===================================================================== *)

(** The number written by a string of lower-case hexadecimal digits. *)
Definition hex_value (s : string) : option N :=
  N.of_hex_uint <$> HexadecimalString.NilEmpty.uint_of_string s.

(** The integer written by the text of ['{:012x}']. *)
Definition parse_012x (s : string) : option Z :=
  match s with
  | String "-" s' => (λ n, - Z.of_N n)%Z <$> hex_value s'
  | _ => Z.of_N <$> hex_value s
  end.

(** What [__eq__] returns. *)
Inductive eq_result : Type :=
  | EqTrue
  | EqFalse
  | NotImplemented.

Definition Thread_eq (self : Thread) (other : Node) : eq_result :=
  match other with
  | NThread o => if decide (thread_id self = thread_id o) then EqTrue else EqFalse
  | NLock _ => NotImplemented
  end.

Definition Lock_eq (self : Lock) (other : Node) : eq_result :=
  match other with
  | NLock o => if decide (addr self = addr o) then EqTrue else EqFalse
  | NThread _ => NotImplemented
  end.

Definition Node_eq (self other : Node) : eq_result :=
  match self with
  | NThread t => Thread_eq t other
  | NLock l => Lock_eq l other
  end.

(** [a == b]: [a.__eq__(b)], then the reflected [b.__eq__(a)], then the
    identity of the two objects, which are distinct when their classes
    differ. *)
Definition equal (a b : Node) : bool :=
  match Node_eq a b with
  | EqTrue => true
  | EqFalse => false
  | NotImplemented =>
      match Node_eq b a with
      | EqTrue => true
      | EqFalse => false
      | NotImplemented => false
      end
  end.

(** [__ne__]: [not self == other]. *)
Definition not_equal (a b : Node) : bool := negb (equal a b).

(* ===================================================================== *)
(** ** The search on a graph that may name unregistered keys *)
(* ===================================================================== *)

(** A key some outgoing list names although no node is registered under
    it. *)
Definition dangling (g : Graph) (b : string) : Prop :=
  ¬ registered g b ∧ ∃ a, edge g a b.

Definition dfs_pre_any (g : Graph) (fuel : nat) (k : string)
    (vis : gset string) (path : list string) : Prop :=
  (k ∉ vis) ∧ (∀ x, x ∈ path → x ∈ vis) ∧ (∀ x, x ∈ vis → registered g x)
  ∧ NoDup path ∧ (chain g path)
  ∧ (∀ a, last path = Some a → edge g a k)
  ∧ (path = [] → registered g k)
  ∧ finished_inv g vis path ∧ (size (key_set g ∖ vis) < fuel)%nat.

Definition dfs_post_any (g : Graph) (k : string) (vis : gset string)
    (path : list string) (r : result dfs_out) : Prop :=
  match r with
  | Ok o =>
      match ret o with
      | None => out_path o = path ∧ vis ⊆ out_visited o ∧ k ∈ out_visited o
                ∧ (∀ x, x ∈ out_visited o → registered g x)
                ∧ finished_inv g (out_visited o) path
      | Some c => cycle_found g (path ++ [k]) o c
      end
  | Raise (KeyError b) => dangling g b
  | _ => False
  end.

(** A mapping in which [conn1] names the mutex although the mutex is not
    registered. *)
Definition dangling_graph : Graph :=
  [(Thread_key waiter_thread,
    mkEntry (NThread waiter_thread) [Lock_key contended_lock])].

(** The characters ['{:012x}'] can write. *)
Definition is_hex_char (c : ascii) : bool :=
  existsb (Ascii.eqb c) (list_ascii_of_string "-0123456789abcdef").

(* ===================================================================== *)
(** ** What a computation may change and raise *)
(* ===================================================================== *)

(** Every run of [m] relates the states by [P], raises only exceptions of
    [E], and never exhausts the recursion budget. *)
Definition mspec {A} (P : pass_state → pass_state → Prop) (E : exn → Prop)
    (m : M A) : Prop :=
  ∀ st r st', m st = (r, st') →
    P st st' ∧ (∀ e, r = Raise e → E e) ∧ r ≠ OutOfFuel.

(** A relation on states that composes. *)
Definition steps (P : pass_state → pass_state → Prop) : Prop :=
  (∀ st, P st st) ∧ (∀ a b c, P a b → P b c → P a c).

(** Only lines are printed: graph and files stay. *)
Definition prints_only (st st' : pass_state) : Prop :=
  st_graph st' = st_graph st ∧ st_files st' = st_files st
  ∧ ∃ lines, st_out st' = st_out st ++ lines.

Definition is_KeyError (e : exn) : Prop := ∃ k, e = KeyError k.
Definition is_GdbError (e : exn) : Prop := ∃ msg, e = GdbError msg.

(* ===================================================================== *)
(** ** get_threads_info *)
(* ===================================================================== *)

(** [thread_dict[lwp] = t]. *)
Fixpoint thread_dict_set (thread_dict : thread_dict_t) (lwp : Z) (t : Thread)
    : thread_dict_t :=
  match thread_dict with
  | [] => [(lwp, t)]
  | (l, t') :: rest =>
      if decide (l = lwp) then (lwp, t) :: rest
      else (l, t') :: thread_dict_set rest lwp t
  end.

(** What gdb gives for one thread in [get_threads_info]: a [gdb.error], or
    the name and the thread id read ([None] when it could not be read). *)
Inductive thread_info_read : Type :=
  | InfoError (msg : string)
  | Info (thread_name : string) (thread_id : option Z).

Record thread_info_obs : Type := mkInfoObs {
  info_is_valid : bool;
  info_lwpid : Z;
  info_num : Z;
  info_read : thread_info_read
}.

(** Truth value of a thread id: [None] and [0] are false. *)
Definition thread_id_truthy (thread_id : option Z) : bool :=
  match thread_id with
  | Some z => negb (z =? 0)%Z
  | None => false
  end.

(** The loop of [get_threads_info], from the dictionary built so far. *)
Fixpoint get_threads_info_from (threads : list thread_info_obs)
    (thread_dict : thread_dict_t) : M thread_dict_t :=
  match threads with
  | [] => mret thread_dict
  | thread :: rest =>
      if info_is_valid thread then
        match info_read thread with
        | InfoError msg =>
            _ ← print ("Ignoring GDB error '" +:+ msg
                       +:+ "' in get_threads_info");
            get_threads_info_from rest thread_dict
        | Info thread_name thread_id =>
            if thread_id_truthy thread_id then
              get_threads_info_from rest
                (thread_dict_set thread_dict (info_lwpid thread)
                   (mkThread (default 0%Z thread_id) (info_lwpid thread)
                      thread_name))
            else
              _ ← print ("Unable to retrieve thread_info for thread "
                         +:+ format_int (info_num thread));
              get_threads_info_from rest thread_dict
        end
      else get_threads_info_from rest thread_dict
  end.

Definition get_threads_info (threads : list thread_info_obs) : M thread_dict_t :=
  get_threads_info_from threads [].

(** A thread [get_threads_info] records. *)
Definition recorded (thread : thread_info_obs) (t : Thread) : Prop :=
  info_is_valid thread = true
  ∧ ∃ id, info_read thread = Info (name t) (Some id) ∧ id ≠ 0%Z
          ∧ thread_id t = id ∧ lwpid t = info_lwpid thread.

(** The keys of a [thread_dict] are distinct and each thread is stored
    under its own LWP id, with a thread id that is not zero. *)
Definition thread_dict_ok (thread_dict : thread_dict_t) : Prop :=
  NoDup thread_dict.*1
  ∧ ∀ l t, (l, t) ∈ thread_dict → lwpid t = l ∧ thread_id t ≠ 0%Z.

(* ===================================================================== *)
(** ** find_func_block, find_frame *)
(* ===================================================================== *)

(** A [gdb.Block]: the name of its function, if it has one, and its
    superblock, which the outermost block does not have. *)
Inductive block : Type :=
  | OutermostBlock (function : option string)
  | NestedBlock (function : option string) (superblock : block).

Definition block_function (b : block) : option string :=
  match b with
  | OutermostBlock f => f
  | NestedBlock f _ => f
  end.

Definition block_superblock (b : block) : option block :=
  match b with
  | OutermostBlock _ => None
  | NestedBlock _ sb => Some sb
  end.

Fixpoint find_func_block_from (b : block) : option block :=
  match block_function b with
  | Some _ => Some b
  | None =>
      match b with
      | NestedBlock _ sb => find_func_block_from sb
      | OutermostBlock _ => None
      end
  end.

Definition find_func_block (b : option block) : option block :=
  match b with
  | Some b => find_func_block_from b
  | None => None
  end.

(** The block and its superblocks, innermost first. *)
Fixpoint enclosing (b : block) : list block :=
  match b with
  | NestedBlock _ sb => b :: enclosing sb
  | OutermostBlock _ => [b]
  end.

(** [frame.block()]: the block, or a [RuntimeError] with its message,
    taken to be a [gdb.error] when the message is not the one the code
    tests for. *)
Inductive block_read : Type :=
  | BlockOk (b : block)
  | BlockRaises (msg : string).

(** What [frame.older()] gives at the end of the walk: no older frame, or
    a [gdb.error]. *)
Inductive older_end : Type :=
  | NoOlder
  | OlderError (msg : string).

(** A [gdb.Frame]: what its [block()] gives, and its older frame or the
    end of the walk. *)
Inductive frame : Type :=
  | LastFrame (frame_block : block_read) (older : older_end)
  | StackFrame (frame_block : block_read) (older : frame).

Definition frame_block_read (f : frame) : block_read :=
  match f with
  | LastFrame b _ => b
  | StackFrame b _ => b
  end.

Definition cannot_locate : string := "Cannot locate block for frame.".

(** The function block of a frame whose [block()] gives a block. *)
Definition frame_func_block (f : frame) : option block :=
  match frame_block_read f with
  | BlockOk b => find_func_block (Some b)
  | BlockRaises _ => find_func_block None
  end.

Definition frame_matches (matches : string → bool) (f : frame) : bool :=
  match frame_func_block f with
  | Some b => from_option matches false (block_function b)
  | None => false
  end.

(** The message with which [frame.block()] makes [find_frame] raise. *)
Definition frame_raises (f : frame) : option string :=
  match frame_block_read f with
  | BlockRaises msg => if decide (msg = cannot_locate) then None else Some msg
  | BlockOk _ => None
  end.

(** [find_frame], from the newest frame; [matches] is
    [re.match(function_name_pattern, _)]. *)
Fixpoint find_frame (matches : string → bool) (f : frame) : M (option frame) :=
  match frame_raises f with
  | Some msg => raise (GdbError msg)
  | None =>
      if frame_matches matches f then mret (Some f)
      else
        match f with
        | LastFrame _ NoOlder => mret None
        | LastFrame _ (OlderError msg) =>
            _ ← print ("Ignoring GDB error '" +:+ msg +:+ "' in find_frame");
            mret None
        | StackFrame _ f' => find_frame matches f'
        end
  end.

(** The frames [find_frame] can reach, newest first. *)
Fixpoint older_frames (f : frame) : list frame :=
  match f with
  | StackFrame _ f' => f :: older_frames f'
  | LastFrame _ _ => [f]
  end.

(** How the walk from [f] to ever older frames ends. *)
Fixpoint walk_end (f : frame) : older_end :=
  match f with
  | StackFrame _ f' => walk_end f'
  | LastFrame _ e => e
  end.

(** A frame [find_frame] passes over: its [block()] does not make
    [find_frame] raise and its function does not match. *)
Definition passed_over (matches : string → bool) (f : frame) : Prop :=
  frame_raises f = None ∧ frame_matches matches f = false.

(** The request of the granted list is read without error and its locker's
    thread id is that of [holder], found in [thread_dict]. *)
Definition granted_to (thread_dict : thread_dict_t) (request : lock_request)
    (holder : Thread) : Prop :=
  ∃ lock_holder_id mode_text,
    request = Request lock_holder_id mode_text
    ∧ find_thread thread_dict lock_holder_id = Some holder.

(* ===================================================================== *)
(** ** The commands, from [invoke] *)
(* ===================================================================== *)

Section invoke.
(** Python's text of a list of strings, as ['%s' % cycle_nodes] gives it. *)
Variable str_of_list : list string → string.

(** [MongoDBShowLocks.invoke]: [threads_info] is what the inferior's
    threads give to [get_threads_info], [threads] what they give to
    [get_locks]. *)
Definition MongoDBShowLocks_invoke (threads_info : list thread_info_obs)
    (threads : list thread_obs) : M unit :=
  try_except_gdb
    (thread_dict ← get_threads_info threads_info;
     get_locks false thread_dict true threads)
    (λ err, print ("Ignoring GDB error '" +:+ err
                   +:+ "' in mongodb_show_locks")).

(** [MongoDBWaitsForGraph.invoke]; [arg] is the empty string when the
    command is given no file. *)
Definition MongoDBWaitsForGraph_invoke (threads_info : list thread_info_obs)
    (threads : list thread_obs) (arg : string) : M unit :=
  _ ← set_graph Graph_init;
  try_except_gdb
    (thread_dict ← get_threads_info threads_info;
     _ ← get_locks true thread_dict false threads;
     g ← get_graph;
     _ ← set_graph (remove_nodes_without_edge g);
     graph ← get_graph;
     if is_empty graph then print empty_graph_notice
     else
       cycle_nodes ← lift (detect_cycle graph);
       let cycle_message :=
         if truthy cycle_nodes
         then "# Cycle detected in the graph nodes "
              +:+ str_of_list (default [] cycle_nodes)
         else "# No cycle detected in the graph" in
       if bool_decide (arg ≠ "")
       then
         _ ← print ("Saving digraph to " +:+ arg);
         _ ← write_file arg (to_graph graph cycle_nodes (Some cycle_message));
         match split cycle_message "# " !! 1%nat with
         | Some line => print line
         | None => raise IndexError
         end
       else print (to_graph graph cycle_nodes (Some cycle_message)))
    (λ err, print ("Ignoring GDB error '" +:+ err
                   +:+ "' in mongod_deadlock_graph")).
End invoke.
(* ===================================================================== *)
(** ** Lemmas on [dict] *)
(* ===================================================================== *)

Section dict_lemmas.
Context {V : Type}.
Implicit Types (d : dict V) (k : string) (v : V).

Lemma dict_get_set_eq d k v : dict_get (dict_set d k v) k = Some v.
Proof.
  induction d as [|[k' v'] d IH]; simpl.
  - by rewrite decide_True.
  - destruct (decide (k' = k)) as [->|Hne]; simpl.
    + by rewrite decide_True.
    + by rewrite decide_False.
Qed.

Lemma dict_get_set_ne d k k' v :
  k ≠ k' → dict_get (dict_set d k v) k' = dict_get d k'.
Proof.
  intros Hne. induction d as [|[k0 v0] d IH]; simpl.
  - by rewrite decide_False.
  - destruct (decide (k0 = k)) as [->|Hne0]; simpl.
    + by rewrite !decide_False.
    + by rewrite IH.
Qed.

Lemma dict_get_None d k : dict_get d k = None ↔ k ∉ dict_keys d.
Proof.
  unfold dict_keys. induction d as [|[k' v'] d IH]; simpl.
  - split; [intros _; apply not_elem_of_nil | done].
  - rewrite not_elem_of_cons. destruct (decide (k' = k)) as [->|Hne].
    + split; [done | intros [? _]; done].
    + rewrite IH. split; [by intros ?; split | by intros [_ ?]].
Qed.

Lemma dict_get_is_Some d k : is_Some (dict_get d k) ↔ k ∈ dict_keys d.
Proof.
  rewrite <- not_eq_None_Some, dict_get_None.
  destruct (decide (k ∈ dict_keys d)); naive_solver.
Qed.

Lemma dict_get_elem d k v : dict_get d k = Some v → (k, v) ∈ d.
Proof.
  induction d as [|[k' v'] d IH]; simpl; [done|].
  destruct (decide (k' = k)) as [->|Hne].
  - intros [= ->]. apply list_elem_of_here.
  - intros H. apply list_elem_of_further. auto.
Qed.

Lemma dict_elem_get d k v :
  NoDup (dict_keys d) → (k, v) ∈ d → dict_get d k = Some v.
Proof.
  unfold dict_keys. induction d as [|[k' v'] d IH]; simpl.
  - intros _ H. by apply elem_of_nil in H.
  - rewrite NoDup_cons. intros [Hnotin Hnd] Hin.
    apply elem_of_cons in Hin as [[= -> ->]|Hin].
    + by rewrite decide_True.
    + rewrite decide_False; [auto|].
      intros ->. apply Hnotin. apply list_elem_of_fmap. by exists (k, v).
Qed.

Lemma dict_set_absent d k v :
  dict_get d k = None → dict_set d k v = d ++ [(k, v)].
Proof.
  induction d as [|[k' v'] d IH]; simpl; [done|].
  destruct (decide (k' = k)); [done|]. intros H. by rewrite IH.
Qed.

Lemma dict_keys_set_present d k v :
  is_Some (dict_get d k) → dict_keys (dict_set d k v) = dict_keys d.
Proof.
  unfold dict_keys. induction d as [|[k' v'] d IH]; simpl.
  - by intros [? ?].
  - destruct (decide (k' = k)) as [->|Hne]; simpl; [done|].
    intros H. f_equal. by apply IH.
Qed.

Lemma dict_set_elem d k v k' v' :
  (k', v') ∈ dict_set d k v → (k', v') = (k, v) ∨ (k', v') ∈ d.
Proof.
  induction d as [|[k0 v0] d IH]; simpl.
  - intros H. apply list_elem_of_singleton in H. by left.
  - destruct (decide (k0 = k)) as [->|Hne]; rewrite !elem_of_cons; naive_solver.
Qed.

Lemma dict_get_filter (P : string * V → bool) d k v :
  NoDup (dict_keys d) →
  dict_get (List.filter P d) k = Some v ↔ dict_get d k = Some v ∧ P (k, v) = true.
Proof.
  unfold dict_keys. induction d as [|[k' v'] d IH]; simpl.
  - naive_solver.
  - rewrite NoDup_cons. intros [Hnotin Hnd].
    destruct (P (k', v')) eqn:HP; simpl.
    + destruct (decide (k' = k)) as [->|Hne]; [|by apply IH].
      split; [intros [= ->]; done | naive_solver].
    + destruct (decide (k' = k)) as [->|Hne]; [|by apply IH].
      rewrite IH by done. split; [|intros [[= ->] ?]; congruence].
      intros [Hget _]. exfalso. apply Hnotin.
      apply list_elem_of_fmap. exists (k, v). split; [done|].
      by apply dict_get_elem.
Qed.

Lemma dict_keys_filter_NoDup (P : string * V → bool) d :
  NoDup (dict_keys d) → NoDup (dict_keys (List.filter P d)).
Proof.
  unfold dict_keys. induction d as [|[k v] d IH]; simpl; [done|].
  rewrite NoDup_cons. intros [Hk Hnd].
  destruct (P (k, v)); simpl; [|auto].
  apply NoDup_cons. split; [|auto].
  intros Hin. apply Hk. apply list_elem_of_fmap in Hin as ([k' v'] & -> & Hin).
  apply list_elem_of_In, filter_In in Hin as [Hin _].
  apply list_elem_of_fmap. exists (k', v'). split; [done|].
  by apply list_elem_of_In.
Qed.
End dict_lemmas.

(* ===================================================================== *)
(** ** Lemmas on node and edge insertion *)
(* ===================================================================== *)

Lemma add_node_present g n e : find_node g n = Some e → add_node g n = g.
Proof. unfold add_node. by intros ->. Qed.

Lemma add_node_absent g n :
  find_node g n = None → add_node g n = g ++ [(key n, mkEntry n [])].
Proof. unfold add_node. intros H. rewrite H. by apply dict_set_absent. Qed.

Lemma dict_get_add_node_ne g n k :
  k ≠ key n → dict_get (add_node g n) k = dict_get g k.
Proof.
  intros Hne. unfold add_node. destruct (find_node g n); [done|].
  by apply dict_get_set_ne.
Qed.

Lemma dict_get_add_node_eq g n :
  dict_get (add_node g n) (key n)
  = Some (from_option id (mkEntry n []) (dict_get g (key n))).
Proof.
  unfold add_node, find_node. destruct (dict_get g (key n)) eqn:H; simpl.
  - done.
  - apply dict_get_set_eq.
Qed.

Lemma outgoing_add_node g n k : outgoing (add_node g n) k = outgoing g k.
Proof.
  unfold outgoing. destruct (decide (k = key n)) as [->|Hne].
  - rewrite dict_get_add_node_eq. by destruct (dict_get g (key n)).
  - by rewrite dict_get_add_node_ne.
Qed.

Lemma registered_add_node g n k :
  registered (add_node g n) k ↔ registered g k ∨ k = key n.
Proof.
  unfold registered. destruct (decide (k = key n)) as [->|Hne].
  - rewrite dict_get_add_node_eq. naive_solver.
  - rewrite dict_get_add_node_ne by done. naive_solver.
Qed.

(** [add_edge] in one piece: register both ends, then append unless the
    target key is already in the list. *)
Lemma add_edge_unfold g f t :
  add_edge g f t =
    let g2 := add_node (add_node g f) t in
    if bool_decide (key t ∈ outgoing g (key f)) then g2
    else dict_set g2 (key f)
           (mkEntry (representative g f) (outgoing g (key f) ++ [key t])).
Proof.
  unfold add_edge, representative, outgoing, find_node.
  destruct (dict_get g (key f)) as [e|] eqn:Hf; simpl.
  - rewrite (add_node_present g f e) by done.
    by destruct (dict_get g (key t)) eqn:Ht;
      [rewrite (add_node_present g t e0) by done|].
  - fold (find_node (add_node g f) t).
    by destruct (find_node (add_node g f) t) eqn:Ht;
      [rewrite (add_node_present _ t e) by done|].
Qed.

Lemma outgoing_add_edge g f t k :
  outgoing (add_edge g f t) k =
    if decide (k = key f)
    then if bool_decide (key t ∈ outgoing g (key f)) then outgoing g (key f)
         else outgoing g (key f) ++ [key t]
    else outgoing g k.
Proof.
  rewrite add_edge_unfold. simpl.
  destruct (decide (k = key f)) as [->|Hne].
  - case_bool_decide.
    + by rewrite !outgoing_add_node.
    + unfold outgoing at 1. by rewrite dict_get_set_eq.
  - case_bool_decide.
    + by rewrite !outgoing_add_node.
    + unfold outgoing at 1. rewrite dict_get_set_ne by done.
      fold (outgoing (add_node (add_node g f) t) k).
      by rewrite !outgoing_add_node.
Qed.

Lemma registered_add_edge g f t k :
  registered (add_edge g f t) k ↔ registered g k ∨ k = key f ∨ k = key t.
Proof.
  rewrite add_edge_unfold. simpl.
  assert (registered (add_node (add_node g f) t) k
          ↔ registered g k ∨ k = key f ∨ k = key t) as Hreg.
  { rewrite !registered_add_node. naive_solver. }
  case_bool_decide; [done|].
  rewrite <- Hreg. unfold registered.
  destruct (decide (k = key f)) as [->|Hne].
  - rewrite dict_get_set_eq. split; [|done]. intros _.
    apply Hreg. auto.
  - by rewrite dict_get_set_ne.
Qed.

Lemma node_add_edge g f t k e :
  dict_get g k = Some e →
  ∃ e', dict_get (add_edge g f t) k = Some e' ∧ node e' = node e.
Proof.
  intros Hk. rewrite add_edge_unfold. simpl.
  assert (dict_get (add_node (add_node g f) t) k = Some e) as Hk2.
  { destruct (decide (k = key t)) as [->|Hne].
    - rewrite dict_get_add_node_eq.
      destruct (decide (key t = key f)) as [Heq|Hne'].
      + rewrite Heq in *. rewrite dict_get_add_node_eq, Hk. done.
      + rewrite dict_get_add_node_ne, Hk by done. done.
    - rewrite dict_get_add_node_ne by done.
      destruct (decide (k = key f)) as [->|Hne'].
      + rewrite dict_get_add_node_eq, Hk. done.
      + by rewrite dict_get_add_node_ne. }
  case_bool_decide; [eauto|].
  destruct (decide (k = key f)) as [->|Hne].
  - rewrite dict_get_set_eq. eexists; split; [done|]. simpl.
    unfold representative. by rewrite Hk.
  - rewrite dict_get_set_ne by done. eauto.
Qed.

Lemma add_node_same_key g n1 n2 :
  key n1 = key n2 → add_node (add_node g n1) n2 = add_node g n1.
Proof.
  intros Hk. unfold add_node at 1. unfold find_node. rewrite <- Hk.
  by rewrite dict_get_add_node_eq.
Qed.

Lemma add_edge_same_key_from g n1 n2 m :
  key n1 = key n2 → registered g (key n1) →
  add_edge g n2 m = add_edge g n1 m.
Proof.
  intros Hk [e He]. rewrite !add_edge_unfold. simpl.
  unfold representative. rewrite <- !Hk, He. simpl.
  by rewrite (add_node_present g n1 e), (add_node_present g n2 e)
    by (unfold find_node; congruence).
Qed.

Lemma add_edge_same_key_to g n1 n2 m :
  key n1 = key n2 → registered g (key n1) →
  add_edge g m n2 = add_edge g m n1.
Proof.
  intros Hk Hreg. rewrite !add_edge_unfold. simpl. rewrite <- !Hk.
  assert (registered (add_node g m) (key n1)) as [e He].
  { apply registered_add_node. by left. }
  by rewrite (add_node_present _ n1 e), (add_node_present _ n2 e)
    by (unfold find_node; congruence).
Qed.

Lemma add_edge_twice g f t : add_edge (add_edge g f t) f t = add_edge g f t.
Proof.
  set (g' := add_edge g f t).
  assert (registered g' (key f)) as [ef Hf].
  { apply registered_add_edge. auto. }
  assert (registered g' (key t)) as [et Ht].
  { apply registered_add_edge. auto. }
  assert (key t ∈ outgoing g' (key f)) as Hin.
  { unfold g'. rewrite outgoing_add_edge, decide_True by done.
    case_bool_decide; [done|]. apply elem_of_app. right. apply list_elem_of_here. }
  rewrite (add_edge_unfold g'). simpl.
  rewrite bool_decide_eq_true_2 by done.
  rewrite (add_node_present g' f ef) by done.
  by rewrite (add_node_present g' t et) by done.
Qed.

(** Number of occurrences of a key in a list of keys. *)
Lemma occurrences_app_singleton (k : string) (l : list string) :
  length (filter (λ x, x = k) (l ++ [k])) = S (length (filter (λ x, x = k) l)).
Proof.
  rewrite filter_app, length_app. simpl.
  rewrite filter_cons_True by done. simpl. lia.
Qed.

Lemma occurrences_elem (k : string) (l : list string) :
  k ∈ l ↔ (1 ≤ length (filter (λ x, x = k) l))%nat.
Proof.
  induction l as [|y l IH].
  - rewrite elem_of_nil, filter_nil. simpl. lia.
  - rewrite elem_of_cons, IH. destruct (decide (y = k)) as [->|Hne].
    + rewrite filter_cons_True by done. simpl. split; [lia | auto].
    + rewrite filter_cons_False by done. split; [|auto].
      intros [?|?]; [congruence | done].
Qed.

(** C5: inserting the same edge [S n] times gives the graph of a single
    insertion; the outgoing list of the source is the old one, with the
    target key appended exactly when it was absent, so that it grows by at
    most one entry and the target key is never duplicated by the calls. *)
Theorem add_edge_idempotent (g : Graph) (from_node to_node : Node) (n : nat) :
  let once := add_edge g from_node to_node in
  let many := Nat.iter (S n) (λ h, add_edge h from_node to_node) g in
  let before := outgoing g (key from_node) in
  let after := outgoing many (key from_node) in
  many = once
  ∧ after = (if bool_decide (key to_node ∈ before) then before
             else before ++ [key to_node])
  ∧ (length after ≤ S (length before))%nat
  ∧ length (filter (λ x, x = key to_node) after)
    = Nat.max 1 (length (filter (λ x, x = key to_node) before)).
Proof.
  intros once many before after.
  assert (many = once) as Heq.
  { unfold many, once. induction n as [|n IH]; [done|].
    change (Nat.iter (S (S n)) ?f g) with (f (Nat.iter (S n) f g)).
    cbv beta. rewrite IH. apply add_edge_twice. }
  assert (after = (if bool_decide (key to_node ∈ before) then before
                   else before ++ [key to_node])) as Hafter.
  { unfold after. rewrite Heq. unfold once.
    by rewrite outgoing_add_edge, decide_True. }
  split; [done|]. split; [done|]. rewrite Hafter.
  case_bool_decide as Hin.
  - split; [lia|]. apply occurrences_elem in Hin. lia.
  - split; [rewrite length_app; simpl; lia|].
    rewrite occurrences_app_singleton.
    destruct (length (filter (λ x, x = key to_node) before)) eqn:Hc; [done|].
    exfalso. apply Hin, occurrences_elem. lia.
Qed.

(** C9: two [Thread] objects with one [thread_id], or two [Lock] objects
    with one [addr], have the same key; registering the second after the
    first changes nothing (same nodes, same count, the first object stays
    the stored one), and naming either of them as the source or the target
    of an edge gives the same graph. *)
Theorem node_identity_by_key (g : Graph) (n1 n2 : Node) (m : Node)
    (id lwp1 lwp2 : Z) (name1 name2 res1 res2 : string) :
  (n1 = NThread (mkThread id lwp1 name1) ∧ n2 = NThread (mkThread id lwp2 name2)
   ∨ n1 = NLock (mkLock id res1) ∧ n2 = NLock (mkLock id res2)) →
  let g1 := add_node g n1 in
  key n1 = key n2
  ∧ add_node g1 n2 = g1
  ∧ length (add_node g1 n2) = length g1
  ∧ find_node (add_node g1 n2) n2 = find_node g1 n1
  ∧ (find_node g n1 = None → find_node (add_node g1 n2) n2 = Some (mkEntry n1 []))
  ∧ add_edge g1 n2 m = add_edge g1 n1 m
  ∧ add_edge g1 m n2 = add_edge g1 m n1
  ∧ length (add_edge g1 n2 n1) = length g1.
Proof.
  intros Hn g1.
  assert (key n1 = key n2) as Hk by (by destruct Hn as [[-> ->]|[-> ->]]).
  assert (registered g1 (key n1)) as Hreg.
  { apply registered_add_node. by right. }
  assert (add_node g1 n2 = g1) as Hadd by (by apply add_node_same_key).
  split; [done|]. split; [done|]. split; [by rewrite Hadd|].
  split; [rewrite Hadd; unfold find_node; by rewrite Hk|].
  split.
  { intros Hnone. rewrite Hadd. unfold find_node, g1. rewrite <- Hk.
    rewrite dict_get_add_node_eq. unfold find_node in Hnone. by rewrite Hnone. }
  split; [by apply add_edge_same_key_from|].
  split; [by apply add_edge_same_key_to|].
  rewrite (add_edge_same_key_from g1 n1 n2 n1) by done.
  destruct Hreg as [e He].
  rewrite add_edge_unfold. simpl.
  rewrite !(add_node_present g1 n1 e) by done.
  case_bool_decide; [done|].
  assert (length (dict_keys (dict_set g1 (key n1)
            (mkEntry (representative g1 n1) (outgoing g1 (key n1) ++ [key n1]))))
          = length (dict_keys g1)) as Hlen.
  { by rewrite dict_keys_set_present by done. }
  unfold dict_keys in Hlen. by rewrite !length_fmap in Hlen.
Qed.

(* ===================================================================== *)
(** ** The representation invariant *)
(* ===================================================================== *)

Lemma graph_ok_init : graph_ok Graph_init.
Proof.
  split; [apply NoDup_nil_2|]. intros k e H. by apply elem_of_nil in H.
Qed.

Lemma graph_ok_add_node g n : graph_ok g → graph_ok (add_node g n).
Proof.
  intros [Hnd Hkey]. destruct (find_node g n) as [e|] eqn:Hf.
  - by rewrite (add_node_present g n e).
  - rewrite add_node_absent by done. split.
    + unfold dict_keys. rewrite fmap_app. simpl.
      apply NoDup_app. split; [done|]. split; [|apply NoDup_singleton].
      intros k Hk Hk'. apply list_elem_of_singleton in Hk' as ->.
      by apply dict_get_None in Hf.
    + intros k e He. apply elem_of_app in He as [He|He]; [auto|].
      by apply list_elem_of_singleton in He as [= -> ->].
Qed.

Lemma key_representative g n : graph_ok g → key (representative g n) = key n.
Proof.
  intros [_ Hkey]. unfold representative.
  destruct (dict_get g (key n)) as [e|] eqn:He; simpl; [|done].
  apply Hkey. by apply dict_get_elem.
Qed.

Lemma graph_ok_add_edge g f t : graph_ok g → graph_ok (add_edge g f t).
Proof.
  intros Hok. rewrite add_edge_unfold. simpl.
  assert (graph_ok (add_node (add_node g f) t)) as Hok2.
  { by do 2 apply graph_ok_add_node. }
  case_bool_decide; [done|]. destruct Hok2 as [Hnd Hkey]. split.
  - rewrite dict_keys_set_present; [done|].
    apply registered_add_node. left. apply registered_add_node. by right.
  - intros k e He. apply dict_set_elem in He as [[= -> ->]|He]; [|auto].
    simpl. by apply key_representative.
Qed.

(** The pruning loop never assigns the mapping it iterates over. *)
Lemma fold_prune_self items st :
  self_nodes (fold_left prune_body items st) = self_nodes st.
Proof.
  revert st. induction items as [|item items IH]; intros st; simpl; [done|].
  rewrite IH. unfold prune_body. by destruct (keeps _ _).
Qed.

(** With distinct keys, the loop appends the kept items in order. *)
Lemma fold_prune_temp g items temp :
  NoDup (dict_keys temp ++ dict_keys items) →
  temp_nodes (fold_left prune_body items (mkPrune g temp))
  = temp ++ List.filter (λ item, keeps g item.2) items.
Proof.
  revert temp. induction items as [|[k e] items IH]; intros temp Hnd; simpl.
  - by rewrite app_nil_r.
  - unfold prune_body at 2. simpl. destruct (keeps g e) eqn:Hkeep.
    + rewrite dict_set_absent.
      2:{ apply dict_get_None. apply NoDup_app in Hnd as (_ & Hdisj & _).
          intros Hin. apply (Hdisj k Hin). apply list_elem_of_here. }
      rewrite IH.
      * by rewrite <- app_assoc.
      * unfold dict_keys in *. rewrite fmap_app. simpl in *.
        by rewrite <- app_assoc.
    + apply IH. unfold dict_keys in *. simpl in Hnd.
      apply NoDup_app in Hnd as (Hnd1 & Hdisj & Hnd2).
      apply NoDup_cons in Hnd2 as [_ Hnd2].
      apply NoDup_app. split; [done|]. split; [|done].
      intros x Hx Hx'. apply (Hdisj x Hx). by apply list_elem_of_further.
Qed.

Lemma remove_nodes_without_edge_filter g :
  NoDup (dict_keys g) →
  remove_nodes_without_edge g = List.filter (λ item, keeps g item.2) g.
Proof.
  intros Hnd. unfold remove_nodes_without_edge, prune_loop.
  by rewrite fold_prune_temp.
Qed.

Lemma find_from_node_Some g from_node :
  is_Some (find_from_node g from_node)
  ↔ ∃ k e, (k, e) ∈ g ∧ key (node from_node) ∈ next_nodes e.
Proof.
  induction g as [|[k e] g IH]; simpl.
  - split; [by intros [? ?]|]. intros (k & e & H & _). by apply elem_of_nil in H.
  - case_bool_decide as Hin.
    + split; [|done]. intros _. exists k, e. split; [apply list_elem_of_here|done].
    + rewrite IH. split.
      * intros (k' & e' & H1 & H2). exists k', e'.
        split; [by apply list_elem_of_further|done].
      * intros (k' & e' & H1 & H2). apply elem_of_cons in H1 as [[= -> ->]|H1];
          [done|]. by exists k', e'.
Qed.

Lemma edge_elem g a b :
  NoDup (dict_keys g) →
  edge g a b ↔ ∃ e, (a, e) ∈ g ∧ b ∈ next_nodes e.
Proof.
  intros Hnd. unfold edge, outgoing. split.
  - destruct (dict_get g a) as [e|] eqn:He; simpl.
    + intros Hb. exists e. split; [by apply dict_get_elem|done].
    + intros H. by apply elem_of_nil in H.
  - intros (e & He & Hb). by rewrite (dict_elem_get g a e).
Qed.

(** [keeps] holds of exactly the entries with an edge in or out. *)
Lemma keeps_spec g k e :
  graph_ok g → (k, e) ∈ g →
  keeps g e = true ↔ has_outgoing g k ∨ has_incoming g k.
Proof.
  intros [Hnd Hkey] He. unfold keeps, has_outgoing, has_incoming.
  assert (outgoing g k = next_nodes e) as Hout.
  { unfold outgoing. by rewrite (dict_elem_get g k e). }
  unfold edge at 1. rewrite Hout.
  assert ((∃ a, edge g a k) ↔ is_Some (find_from_node g e)) as ->.
  { rewrite find_from_node_Some, (Hkey k e He). split.
    - intros [a Ha]. apply edge_elem in Ha as (e' & ? & ?); [|done]. eauto.
    - intros (a & e' & ? & ?). exists a. apply edge_elem; eauto. }
  destruct (next_nodes e) as [|b l]; simpl.
  - rewrite bool_decide_eq_true. split; [auto|].
    intros [[b Hb]|?]; [by apply elem_of_nil in Hb|done].
  - split; [|done]. intros _. left. exists b. apply list_elem_of_here.
Qed.

Lemma dict_get_remove g k e :
  graph_ok g →
  dict_get (remove_nodes_without_edge g) k = Some e
  ↔ dict_get g k = Some e ∧ (has_outgoing g k ∨ has_incoming g k).
Proof.
  intros Hok. rewrite remove_nodes_without_edge_filter by apply Hok.
  rewrite dict_get_filter by apply Hok. simpl.
  split; intros [Hget H]; (split; [done|]);
    by apply (keeps_spec g k e Hok (dict_get_elem _ _ _ Hget)).
Qed.

(** Pruning keeps every edge: both ends of an edge are kept. *)
Lemma edge_remove g a b :
  graph_ok g → edge (remove_nodes_without_edge g) a b ↔ edge g a b.
Proof.
  intros Hok. unfold edge, outgoing. split.
  - destruct (dict_get (remove_nodes_without_edge g) a) as [e|] eqn:He; simpl.
    + apply dict_get_remove in He as [-> _]; done.
    + intros H. by apply elem_of_nil in H.
  - destruct (dict_get g a) as [e|] eqn:He; simpl.
    + intros Hb.
      assert (dict_get (remove_nodes_without_edge g) a = Some e) as ->; [|done].
      apply dict_get_remove; [done|]. split; [done|]. left. exists b.
      unfold edge, outgoing. by rewrite He.
    + intros H. by apply elem_of_nil in H.
Qed.

Lemma graph_ok_remove g : graph_ok g → graph_ok (remove_nodes_without_edge g).
Proof.
  intros Hok. pose proof Hok as [Hnd Hkey].
  rewrite remove_nodes_without_edge_filter by done. split.
  - by apply dict_keys_filter_NoDup.
  - intros k e He. apply Hkey.
    apply list_elem_of_In, filter_In in He as [He _]. by apply list_elem_of_In.
Qed.

(* ===================================================================== *)
(** ** Pruning and the structural invariant *)
(* ===================================================================== *)

(** C3: after [remove_nodes_without_edge], every node left is a node of the
    old graph with an outgoing or an incoming edge there (and still has one
    in the pruned graph), every node dropped had neither, and at every stage
    of the loop the mapping iterated over is the unchanged old one, the
    result being built separately, in order, from the kept items. *)
Theorem remove_nodes_without_edge_correct (g : Graph) :
  graph_ok g →
  let g' := remove_nodes_without_edge g in
  (∀ k e, dict_get g' k = Some e →
     dict_get g k = Some e ∧ (has_outgoing g k ∨ has_incoming g k))
  ∧ (∀ k, registered g' k → has_outgoing g' k ∨ has_incoming g' k)
  ∧ (∀ k, registered g k → ¬ registered g' k →
       ¬ has_outgoing g k ∧ ¬ has_incoming g k)
  ∧ (∀ i, self_nodes (prune_loop g (take i g)) = g)
  ∧ g' = List.filter (λ item, keeps g item.2) g.
Proof.
  intros Hok g'. split; [|split; [|split; [|split]]].
  - intros k e He. by apply dict_get_remove in He.
  - intros k [e He]. apply dict_get_remove in He as [_ H]; [|done].
    unfold has_outgoing, has_incoming.
    destruct H as [[b Hb]|[a Ha]]; [left; exists b|right; exists a];
      by apply edge_remove.
  - intros k [e He] Hnot.
    assert (¬ (has_outgoing g k ∨ has_incoming g k)) as Hno; [|tauto].
    intros H. apply Hnot. exists e. by apply dict_get_remove.
  - intros i. unfold prune_loop. by rewrite fold_prune_self.
  - apply remove_nodes_without_edge_filter, Hok.
Qed.

Lemma structural_invariant_init : structural_invariant Graph_init.
Proof.
  split.
  - intros a b H. by apply elem_of_nil in H.
  - intros k. apply NoDup_nil_2.
Qed.

Lemma structural_invariant_add_node g n :
  structural_invariant g → structural_invariant (add_node g n).
Proof.
  intros [Hreg Hnd]. split.
  - intros a b. unfold edge. rewrite outgoing_add_node. intros H.
    apply registered_add_node. left. by apply (Hreg a b).
  - intros k. by rewrite outgoing_add_node.
Qed.

Lemma structural_invariant_add_edge g f t :
  structural_invariant g → structural_invariant (add_edge g f t).
Proof.
  intros [Hreg Hnd]. split.
  - intros a b. unfold edge. rewrite outgoing_add_edge, registered_add_edge.
    destruct (decide (a = key f)) as [->|Hne]; [|left; by apply (Hreg a b)].
    case_bool_decide; [left; by apply (Hreg (key f) b)|].
    intros [Hb|Hb]%elem_of_app; [left; by apply (Hreg (key f) b)|].
    apply list_elem_of_singleton in Hb. auto.
  - intros k. rewrite outgoing_add_edge.
    destruct (decide (k = key f)) as [->|Hne]; [|done].
    case_bool_decide as Hin; [done|].
    apply NoDup_app. split; [done|]. split; [|apply NoDup_singleton].
    intros x Hx Hx'. apply list_elem_of_singleton in Hx'. by subst x.
Qed.

Lemma structural_invariant_remove g :
  graph_ok g → structural_invariant g →
  structural_invariant (remove_nodes_without_edge g).
Proof.
  intros Hok [Hreg Hnd]. split.
  - intros a b Hab. apply (edge_remove g a b Hok) in Hab.
    destruct (Hreg a b Hab) as [e He]. exists e.
    apply dict_get_remove; [done|]. split; [done|]. right. by exists a.
  - intros k. unfold outgoing.
    destruct (dict_get (remove_nodes_without_edge g) k) as [e|] eqn:He;
      simpl; [|apply NoDup_nil_2].
    apply dict_get_remove in He as [He _]; [|done].
    specialize (Hnd k). unfold outgoing in Hnd. by rewrite He in Hnd.
Qed.

(** C6: each of [add_node], [add_edge] and [remove_nodes_without_edge]
    takes a graph whose outgoing lists name registered keys only and hold no
    key twice to a graph with the same two properties (and keeps the keys of
    the mapping distinct and consistent, so that the operations chain). *)
Theorem structural_invariant_preserved (g : Graph) (n from_node to_node : Node) :
  graph_ok g → structural_invariant g →
  (graph_ok (add_node g n) ∧ structural_invariant (add_node g n))
  ∧ (graph_ok (add_edge g from_node to_node)
     ∧ structural_invariant (add_edge g from_node to_node))
  ∧ (graph_ok (remove_nodes_without_edge g)
     ∧ structural_invariant (remove_nodes_without_edge g)).
Proof.
  intros Hok Hinv. split; [|split]; split.
  - by apply graph_ok_add_node.
  - by apply structural_invariant_add_node.
  - by apply graph_ok_add_edge.
  - by apply structural_invariant_add_edge.
  - by apply graph_ok_remove.
  - by apply structural_invariant_remove.
Qed.

(* ===================================================================== *)
(** ** Paths, cycles and the depth-first search *)
(* ===================================================================== *)

Lemma chain_snoc g l k :
  chain g l → (∀ a, last l = Some a → edge g a k) → chain g (l ++ [k]).
Proof.
  induction l as [|a [|b l] IH]; simpl; [done| |].
  - intros _ H. split; [by apply H|done].
  - intros [Hab Hch] H. split; [done|]. apply IH; [done|]. intros z Hz. by apply H.
Qed.

Lemma chain_app_r g l1 l2 : chain g (l1 ++ l2) → chain g l2.
Proof.
  induction l1 as [|a l1 IH]; [done|].
  destruct l1 as [|b l1]; simpl.
  - destruct l2; [done|]. by intros [_ ?].
  - intros [_ H]. by apply IH.
Qed.

Lemma chain_rtc g a l z :
  chain g (a :: l) → last (a :: l) = Some z → rtc (edge g) a z.
Proof.
  revert a. induction l as [|b l IH]; intros a; simpl.
  - intros _ [= ->]. done.
  - intros [Hab Hch] Hz. apply rtc_l with b; [done|]. by apply IH.
Qed.

Lemma is_cycle_on_cycle g c : is_cycle g c → ∀ x, head c = Some x → on_cycle g x.
Proof.
  intros (_ & Hch & a & b & Ha & Hb & Hab) x Hx. rewrite Hb in Hx.
  injection Hx as ->. destruct c as [|y c]; [done|]. injection Hb as ->.
  eapply tc_rtc_l; [by eapply chain_rtc|]. by apply tc_once.
Qed.

Lemma drop_index n l :
  n ∈ l → ∃ tl, drop (index n l) l = n :: tl ∧ n ∉ take (index n l) l.
Proof.
  induction l as [|y l IH]; [by intros ?%elem_of_nil|]. simpl.
  destruct (decide (y = n)) as [->|Hne].
  - intros _. exists l. split; [done|]. apply not_elem_of_nil.
  - intros [?|Hin]%elem_of_cons; [congruence|].
    destruct (IH Hin) as (tl & Hd & Ht). exists tl. split; [done|].
    simpl. apply not_elem_of_cons. auto.
Qed.

Lemma cycle_found_is_cycle g start o c :
  cycle_found g start o c → is_cycle g c ∧ c ≠ [] ∧ truthy (Some c) = true.
Proof.
  intros (n & z & _ & Hnd & Hch & Hz & Hzn & Hn & ->).
  destruct (drop_index n (out_path o) Hn) as (tl & Hd & _).
  rewrite Hd. split; [|done]. rewrite <- Hd.
  pose proof (take_drop (index n (out_path o)) (out_path o)) as Hsplit.
  split; [|split].
  - rewrite <- Hsplit in Hnd. by apply NoDup_app in Hnd as (_ & _ & ?).
  - rewrite <- Hsplit in Hch. by apply chain_app_r in Hch.
  - exists z, n. split; [|split; [by rewrite Hd|done]].
    rewrite <- Hsplit, Hd, last_app_cons in Hz. by rewrite Hd.
Qed.

Lemma finished_inv_rtc g vis path x y :
  finished_inv g vis path → x ∈ vis → x ∉ path → rtc (edge g) x y →
  y ∈ vis ∧ y ∉ path.
Proof.
  intros Hinv Hx Hx' Hrtc. induction Hrtc as [x|x y z Hxy _ IH]; [done|].
  destruct (Hinv x Hx Hx') as [Hsucc _].
  destruct (Hsucc y Hxy). by apply IH.
Qed.

Lemma edge_registered g a b : edge g a b → registered g a.
Proof.
  unfold edge, outgoing, registered. destruct (dict_get g a); [done|].
  by intros ?%elem_of_nil.
Qed.

Section search.
Variable g : Graph.
Hypothesis Hreg : targets_registered g.

Lemma key_set_registered k : k ∈ key_set g ↔ registered g k.
Proof.
  unfold key_set, registered. by rewrite elem_of_list_to_set, dict_get_is_Some.
Qed.

Lemma dfs_loop_spec rec fuel k path ns vis :
  (∀ k' vis' path', dfs_pre g fuel k' vis' path' →
     dfs_post g k' vis' path' (rec k' vis' path')) →
  (∀ n, n ∈ ns → edge g k n) →
  (∀ x, x ∈ path ++ [k] → x ∈ vis) →
  NoDup (path ++ [k]) → chain g (path ++ [k]) →
  finished_inv g vis (path ++ [k]) →
  (size (key_set g ∖ vis) < fuel)%nat →
  match dfs_loop rec ns vis (path ++ [k]) with
  | Ok o =>
      match ret o with
      | None => out_path o = path ∧ vis ⊆ out_visited o
                ∧ finished_inv g (out_visited o) (path ++ [k])
                ∧ ∀ n, n ∈ ns → n ∈ out_visited o ∧ n ∉ path ++ [k]
      | Some c => cycle_found g (path ++ [k]) o c
      end
  | _ => False
  end.
Proof.
  intros Hrec. revert vis.
  induction ns as [|n ns IH]; intros vis Hns Hsub Hnd Hch Hinv Hsize; simpl.
  - split; [apply removelast_last|]. split; [done|]. split; [done|].
    by intros n ?%elem_of_nil.
  - assert (edge g k n) as Hkn by (apply Hns, list_elem_of_here).
    assert (∀ n', n' ∈ ns → edge g k n') as Hns'.
    { intros n' ?. by apply Hns, list_elem_of_further. }
    case_bool_decide as Hpath.
    { simpl. exists n, k. split; [done|]. split; [done|]. split; [done|].
      split; [apply last_snoc|]. done. }
    case_bool_decide as Hvis.
    { specialize (IH vis Hns' Hsub Hnd Hch Hinv Hsize).
      destruct (dfs_loop rec ns vis (path ++ [k])) as [o| |]; [|done..].
      destruct (ret o) as [c|]; [done|].
      destruct IH as (? & Hmono & ? & Hall). split; [done|]. split; [done|].
      split; [done|]. intros n' [->|?]%elem_of_cons; [|auto].
      split; [by apply Hmono|done]. }
    assert (dfs_pre g fuel n vis (path ++ [k])) as Hpre.
    { split; [by apply (Hreg k n)|]. split; [done|]. split; [done|].
      split; [done|]. split; [done|]. split; [|done].
      intros a. rewrite last_snoc. by intros [= <-]. }
    specialize (Hrec n vis (path ++ [k]) Hpre). unfold dfs_post in Hrec.
    destruct (rec n vis (path ++ [k])) as [o| |]; simpl; [|done..].
    destruct (ret o) as [c|] eqn:Hret.
    + destruct (cycle_found_is_cycle _ _ _ _ Hrec) as (_ & _ & ->).
      rewrite Hret. destruct Hrec as (n' & z & Hpre' & H).
      exists n', z. split; [|done]. by eapply prefix_app_l.
    + simpl. destruct Hrec as (Hp & Hmono & Hn & Hinv').
      rewrite Hp.
      assert (size (key_set g ∖ out_visited o) < fuel)%nat as Hsize'.
      { eapply Nat.le_lt_trans; [|exact Hsize].
        apply subseteq_size. set_solver. }
      specialize (IH (out_visited o) Hns').
      assert (∀ x, x ∈ path ++ [k] → x ∈ out_visited o) as Hsub'.
      { intros x Hx. by apply Hmono, Hsub. }
      specialize (IH Hsub' Hnd Hch Hinv' Hsize').
      destruct (dfs_loop rec ns (out_visited o) (path ++ [k])) as [o'| |];
        [|done..].
      destruct (ret o') as [c|]; [done|].
      destruct IH as (? & Hmono' & ? & Hall). split; [done|].
      split; [set_solver|]. split; [done|].
      intros n' [->|?]%elem_of_cons; [|auto]. split; [by apply Hmono'|done].
Qed.

Lemma depth_first_search_spec fuel k vis path :
  dfs_pre g fuel k vis path →
  dfs_post g k vis path (depth_first_search fuel g k vis path).
Proof.
  revert k vis path. induction fuel as [|fuel IH]; intros k vis path.
  { intros (_ & _ & _ & _ & _ & _ & _ & ?). lia. }
  intros ([e He] & Hk & Hsub & Hnd & Hch & Hlast & Hinv & Hsize).
  simpl. rewrite He.
  assert (outgoing g k = next_nodes e) as Hout.
  { unfold outgoing. by rewrite He. }
  assert (k ∉ path) as Hkpath by (intros ?; by apply Hk, Hsub).
  pose proof (dfs_loop_spec (depth_first_search fuel g) fuel k path
                (next_nodes e) ({[k]} ∪ vis) IH) as Hloop.
  assert (∀ n, n ∈ next_nodes e → edge g k n) as H1.
  { intros n Hn. unfold edge. by rewrite Hout. }
  assert (∀ x, x ∈ path ++ [k] → x ∈ {[k]} ∪ vis) as H2.
  { intros x [?|?%list_elem_of_singleton]%elem_of_app; set_solver. }
  assert (NoDup (path ++ [k])) as H3.
  { apply NoDup_app. split; [done|]. split; [|apply NoDup_singleton].
    intros x Hx ?%list_elem_of_singleton. by subst. }
  assert (chain g (path ++ [k])) as H4 by (by apply chain_snoc).
  assert (finished_inv g ({[k]} ∪ vis) (path ++ [k])) as H5.
  { intros x Hx Hx'. rewrite elem_of_app, list_elem_of_singleton in Hx'.
    assert (x ∈ vis) as Hxv by set_solver.
    assert (x ∉ path) as Hxp by tauto.
    destruct (Hinv x Hxv Hxp) as [Hsucc Hcyc]. split; [|done].
    intros y Hy. destruct (Hsucc y Hy) as [Hyv Hyp].
    split; [set_solver|]. rewrite elem_of_app, list_elem_of_singleton.
    intros [?| ->]; done. }
  assert (size (key_set g ∖ ({[k]} ∪ vis)) < fuel)%nat as H6.
  { assert (size (key_set g ∖ ({[k]} ∪ vis)) < size (key_set g ∖ vis))%nat;
      [|lia].
    apply subset_size. split; [set_solver|].
    intros Hsubset. assert (k ∈ key_set g ∖ vis) as Hin.
    { apply elem_of_difference. split; [|done].
      apply key_set_registered. by exists e. }
    apply Hsubset in Hin. set_solver. }
  specialize (Hloop H1 H2 H3 H4 H5 H6). unfold dfs_post.
  destruct (dfs_loop _ _ _ _) as [o| |]; [|done..].
  destruct (ret o) as [c|]; [done|].
  destruct Hloop as (Hp & Hmono & Hinv' & Hall).
  split; [done|]. split; [set_solver|]. split; [set_solver|].
  intros x Hx Hx'. destruct (decide (x = k)) as [->|Hne].
  - split.
    + intros y Hy. unfold edge in Hy. rewrite Hout in Hy.
      destruct (Hall y Hy) as [Hyv Hyp]. split; [done|].
      intros ?. apply Hyp, elem_of_app. by left.
    + intros Hcyc. unfold on_cycle in Hcyc.
      inversion Hcyc as [? ? Hky|? y ? Hky Hyk]; subst.
      * unfold edge in Hky. rewrite Hout in Hky.
        destruct (Hall k Hky) as [_ Hkp]. apply Hkp, elem_of_app.
        right. apply list_elem_of_here.
      * unfold edge in Hky. rewrite Hout in Hky.
        destruct (Hall y Hky) as [Hyv Hyp].
        destruct (finished_inv_rtc g _ _ y k Hinv' Hyv Hyp) as [_ Hkp].
        { by apply tc_rtc. }
        apply Hkp, elem_of_app. right. apply list_elem_of_here.
  - assert (x ∉ path ++ [k]) as Hx1.
    { rewrite elem_of_app, list_elem_of_singleton. tauto. }
    destruct (Hinv' x Hx Hx1) as [Hsucc Hcyc]. split; [|done].
    intros y Hy. destruct (Hsucc y Hy) as [Hyv Hyp]. split; [done|].
    intros ?. apply Hyp, elem_of_app. by left.
Qed.
End search.

(* ===================================================================== *)
(** ** Descriptions tell nodes apart *)
(* ===================================================================== *)

Lemma chars_app s1 s2 :
  list_ascii_of_string (s1 +:+ s2)
  = list_ascii_of_string s1 ++ list_ascii_of_string s2.
Proof. induction s1 as [|c s1 IH]; simpl; [done|]. by rewrite IH. Qed.

Lemma chars_inj s1 s2 :
  list_ascii_of_string s1 = list_ascii_of_string s2 → s1 = s2.
Proof.
  intros H. rewrite <- (string_of_list_ascii_of_string s1),
    <- (string_of_list_ascii_of_string s2). by rewrite H.
Qed.

Lemma split_at_pivot (c : ascii) (l1 r1 l2 r2 : list ascii) :
  l1 ++ c :: r1 = l2 ++ c :: r2 → c ∉ l1 → c ∉ l2 → l1 = l2 ∧ r1 = r2.
Proof.
  intros Heq H1 H2. rewrite list_elem_of_In in H1, H2.
  destruct (app_inj_pivot _ _ _ _ _ Heq) as [[[? _]|[_ ?]]|?]; done.
Qed.

Lemma plain_not_space l : Forall plain l → " "%char ∉ l.
Proof.
  intros H Hin. rewrite Forall_forall in H. by destruct (H _ Hin).
Qed.

Lemma plain_not_x l : Forall plain l → "x"%char ∉ l.
Proof.
  intros H Hin. rewrite Forall_forall in H. by destruct (H _ Hin).
Qed.

Lemma not_elem_of_rev (c : ascii) l : c ∉ l → c ∉ rev l.
Proof. rewrite !list_elem_of_In. intros H Hin. by apply H, in_rev. Qed.

Lemma plain_dec_uint d :
  Forall plain (list_ascii_of_string (DecimalString.NilEmpty.string_of_uint d)).
Proof. induction d; simpl; repeat constructor; done. Qed.

Lemma plain_hex_uint d :
  Forall plain
    (list_ascii_of_string (HexadecimalString.NilEmpty.string_of_uint d)).
Proof. induction d; simpl; repeat constructor; done. Qed.

Lemma plain_zeros n : Forall plain (list_ascii_of_string (zeros n)).
Proof. induction n; simpl; repeat constructor; done. Qed.

Lemma plain_format_int z : Forall plain (list_ascii_of_string (format_int z)).
Proof.
  unfold format_int, DecimalString.NilZero.string_of_int,
    DecimalString.NilZero.string_of_uint.
  destruct (Z.to_int z) as [d|d]; simpl.
  - destruct d; try apply plain_dec_uint. repeat constructor; done.
  - constructor; [done|].
    destruct d; try apply plain_dec_uint. repeat constructor; done.
Qed.

Lemma plain_hex_digits n : Forall plain (list_ascii_of_string (hex_digits n)).
Proof.
  unfold hex_digits, HexadecimalString.NilZero.string_of_uint.
  destruct (N.to_hex_uint n); try apply plain_hex_uint.
  repeat constructor; done.
Qed.

Lemma plain_format_012x z : Forall plain (list_ascii_of_string (format_012x z)).
Proof.
  unfold format_012x, zero_pad. destruct (z <? 0)%Z.
  - rewrite chars_app. simpl. constructor; [done|].
    rewrite chars_app. apply Forall_app.
    split; [apply plain_zeros|apply plain_hex_digits].
  - rewrite chars_app. apply Forall_app.
    split; [apply plain_zeros|apply plain_hex_digits].
Qed.

(** The reversed characters of the two descriptions. *)
Lemma rev_chars_Thread_str t :
  rev (list_ascii_of_string (Thread_str t))
  = [")"; ")"]%char
    ++ rev (list_ascii_of_string (format_int (lwpid t)))
    ++ [" "; "P"; "W"; "L"; "("; " "]%char
    ++ rev (list_ascii_of_string (format_012x (thread_id t)))
    ++ ["x"; "0"; " "; "d"; "a"; "e"; "r"; "h"; "T"; "("; " "]%char
    ++ rev (list_ascii_of_string (name t)).
Proof.
  unfold Thread_str. rewrite !chars_app, !rev_app_distr. simpl.
  by rewrite <- !app_assoc.
Qed.

Lemma rev_chars_Lock_str l :
  rev (list_ascii_of_string (Lock_str l))
  = [")"]%char ++ rev (list_ascii_of_string (resource l))
    ++ rev (list_ascii_of_string ("Lock 0x" +:+ format_012x (addr l) +:+ " (")).
Proof.
  unfold Lock_str.
  replace ("Lock 0x" +:+ format_012x (addr l) +:+ " (" +:+ resource l +:+ ")")
    with (("Lock 0x" +:+ format_012x (addr l) +:+ " (") +:+ resource l +:+ ")").
  - rewrite !(chars_app _ (resource l +:+ ")")), (chars_app (resource l)).
    rewrite !rev_app_distr. simpl. by rewrite <- !app_assoc.
  - apply chars_inj. rewrite !chars_app. simpl. by rewrite <- !app_assoc.
Qed.

Lemma Thread_str_inj t1 t2 :
  Thread_str t1 = Thread_str t2 → Thread_key t1 = Thread_key t2.
Proof.
  intros Heq. apply (f_equal (λ s, rev (list_ascii_of_string s))) in Heq.
  rewrite !rev_chars_Thread_str in Heq. apply app_inv_head in Heq.
  apply split_at_pivot in Heq as [_ Heq].
  2,3: apply not_elem_of_rev, plain_not_space, plain_format_int.
  apply (app_inv_head ["P"; "W"; "L"; "("; " "]%char) in Heq.
  apply split_at_pivot in Heq as [Heq _].
  2,3: apply not_elem_of_rev, plain_not_x, plain_format_012x.
  apply (f_equal (@rev ascii)) in Heq. rewrite !rev_involutive in Heq.
  apply chars_inj in Heq. unfold Thread_key. by rewrite Heq.
Qed.

Lemma Lock_str_inj l1 l2 : Lock_str l1 = Lock_str l2 → Lock_key l1 = Lock_key l2.
Proof.
  unfold Lock_str, Lock_key. intros Heq.
  apply (f_equal list_ascii_of_string) in Heq.
  rewrite !(chars_app "Lock 0x"), !(chars_app (format_012x _)) in Heq.
  apply app_inv_head in Heq. simpl in Heq.
  apply split_at_pivot in Heq as [Heq _].
  2,3: apply plain_not_space, plain_format_012x.
  apply chars_inj in Heq. by rewrite Heq.
Qed.

Lemma Thread_str_ne_Lock_str t l :
  program_node (NLock l) → Thread_str t ≠ Lock_str l.
Proof.
  intros Hres Heq. apply (f_equal (λ s, rev (list_ascii_of_string s))) in Heq.
  rewrite rev_chars_Thread_str, rev_chars_Lock_str in Heq.
  destruct Hres as [Hr|Hr]; rewrite Hr in Heq; simpl in Heq; discriminate Heq.
Qed.

Lemma str_key_inj n1 n2 :
  program_node n1 → program_node n2 → str n1 = str n2 → key n1 = key n2.
Proof.
  destruct n1 as [t1|l1], n2 as [t2|l2]; simpl; intros H1 H2 Heq.
  - by apply Thread_str_inj.
  - by destruct (Thread_str_ne_Lock_str t1 l2).
  - by destruct (Thread_str_ne_Lock_str t2 l1).
  - by apply Lock_str_inj.
Qed.

Lemma program_graph_str_separates g :
  graph_ok g → program_graph g → str_separates g.
Proof.
  intros [_ Hkey] Hprog k1 k2 e1 e2 H1 H2 Heq.
  rewrite <- (Hkey k1 e1), <- (Hkey k2 e2) by by apply dict_get_elem.
  apply str_key_inj; [by eapply Hprog..|done].
Qed.

Lemma tc_edge_registered g x y : tc (edge g) x y → registered g x.
Proof. intros H. destruct H; by eapply edge_registered. Qed.

Lemma chain_registered g l z :
  chain g l → last l = Some z → registered g z → ∀ x, x ∈ l → registered g x.
Proof.
  induction l as [|a [|b l] IH]; simpl.
  - intros _ _ _ x ?%elem_of_nil. done.
  - intros _ [= ->] Hz x ?%list_elem_of_singleton. by subst.
  - intros [Hab Hch] Hl Hz x [->|Hx]%elem_of_cons.
    + by eapply edge_registered.
    + by apply IH.
Qed.

Lemma describe_spec g ks :
  (∀ k, k ∈ ks → registered g k) →
  ∃ ds, describe g ks = Ok ds ∧ described_by g ks ds.
Proof.
  induction ks as [|k ks IH]; intros Hks; simpl.
  - exists []. split; [done|]. constructor.
  - destruct (Hks k) as [e He]; [apply list_elem_of_here|]. rewrite He.
    destruct IH as (ds & -> & Hds).
    { intros k' ?. by apply Hks, list_elem_of_further. }
    simpl. exists (str (node e) :: ds). split; [done|].
    constructor; [by exists e|done].
Qed.

Lemma described_by_NoDup g ks ds :
  str_separates g → described_by g ks ds → NoDup ks → NoDup ds.
Proof.
  intros Hsep Hds. induction Hds as [|k d ks ds (e & He & ->) Hds IH].
  - intros _. apply NoDup_nil_2.
  - rewrite !NoDup_cons. intros [Hk Hnd]. split; [|auto].
    intros Hin. apply Hk. clear IH Hnd Hk.
    induction Hds as [|k' d' ks ds (e' & He' & ->) Hds IH];
      [by apply elem_of_nil in Hin|].
    apply elem_of_cons in Hin as [Heq|Hin].
    + rewrite (Hsep k k' e e' He He' Heq). apply list_elem_of_here.
    + apply list_elem_of_further. auto.
Qed.

Section detect.
Variable g : Graph.
Hypothesis Hok : graph_ok g.
Hypothesis Hreg : targets_registered g.

Lemma detect_cycle_loop_spec ks vis :
  (∀ k, k ∈ ks → registered g k) → finished_inv g vis [] →
  match detect_cycle_loop g ks vis with
  | Ok o =>
      match ret o with
      | None => vis ⊆ out_visited o ∧ (∀ k, k ∈ ks → k ∈ out_visited o)
                ∧ finished_inv g (out_visited o) []
      | Some c => ∃ root, root ∈ ks ∧ cycle_found g [root] o c
      end
  | _ => False
  end.
Proof.
  revert vis.
  induction ks as [|k ks IH]; intros vis Hks Hinv; cbn [detect_cycle_loop].
  - simpl. split; [done|]. split; [|done]. by intros k ?%elem_of_nil.
  - assert (∀ k', k' ∈ ks → registered g k') as Hks'.
    { intros k' ?. by apply Hks, list_elem_of_further. }
    case_bool_decide as Hvis.
    { specialize (IH vis Hks' Hinv).
      destruct (detect_cycle_loop g ks vis) as [o| |]; [|done..].
      destruct (ret o) as [c|].
      - destruct IH as (root & ? & ?). exists root.
        split; [by apply list_elem_of_further|done].
      - destruct IH as (Hmono & Hall & ?). split; [done|]. split; [|done].
        intros k' [->|?]%elem_of_cons; [by apply Hmono|auto]. }
    assert (dfs_pre g (dfs_fuel g) k vis []) as Hpre.
    { split; [apply Hks, list_elem_of_here|]. split; [done|].
      split; [by intros x ?%elem_of_nil|]. split; [apply NoDup_nil_2|].
      split; [done|]. split; [done|]. split; [done|].
      unfold dfs_fuel. apply Nat.lt_succ_r.
      transitivity (size (key_set g)); [apply subseteq_size; set_solver|].
      unfold key_set. rewrite size_list_to_set by apply Hok.
      unfold dict_keys. by rewrite length_fmap. }
    pose proof (depth_first_search_spec g Hreg _ _ _ _ Hpre) as Hdfs.
    unfold dfs_post in Hdfs.
    destruct (depth_first_search (dfs_fuel g) g k vis []) as [o| |];
      simpl; [|done..].
    destruct (ret o) as [c|] eqn:Hret.
    + destruct (cycle_found_is_cycle _ _ _ _ Hdfs) as (_ & Hne & _).
      destruct c as [|c0 c]; [done|]. simpl. rewrite Hret.
      exists k. split; [apply list_elem_of_here|done].
    + simpl. destruct Hdfs as (_ & Hmono & Hk & Hinv').
      specialize (IH (out_visited o) Hks' Hinv').
      destruct (detect_cycle_loop g ks (out_visited o)) as [o'| |]; [|done..].
      destruct (ret o') as [c|].
      * destruct IH as (root & ? & ?). exists root.
        split; [by apply list_elem_of_further|done].
      * destruct IH as (Hmono' & Hall & ?). split; [set_solver|].
        split; [|done]. intros k' [->|?]%elem_of_cons; [by apply Hmono'|auto].
Qed.

Lemma detect_cycle_keys_spec :
  match detect_cycle_loop g (dict_keys g) ∅ with
  | Ok o =>
      match ret o with
      | None => acyclic g
      | Some c => ∃ root, root ∈ dict_keys g ∧ cycle_found g [root] o c
      end
  | _ => False
  end.
Proof.
  pose proof (detect_cycle_loop_spec (dict_keys g) ∅) as H.
  destruct (detect_cycle_loop g (dict_keys g) ∅) as [o| |].
  - destruct (ret o) as [c|].
    + apply H; [by intros k ?%dict_get_is_Some|]. by intros x ?%not_elem_of_empty.
    + destruct H as (_ & Hall & Hinv).
      { by intros k ?%dict_get_is_Some. }
      { by intros x ?%not_elem_of_empty. }
      intros x Hx. apply tc_edge_registered in Hx as Hr.
      apply dict_get_is_Some, Hall in Hr.
      destruct (Hinv x Hr) as [_ Hno]; [apply not_elem_of_nil|]. done.
  - apply H; [by intros k ?%dict_get_is_Some|]. by intros x ?%not_elem_of_empty.
  - apply H; [by intros k ?%dict_get_is_Some|]. by intros x ?%not_elem_of_empty.
Qed.
End detect.

(** C2: on a graph without directed cycle, [detect_cycle] returns [None]:
    it neither reports a cycle nor raises. *)
Theorem detect_cycle_acyclic (g : Graph) :
  graph_ok g → targets_registered g → acyclic g →
  detect_cycle g = Ok None.
Proof.
  intros Hok Hreg Hacyc. unfold detect_cycle.
  pose proof (detect_cycle_keys_spec g Hok Hreg) as H.
  destruct (detect_cycle_loop g (dict_keys g) ∅) as [o| |]; [|done..]. simpl.
  destruct (ret o) as [c|]; [|done]. exfalso.
  destruct H as (root & _ & Hfound).
  destruct (cycle_found_is_cycle _ _ _ _ Hfound) as (Hcyc & Hne & _).
  destruct c as [|x c]; [done|].
  by apply (Hacyc x), (is_cycle_on_cycle g (x :: c)).
Qed.

(** C1: on a graph with a directed cycle, [detect_cycle] returns the
    descriptions of a list of keys [cycle_path] in which no key occurs
    twice, each key has an edge to the next and the last one an edge to the
    first.  The search stops on a path that starts at a key of the graph,
    follows edges and repeats no key, when the last key of the path has an
    edge to a key [n] of the path; [cycle_path] is the path from the
    position of [n] on, the part before it being dropped.  On a graph of
    threads, mutexes and lock-manager locks the descriptions returned are
    pairwise distinct as well. *)
Theorem detect_cycle_finds_cycle (g : Graph) :
  graph_ok g → targets_registered g → has_cycle g →
  ∃ o cycle_path ds root n z,
    detect_cycle_loop g (dict_keys g) ∅ = Ok o
    ∧ ret o = Some cycle_path
    ∧ detect_cycle g = Ok (Some ds)
    ∧ described_by g cycle_path ds
    ∧ cycle_path ≠ []
    ∧ is_cycle g cycle_path
    ∧ (head (out_path o) = Some root ∧ root ∈ dict_keys g
       ∧ NoDup (out_path o) ∧ chain g (out_path o)
       ∧ last (out_path o) = Some z ∧ edge g z n ∧ n ∈ out_path o)
    ∧ cycle_path = drop (index n (out_path o)) (out_path o)
    ∧ out_path o = take (index n (out_path o)) (out_path o) ++ cycle_path
    ∧ head cycle_path = Some n
    ∧ (n ∉ take (index n (out_path o)) (out_path o))
    ∧ (program_graph g → NoDup ds).
Proof.
  intros Hok Hreg [x Hx].
  pose proof (detect_cycle_keys_spec g Hok Hreg) as H. unfold detect_cycle.
  destruct (detect_cycle_loop g (dict_keys g) ∅) as [o| |]; [|done..].
  destruct (ret o) as [c|] eqn:Hret; [|by destruct (H x)].
  destruct H as (root & Hroot & Hfound).
  destruct (cycle_found_is_cycle _ _ _ _ Hfound) as (Hcyc & Hne & _).
  destruct Hfound as (n & z & Hpre & Hnd & Hch & Hz & Hzn & Hn & Hc).
  destruct (drop_index n (out_path o) Hn) as (tl & Hd & Hnotin).
  assert (∀ k, k ∈ c → registered g k) as Hcreg.
  { intros k Hk. apply (chain_registered g (out_path o) z); try done.
    - by eapply edge_registered.
    - rewrite <- (take_drop (index n (out_path o)) (out_path o)).
      apply elem_of_app. right. by rewrite <- Hc. }
  destruct (describe_spec g c Hcreg) as (ds & Hdesc & Hds).
  exists o, c, ds, root, n, z. cbn [mbind result_bind]. rewrite Hret.
  split; [done|]. split; [done|]. split.
  { destruct c as [|k ks]; [done|]. by rewrite Hdesc. }
  split; [done|]. split; [done|]. split; [done|]. split.
  { split; [|done]. destruct Hpre as [l ->]. done. }
  split; [done|]. split; [by rewrite Hc, take_drop|].
  split; [by rewrite Hc, Hd|]. split; [done|].
  intros Hprog.
  apply (described_by_NoDup g c ds (program_graph_str_separates g Hok Hprog) Hds),
    Hcyc.
Qed.

(* ===================================================================== *)
(** ** Scenarios *)
(* ===================================================================== *)

Lemma Thread_key_ne_Lock_key t l : Thread_key t ≠ Lock_key l.
Proof. unfold Thread_key, Lock_key. simpl. intros [=]. Qed.

(** The membership tests of the operations, reduced to tests on keys. *)
Lemma bool_decide_elem_nil (x : string) (D : Decision (x ∈ @nil string)) :
  @bool_decide _ D = false.
Proof. apply bool_decide_eq_false_2, not_elem_of_nil. Qed.

Lemma bool_decide_elem_cons (x y : string) (l : list string)
    (D : Decision (x ∈ y :: l)) :
  @bool_decide _ D = if decide (x = y) then true else bool_decide (x ∈ l).
Proof.
  destruct (decide (x = y)) as [->|Hne].
  - apply bool_decide_eq_true_2, list_elem_of_here.
  - apply bool_decide_ext. rewrite elem_of_cons. naive_solver.
Qed.

Lemma bool_decide_elem_empty (x : string) (D : Decision (x ∈ (∅ : gset string))) :
  @bool_decide _ D = false.
Proof. apply bool_decide_eq_false_2, not_elem_of_empty. Qed.

Lemma bool_decide_elem_union (x y : string) (X : gset string)
    (D : Decision (x ∈ {[y]} ∪ X)) :
  @bool_decide _ D = if decide (x = y) then true else bool_decide (x ∈ X).
Proof.
  destruct (decide (x = y)) as [->|Hne].
  - apply bool_decide_eq_true_2. set_solver.
  - apply bool_decide_ext. set_solver.
Qed.

(** Rewriting the tests of the operations on keys known to be equal or
    different. *)
Ltac decide_keys :=
  repeat first
    [ rewrite bool_decide_elem_nil
    | rewrite bool_decide_elem_cons
    | rewrite bool_decide_elem_empty
    | rewrite bool_decide_elem_union
    | rewrite decide_True by congruence
    | rewrite decide_False by congruence
    | progress cbn [dict_get dict_set dict_keys fmap list_fmap fst snd app
                    node next_nodes ret out_visited out_path truthy key str
                    find_from_node fold_left self_nodes temp_nodes
                    detect_cycle_loop depth_first_search dfs_loop describe
                    mbind result_bind index drop removelast length flat_map
                    from_option dfs_fuel] ].

(** C10: the graph made of one node [n] and the edge from [n] to [n] has
    that edge both out of and into [n], is left whole by
    [remove_nodes_without_edge], and [detect_cycle] returns the one-element
    list holding the description of [n]. *)
Theorem self_loop_detected (n : Node) :
  let g := add_edge (add_node Graph_init n) n n in
  g = [(key n, mkEntry n [key n])]
  ∧ edge g (key n) (key n)
  ∧ remove_nodes_without_edge g = g
  ∧ detect_cycle g = Ok (Some [str n]).
Proof.
  intros g.
  assert (g = [(key n, mkEntry n [key n])]) as ->.
  { unfold g, add_edge, add_node, find_node, Graph_init. by decide_keys. }
  split; [done|]. split; [|split].
  - unfold edge, outgoing. decide_keys. apply list_elem_of_here.
  - unfold remove_nodes_without_edge, prune_loop, prune_body, keeps. by decide_keys.
  - unfold detect_cycle, dfs_fuel. by decide_keys.
Qed.

(** C7: with two threads and two locks of different keys, the four
    insertions T1->L1, L1->T2, T2->L2, L2->T1 give a graph of four nodes and
    four edges, on which [detect_cycle] returns the four descriptions in the
    order T1, L1, T2, L2. *)
Theorem scenario_two_threads_two_locks (T1 T2 : Thread) (L1 L2 : Lock) :
  Thread_key T1 ≠ Thread_key T2 → Lock_key L1 ≠ Lock_key L2 →
  let g0 := Graph_init in
  let g1 := add_edge g0 (NThread T1) (NLock L1) in
  let g2 := add_edge g1 (NLock L1) (NThread T2) in
  let g3 := add_edge g2 (NThread T2) (NLock L2) in
  let g := add_edge g3 (NLock L2) (NThread T1) in
  length g = 4%nat
  ∧ num_edges g = 4%nat
  ∧ dict_keys g = [Thread_key T1; Lock_key L1; Thread_key T2; Lock_key L2]
  ∧ (edge g (Thread_key T1) (Lock_key L1) ∧ edge g (Lock_key L1) (Thread_key T2)
     ∧ edge g (Thread_key T2) (Lock_key L2) ∧ edge g (Lock_key L2) (Thread_key T1))
  ∧ detect_cycle g
    = Ok (Some [Thread_str T1; Lock_str L1; Thread_str T2; Lock_str L2]).
Proof.
  intros HT HL g0 g1 g2 g3 g.
  pose proof (Thread_key_ne_Lock_key T1 L1). pose proof (Thread_key_ne_Lock_key T1 L2).
  pose proof (Thread_key_ne_Lock_key T2 L1). pose proof (Thread_key_ne_Lock_key T2 L2).
  assert (g = [ (Thread_key T1, mkEntry (NThread T1) [Lock_key L1]);
                (Lock_key L1, mkEntry (NLock L1) [Thread_key T2]);
                (Thread_key T2, mkEntry (NThread T2) [Lock_key L2]);
                (Lock_key L2, mkEntry (NLock L2) [Thread_key T1]) ]) as ->.
  { unfold g, g3, g2, g1, g0, add_edge, add_node, find_node, Graph_init.
    by decide_keys. }
  split; [done|]. split; [done|]. split; [done|]. split.
  - unfold edge, outgoing. decide_keys. repeat split; apply list_elem_of_here.
  - unfold detect_cycle, dfs_fuel. by decide_keys.
Qed.

(* ===================================================================== *)
(** ** The commands *)
(* ===================================================================== *)

Lemma run_bind {A B} (m : M A) (k : A → M B) st :
  (m ≫= k) st =
    match m st with
    | (Ok a, st') => k a st'
    | (Raise e, st') => (Raise e, st')
    | (OutOfFuel, st') => (OutOfFuel, st')
    end.
Proof. reflexivity. Qed.

Section diagnostics.
Lemma only_diagnostics_ret {A} (a : A) : only_diagnostics (mret a : M A).
Proof.
  intros st r st' [= <- <-]. split; [done|]. exists [].
  by rewrite app_nil_r.
Qed.

Lemma only_diagnostics_raise {A} e : only_diagnostics (raise e : M A).
Proof.
  intros st r st' [= <- <-]. split; [done|]. exists [].
  by rewrite app_nil_r.
Qed.

Lemma only_diagnostics_bind {A B} (m : M A) (k : A → M B) :
  only_diagnostics m → (∀ a, only_diagnostics (k a)) →
  only_diagnostics (m ≫= k).
Proof.
  intros Hm Hk st r st'. unfold mbind, M_bind.
  destruct (m st) as [ra st1] eqn:Hrun.
  destruct (Hm st ra st1 Hrun) as (Hf & extra & Ho & Hd).
  destruct ra as [a|e|].
  - intros Hrun2. destruct (Hk a st1 r st' Hrun2) as (Hf' & extra' & Ho' & Hd').
    split; [congruence|]. exists (extra ++ extra').
    split; [by rewrite Ho', Ho, app_assoc|]. by apply Forall_app.
  - intros [= <- <-]. split; [done|]. by exists extra.
  - intros [= <- <-]. split; [done|]. by exists extra.
Qed.

Lemma only_diagnostics_print line :
  is_diagnostic line = true → only_diagnostics (print line).
Proof.
  intros Hline st r st' [= <- <-]. split; [done|]. exists [line].
  split; [done|]. by apply Forall_singleton.
Qed.

Lemma only_diagnostics_graph_add_edge f t : only_diagnostics (graph_add_edge f t).
Proof.
  intros st r st' [= <- <-]. split; [done|]. exists [].
  by rewrite app_nil_r.
Qed.

Lemma only_diagnostics_add_edge_to_holder f h :
  only_diagnostics (graph_add_edge_to_holder f h).
Proof.
  destruct h; [apply only_diagnostics_graph_add_edge|].
  intros st r st' [= <- <-]. split; [done|]. exists [].
  by rewrite app_nil_r.
Qed.

Lemma only_diagnostics_for_each {A} (l : list A) body :
  (∀ x, only_diagnostics (body x)) → only_diagnostics (for_each l body).
Proof.
  intros Hbody. induction l as [|x l IH]; simpl.
  - apply only_diagnostics_ret.
  - apply only_diagnostics_bind; [apply Hbody|]. by intros _.
Qed.

Lemma only_diagnostics_try body handler :
  only_diagnostics body → (∀ msg, only_diagnostics (handler msg)) →
  only_diagnostics (try_except_gdb body handler).
Proof.
  intros Hb Hh st r st'. unfold try_except_gdb.
  destruct (body st) as [rb st1] eqn:Hrun.
  destruct (Hb st rb st1 Hrun) as (Hf & extra & Ho & Hd).
  assert (∀ r0, (r0, st1) = (r, st') →
            st_files st' = st_files st
            ∧ ∃ extra, st_out st' = st_out st ++ extra
                ∧ Forall (λ line, is_diagnostic line = true) extra) as Hsame.
  { intros r0 [= <- <-]. split; [done|]. by exists extra. }
  destruct rb as [a|[k| |msg|msg]|]; try apply Hsame.
  intros Hrun2. destruct (Hh msg st1 r st' Hrun2) as (Hf' & extra' & Ho' & Hd').
  split; [congruence|]. exists (extra ++ extra').
  split; [by rewrite Ho', Ho, app_assoc|]. by apply Forall_app.
Qed.

Lemma only_diagnostics_thread_dict_item thread_dict lwp :
  only_diagnostics (thread_dict_item thread_dict lwp).
Proof.
  unfold thread_dict_item. destruct (thread_dict_get thread_dict lwp).
  - apply only_diagnostics_ret.
  - apply only_diagnostics_raise.
Qed.

Lemma only_diagnostics_get_locks thread_dict threads :
  only_diagnostics (get_locks true thread_dict false threads).
Proof.
  apply only_diagnostics_for_each. intros thread.
  apply only_diagnostics_try; [|intros msg; apply only_diagnostics_print; reflexivity].
  destruct (is_valid thread); [|apply only_diagnostics_ret].
  apply only_diagnostics_bind.
  - unfold find_mutex_holder.
    destruct (mutex_probe thread) as [|msg|m];
      [apply only_diagnostics_ret|apply only_diagnostics_raise|].
    apply only_diagnostics_bind.
    { destruct (thread_dict_get thread_dict (mutex_holder_lwpid m)).
      - apply only_diagnostics_ret.
      - apply only_diagnostics_bind;
          [apply only_diagnostics_print; reflexivity|].
        intros _. apply only_diagnostics_ret. }
    intros holder. apply only_diagnostics_bind;
      [apply only_diagnostics_thread_dict_item|].
    intros waiter. apply only_diagnostics_bind; [apply only_diagnostics_ret|].
    intros _. apply only_diagnostics_bind;
      intros; apply only_diagnostics_graph_add_edge.
  - intros _. unfold find_lock_manager_holders.
    destruct (locker_probe thread) as [|msg|head];
      [apply only_diagnostics_ret|apply only_diagnostics_raise|].
    apply only_diagnostics_bind; [apply only_diagnostics_thread_dict_item|].
    intros waiter. destruct head as [msg|lock_head text granted];
      [apply only_diagnostics_raise|].
    apply only_diagnostics_for_each. intros [msg|holder_id mode];
      [apply only_diagnostics_raise|].
    apply only_diagnostics_bind; [apply only_diagnostics_ret|].
    intros _. apply only_diagnostics_bind;
      [apply only_diagnostics_graph_add_edge|].
    intros _. apply only_diagnostics_add_edge_to_holder.
Qed.
End diagnostics.

Lemma program_graph_add_node g n :
  program_node n → program_graph g → program_graph (add_node g n).
Proof.
  intros Hn Hg k e. destruct (decide (k = key n)) as [->|Hne].
  - rewrite dict_get_add_node_eq. intros [= <-].
    destruct (dict_get g (key n)) as [e|] eqn:He; simpl; [by eapply Hg|done].
  - rewrite dict_get_add_node_ne by done. apply Hg.
Qed.

Lemma program_graph_add_edge g f t :
  program_node f → program_node t → program_graph g →
  program_graph (add_edge g f t).
Proof.
  intros Hf Ht Hg. rewrite add_edge_unfold. simpl.
  assert (program_graph (add_node (add_node g f) t)) as Hg2.
  { apply program_graph_add_node; [done|]. by apply program_graph_add_node. }
  case_bool_decide; [done|]. intros k e.
  destruct (decide (k = key f)) as [->|Hne].
  - rewrite dict_get_set_eq. intros [= <-]. simpl. unfold representative.
    destruct (dict_get g (key f)) as [e|] eqn:He; simpl; [by eapply Hg|done].
  - rewrite dict_get_set_ne by done. apply Hg2.
Qed.

Lemma command_graph_add_node g n :
  program_node n → command_graph g → command_graph (add_node g n).
Proof.
  intros Hn (Hok & Hinv & Hprog). split; [|split].
  - by apply graph_ok_add_node.
  - by apply structural_invariant_add_node.
  - by apply program_graph_add_node.
Qed.

Lemma command_graph_add_edge g f t :
  program_node f → program_node t → command_graph g →
  command_graph (add_edge g f t).
Proof.
  intros Hf Ht (Hok & Hinv & Hprog). split; [|split].
  - by apply graph_ok_add_edge.
  - by apply structural_invariant_add_edge.
  - by apply program_graph_add_edge.
Qed.

Lemma command_graph_remove g :
  command_graph g → command_graph (remove_nodes_without_edge g).
Proof.
  intros (Hok & Hinv & Hprog). split; [|split].
  - by apply graph_ok_remove.
  - by apply structural_invariant_remove.
  - intros k e He. apply dict_get_remove in He as [He _]; [|done].
    by eapply Hprog.
Qed.

Lemma command_graph_init : command_graph Graph_init.
Proof.
  split; [apply graph_ok_init|]. split; [apply structural_invariant_init|].
  intros k e H. discriminate H.
Qed.

Section command_graph.
Lemma keeps_command_graph_ret {A} (a : A) : keeps_command_graph (mret a : M A).
Proof. by intros st r st' Hg [= <- <-]. Qed.

Lemma keeps_command_graph_raise {A} e : keeps_command_graph (raise e : M A).
Proof. by intros st r st' Hg [= <- <-]. Qed.

Lemma keeps_command_graph_print line : keeps_command_graph (print line).
Proof. by intros st r st' Hg [= <- <-]. Qed.

Lemma keeps_command_graph_bind {A B} (m : M A) (k : A → M B) :
  keeps_command_graph m → (∀ a, keeps_command_graph (k a)) →
  keeps_command_graph (m ≫= k).
Proof.
  intros Hm Hk st r st' Hg. rewrite run_bind.
  destruct (m st) as [ra st1] eqn:Hrun. pose proof (Hm st ra st1 Hg Hrun) as Hg1.
  destruct ra as [a|e|]; [by apply Hk|by intros [= <- <-]..].
Qed.

Lemma keeps_command_graph_add_edge f t :
  program_node f → program_node t → keeps_command_graph (graph_add_edge f t).
Proof.
  intros Hf Ht st r st' Hg [= <- <-]. simpl. by apply command_graph_add_edge.
Qed.

Lemma keeps_command_graph_add_edge_to_holder f h :
  program_node f → keeps_command_graph (graph_add_edge_to_holder f h).
Proof.
  intros Hf. destruct h; [by apply keeps_command_graph_add_edge|].
  intros st r st' Hg [= <- <-]. simpl. by apply command_graph_add_node.
Qed.

Lemma keeps_command_graph_for_each {A} (l : list A) body :
  (∀ x, keeps_command_graph (body x)) → keeps_command_graph (for_each l body).
Proof.
  intros Hbody. induction l as [|x l IH]; simpl.
  - apply keeps_command_graph_ret.
  - apply keeps_command_graph_bind; [apply Hbody|]. by intros _.
Qed.

Lemma keeps_command_graph_try body handler :
  keeps_command_graph body → (∀ msg, keeps_command_graph (handler msg)) →
  keeps_command_graph (try_except_gdb body handler).
Proof.
  intros Hb Hh st r st' Hg. unfold try_except_gdb.
  destruct (body st) as [rb st1] eqn:Hrun. pose proof (Hb st rb st1 Hg Hrun) as Hg1.
  destruct rb as [a|[k| |msg|msg]|]; try by intros [= <- <-].
  by apply Hh.
Qed.

Lemma keeps_command_graph_item thread_dict lwp :
  keeps_command_graph (thread_dict_item thread_dict lwp).
Proof.
  unfold thread_dict_item. destruct (thread_dict_get thread_dict lwp).
  - apply keeps_command_graph_ret.
  - apply keeps_command_graph_raise.
Qed.

Lemma keeps_command_graph_when b m :
  keeps_command_graph m → keeps_command_graph (when b m).
Proof. destruct b; [done|]. intros _. apply keeps_command_graph_ret. Qed.

(** Whatever gdb reports, [get_locks] leaves a graph with distinct and
    consistent keys, outgoing lists of registered keys without repeats, and
    locks that are mutexes or lock-manager locks. *)
Lemma keeps_command_graph_get_locks with_graph thread_dict show threads :
  keeps_command_graph (get_locks with_graph thread_dict show threads).
Proof.
  apply keeps_command_graph_for_each. intros thread.
  apply keeps_command_graph_try; [|intros msg; apply keeps_command_graph_print].
  destruct (is_valid thread); [|apply keeps_command_graph_ret].
  apply keeps_command_graph_bind.
  - unfold find_mutex_holder.
    destruct (mutex_probe thread) as [|msg|m];
      [apply keeps_command_graph_ret|apply keeps_command_graph_raise|].
    apply keeps_command_graph_bind.
    { destruct (thread_dict_get thread_dict (mutex_holder_lwpid m)).
      - apply keeps_command_graph_ret.
      - apply keeps_command_graph_bind; [apply keeps_command_graph_print|].
        intros _. apply keeps_command_graph_ret. }
    intros holder. apply keeps_command_graph_bind;
      [apply keeps_command_graph_item|].
    intros waiter. apply keeps_command_graph_bind;
      [apply keeps_command_graph_when, keeps_command_graph_print|].
    intros _. apply keeps_command_graph_when, keeps_command_graph_bind;
      intros; apply keeps_command_graph_add_edge; simpl; auto.
  - intros _. unfold find_lock_manager_holders.
    destruct (locker_probe thread) as [|msg|head];
      [apply keeps_command_graph_ret|apply keeps_command_graph_raise|].
    apply keeps_command_graph_bind; [apply keeps_command_graph_item|].
    intros waiter. destruct head as [msg|lock_head text granted];
      [apply keeps_command_graph_raise|].
    apply keeps_command_graph_for_each. intros [msg|holder_id mode];
      [apply keeps_command_graph_raise|].
    apply keeps_command_graph_bind;
      [apply keeps_command_graph_when, keeps_command_graph_print|].
    intros _. apply keeps_command_graph_when, keeps_command_graph_bind.
    + apply keeps_command_graph_add_edge; simpl; auto.
    + intros _. apply keeps_command_graph_add_edge_to_holder. simpl. auto.
Qed.
End command_graph.

(** Every rendering starts with the legend, which no diagnostic and not the
    empty-graph notice does. *)
Lemma to_graph_not_diagnostic g nodes message :
  is_diagnostic (to_graph g nodes message) = false
  ∧ to_graph g nodes message ≠ empty_graph_notice.
Proof.
  unfold to_graph.
  destruct message as [m|]; cbn [app String.concat]; split; try done.
  all: unfold empty_graph_notice; simpl; by intros [=].
Qed.

Lemma find_mutex_holder_placeholder thread_dict show obs m waiter st :
  mutex_probe obs = Frame m →
  thread_dict_get thread_dict (mutex_holder_lwpid m) = None →
  thread_dict_get thread_dict (selected_lwpid obs) = Some waiter →
  ∃ st', find_mutex_holder true thread_dict show obs st = (Ok tt, st')
    ∧ st_graph st'
      = add_edge
          (add_edge (st_graph st) (NThread waiter)
             (NLock (mkLock (mutex_value m) "Mutex")))
          (NLock (mkLock (mutex_value m) "Mutex"))
          (NThread (placeholder_thread (mutex_holder_lwpid m))).
Proof.
  intros Hm Hholder Hwaiter. unfold find_mutex_holder, thread_dict_item.
  rewrite Hm, Hholder, Hwaiter. destruct show; eexists; split; reflexivity.
Qed.

Lemma find_lock_manager_holders_unknown_holder
    thread_dict show obs lock_head text id mode rest waiter st :
  locker_probe obs = Frame (LockHead lock_head text (Request id mode :: rest)) →
  thread_dict_get thread_dict (selected_lwpid obs) = Some waiter →
  find_thread thread_dict id = None →
  (find_lock_manager_holders true thread_dict show obs st).1
  = Raise (AttributeError "'NoneType' object has no attribute 'key'").
Proof.
  intros Hprobe Hwaiter Hholder. unfold find_lock_manager_holders, thread_dict_item.
  rewrite Hprobe, Hwaiter. rewrite run_bind. cbn [mret M_ret for_each].
  rewrite Hholder. by destruct show.
Qed.

(** C4 (what the code does): with a snapshot of one thread, a mutex whose
    owner is not in [thread_dict] is given the placeholder thread and the
    command prints its digraph, but a lock-manager lock whose holder is not
    in [thread_dict] makes the command end in [AttributeError], with
    nothing printed and nothing written. *)
Theorem unknown_lock_manager_holder_raises (str_of_list : list string → string) :
  let run_lock :=
    mongodb_waitsfor_graph str_of_list snapshot_threads
      [waits_for_unknown_locker] "" initial_state in
  let run_mutex :=
    mongodb_waitsfor_graph str_of_list snapshot_threads
      [waits_for_unknown_owner] "" initial_state in
  find_thread snapshot_threads 2457 = None
  ∧ run_lock.1 = Raise (AttributeError "'NoneType' object has no attribute 'key'")
  ∧ st_out run_lock.2 = []
  ∧ st_files run_lock.2 = []
  ∧ thread_dict_get snapshot_threads 999 = None
  ∧ run_mutex.1 = Ok tt
  ∧ find_node (st_graph run_mutex.2) (NThread (placeholder_thread 999))
    = Some (mkEntry (NThread (placeholder_thread 999)) [])
  ∧ edge (st_graph run_mutex.2) (Lock_key (mkLock 4096 "Mutex"))
      (Thread_key (placeholder_thread 999)).
Proof.
  intros run_lock run_mutex.
  split; [done|]. split; [by vm_compute|]. split; [by vm_compute|].
  split; [by vm_compute|]. split; [done|]. split; [by vm_compute|].
  split; [by vm_compute|].
  unfold edge. vm_compute. apply list_elem_of_here.
Qed.

(** C8: when the graph left by [get_locks] is empty after pruning, the
    command ends normally having printed, after the diagnostics of
    [get_locks], the empty-graph notice and nothing else: no file is
    written, and no printed line is a rendering of a graph. *)
Theorem empty_graph_reported (str_of_list : list string → string)
    (thread_dict : thread_dict_t) (threads : list thread_obs)
    (graph_file : string) (st1 : pass_state) :
  get_locks true thread_dict false threads initial_state = (Ok tt, st1) →
  is_empty (remove_nodes_without_edge (st_graph st1)) = true →
  let run :=
    mongodb_waitsfor_graph str_of_list thread_dict threads graph_file
      initial_state in
  run.1 = Ok tt
  ∧ st_out run.2 = st_out st1 ++ [empty_graph_notice]
  ∧ Forall (λ line, is_diagnostic line = true) (st_out st1)
  ∧ st_files run.2 = []
  ∧ ∀ line g nodes message, line ∈ st_out run.2 → line ≠ to_graph g nodes message.
Proof.
  intros Hlocks Hempty run.
  destruct (only_diagnostics_get_locks thread_dict threads _ _ _ Hlocks)
    as (Hfiles & extra & Hout & Hdiag).
  simpl in Hfiles, Hout. subst extra.
  assert (run = (Ok tt, mkState (remove_nodes_without_edge (st_graph st1))
                          (st_out st1 ++ [empty_graph_notice]) (st_files st1)))
    as ->.
  { unfold run, mongodb_waitsfor_graph, try_except_gdb.
    rewrite run_bind, Hlocks.
    do 3 (rewrite run_bind; cbn [get_graph set_graph st_graph st_out st_files]).
    by rewrite Hempty. }
  simpl. split; [done|]. split; [done|]. split; [done|]. split; [done|].
  intros line g nodes message Hin ->.
  destruct (to_graph_not_diagnostic g nodes message) as [Hnd Hne].
  apply elem_of_app in Hin as [Hin|Hin%list_elem_of_singleton]; [|done].
  rewrite Forall_forall in Hdiag. specialize (Hdiag _ Hin). congruence.
Qed.

(** A quiescent system: no thread is blocked in a mutex or a lock. *)
Lemma quiescent_system_reports_empty (str_of_list : list string → string)
    (thread_dict : thread_dict_t) (threads : list thread_obs) (graph_file : string) :
  Forall (λ t, mutex_probe t = NoFrame ∧ locker_probe t = NoFrame) threads →
  mongodb_waitsfor_graph str_of_list thread_dict threads graph_file initial_state
  = (Ok tt, mkState [] [empty_graph_notice] []).
Proof.
  intros Hquiet.
  assert (∀ st, get_locks true thread_dict false threads st = (Ok tt, st)) as Hlocks.
  { induction Hquiet as [|t ts [Hm Hl] _ IH]; intros st; [done|].
    unfold get_locks in *. cbn [for_each]. rewrite run_bind.
    unfold try_except_gdb at 1, find_mutex_holder, find_lock_manager_holders.
    rewrite Hm, Hl. destruct (is_valid t); cbn; apply IH. }
  unfold mongodb_waitsfor_graph, try_except_gdb. rewrite run_bind, Hlocks.
  done.
Qed.

(* ===================================================================== *)
(** ** Checking the hypotheses on a given graph *)
(* ===================================================================== *)

Lemma graph_ok_check g :
  bool_decide (NoDup (dict_keys g)) = true →
  forallb (λ item : string * Entry, bool_decide (key (node item.2) = item.1)) g
  = true →
  graph_ok g.
Proof.
  intros Hnd Hkeys. split; [by apply bool_decide_eq_true in Hnd|].
  intros k e Hin. rewrite forallb_forall in Hkeys.
  apply list_elem_of_In, Hkeys in Hin. by apply bool_decide_eq_true in Hin.
Qed.

Lemma edge_inv g a b : edge g a b → ∃ e, (a, e) ∈ g ∧ b ∈ next_nodes e.
Proof.
  unfold edge, outgoing. destruct (dict_get g a) as [e|] eqn:He; simpl.
  - intros Hb. exists e. split; [by apply dict_get_elem|done].
  - by intros ?%elem_of_nil.
Qed.

Lemma targets_registered_check g :
  forallb (λ item : string * Entry,
    forallb (λ b, bool_decide (is_Some (dict_get g b))) (next_nodes item.2)) g
  = true →
  targets_registered g.
Proof.
  intros Hall a b (e & He & Hb)%edge_inv. rewrite forallb_forall in Hall.
  apply list_elem_of_In, Hall in He. rewrite forallb_forall in He.
  apply list_elem_of_In, He in Hb. by apply bool_decide_eq_true in Hb.
Qed.

Lemma outgoing_nodup_check g :
  forallb (λ item : string * Entry, bool_decide (NoDup (next_nodes item.2))) g
  = true →
  outgoing_nodup g.
Proof.
  intros Hall k. unfold outgoing.
  destruct (dict_get g k) as [e|] eqn:He; simpl; [|apply NoDup_nil_2].
  rewrite forallb_forall in Hall.
  apply dict_get_elem, list_elem_of_In, Hall in He.
  by apply bool_decide_eq_true in He.
Qed.

(** A graph whose edges all go down along a rank has no cycle. *)
Lemma acyclic_check g (rank : string → nat) :
  forallb (λ item : string * Entry,
    forallb (λ b, rank b <? rank item.1)%nat (next_nodes item.2)) g = true →
  acyclic g.
Proof.
  intros Hall.
  assert (∀ a b, edge g a b → (rank b < rank a)%nat) as Hedge.
  { intros a b (e & He & Hb)%edge_inv. rewrite forallb_forall in Hall.
    apply list_elem_of_In, Hall in He. rewrite forallb_forall in He.
    apply list_elem_of_In, He in Hb. by apply Nat.ltb_lt in Hb. }
  assert (∀ a b, tc (edge g) a b → (rank b < rank a)%nat) as Htc.
  { intros a b H. induction H as [a b H|a b c H _ IH].
    - by apply Hedge.
    - apply Hedge in H. lia. }
  intros x Hx. apply Htc in Hx. lia.
Qed.

Lemma self_deadlock_graph_ok :
  graph_ok self_deadlock_graph ∧ targets_registered self_deadlock_graph
  ∧ outgoing_nodup self_deadlock_graph.
Proof.
  split; [|split].
  - apply graph_ok_check; by vm_compute.
  - apply targets_registered_check. by vm_compute.
  - apply outgoing_nodup_check. by vm_compute.
Qed.

Lemma self_deadlock_graph_has_cycle : has_cycle self_deadlock_graph.
Proof.
  exists (Lock_key contended_lock).
  apply tc_l with (Thread_key holder_thread); [|apply tc_once];
    unfold edge; vm_compute; apply list_elem_of_here.
Qed.

Lemma unknown_owner_graph_ok :
  graph_ok unknown_owner_graph ∧ targets_registered unknown_owner_graph
  ∧ outgoing_nodup unknown_owner_graph.
Proof.
  split; [|split].
  - apply graph_ok_check; by vm_compute.
  - apply targets_registered_check. by vm_compute.
  - apply outgoing_nodup_check. by vm_compute.
Qed.

Lemma unknown_owner_graph_acyclic : acyclic unknown_owner_graph.
Proof.
  apply (acyclic_check _
           (λ k, 4 - index k (dict_keys unknown_owner_graph))%nat).
  by vm_compute.
Qed.

(* ===================================================================== *)
(** ** The theorems at given inputs *)
(* ===================================================================== *)

Lemma detect_cycle_finds_cycle_witness :
  graph_ok self_deadlock_graph ∧ targets_registered self_deadlock_graph
  ∧ has_cycle self_deadlock_graph
  ∧ ∃ cycle_path ds,
      is_cycle self_deadlock_graph cycle_path
      ∧ described_by self_deadlock_graph cycle_path ds
      ∧ detect_cycle self_deadlock_graph = Ok (Some ds).
Proof.
  pose proof self_deadlock_graph_ok as (Hok & Hreg & _).
  pose proof self_deadlock_graph_has_cycle as Hcyc.
  split; [exact Hok|]. split; [exact Hreg|]. split; [exact Hcyc|].
  destruct (detect_cycle_finds_cycle self_deadlock_graph Hok Hreg Hcyc)
    as (o & cycle_path & ds & root & n & z & _ & _ & Hdet & Hds & _ & His & _).
  exists cycle_path, ds. split; [exact His|]. split; [exact Hds|exact Hdet].
Defined.

Lemma detect_cycle_acyclic_witness :
  graph_ok unknown_owner_graph ∧ targets_registered unknown_owner_graph
  ∧ acyclic unknown_owner_graph
  ∧ detect_cycle unknown_owner_graph = Ok None.
Proof.
  pose proof unknown_owner_graph_ok as (Hok & Hreg & _).
  pose proof unknown_owner_graph_acyclic as Hacyc.
  split; [exact Hok|]. split; [exact Hreg|]. split; [exact Hacyc|].
  exact (detect_cycle_acyclic unknown_owner_graph Hok Hreg Hacyc).
Defined.

Lemma remove_nodes_without_edge_correct_witness :
  graph_ok unknown_owner_graph
  ∧ remove_nodes_without_edge unknown_owner_graph
    = List.filter (λ item, keeps unknown_owner_graph item.2) unknown_owner_graph.
Proof.
  pose proof unknown_owner_graph_ok as (Hok & _).
  split; [exact Hok|].
  exact (proj2 (proj2 (proj2 (proj2
           (remove_nodes_without_edge_correct unknown_owner_graph Hok))))).
Defined.

Lemma structural_invariant_preserved_witness :
  graph_ok self_deadlock_graph ∧ structural_invariant self_deadlock_graph
  ∧ structural_invariant
      (add_edge self_deadlock_graph (NThread waiter_thread)
         (NThread (placeholder_thread 999)))
  ∧ structural_invariant (remove_nodes_without_edge self_deadlock_graph).
Proof.
  pose proof self_deadlock_graph_ok as (Hok & Hreg & Hnd).
  split; [exact Hok|]. split; [exact (conj Hreg Hnd)|].
  destruct (structural_invariant_preserved self_deadlock_graph
              (NThread holder_thread) (NThread waiter_thread)
              (NThread (placeholder_thread 999)) Hok (conj Hreg Hnd))
    as (_ & (_ & Hedge) & (_ & Hprune)).
  split; [exact Hedge|exact Hprune].
Defined.

Lemma scenario_two_threads_two_locks_witness :
  Thread_key waiter_thread ≠ Thread_key holder_thread
  ∧ Lock_key contended_lock ≠ Lock_key (mkLock 8192 "MongoDB lock")
  ∧ detect_cycle
      (add_edge
         (add_edge
            (add_edge
               (add_edge Graph_init (NThread waiter_thread) (NLock contended_lock))
               (NLock contended_lock) (NThread holder_thread))
            (NThread holder_thread) (NLock (mkLock 8192 "MongoDB lock")))
         (NLock (mkLock 8192 "MongoDB lock")) (NThread waiter_thread))
    = Ok (Some [Thread_str waiter_thread; Lock_str contended_lock;
                Thread_str holder_thread;
                Lock_str (mkLock 8192 "MongoDB lock")]).
Proof.
  assert (Thread_key waiter_thread ≠ Thread_key holder_thread) as HT.
  { vm_compute. intros H. discriminate H. }
  assert (Lock_key contended_lock ≠ Lock_key (mkLock 8192 "MongoDB lock")) as HL.
  { vm_compute. intros H. discriminate H. }
  split; [exact HT|]. split; [exact HL|].
  exact (proj2 (proj2 (proj2 (proj2
           (scenario_two_threads_two_locks waiter_thread holder_thread
              contended_lock (mkLock 8192 "MongoDB lock") HT HL))))).
Defined.

Lemma empty_graph_reported_witness :
  get_locks true snapshot_threads false [waits_for_nothing] initial_state
  = (Ok tt, initial_state)
  ∧ is_empty (remove_nodes_without_edge (st_graph initial_state)) = true
  ∧ st_out (mongodb_waitsfor_graph (λ _, "") snapshot_threads
              [waits_for_nothing] "" initial_state).2
    = [empty_graph_notice].
Proof.
  assert (get_locks true snapshot_threads false [waits_for_nothing] initial_state
          = (Ok tt, initial_state)) as Hlocks by reflexivity.
  assert (is_empty (remove_nodes_without_edge (st_graph initial_state)) = true)
    as Hempty by reflexivity.
  split; [exact Hlocks|]. split; [exact Hempty|].
  exact (proj1 (proj2
           (empty_graph_reported (λ _, "") snapshot_threads [waits_for_nothing]
              "" initial_state Hlocks Hempty))).
Defined.

Lemma node_identity_by_key_witness :
  add_node (add_node Graph_init (NThread (mkThread 7 101 "conn1")))
    (NThread (mkThread 7 202 "conn1-again"))
  = add_node Graph_init (NThread (mkThread 7 101 "conn1")).
Proof.
  exact (proj1 (proj2
           (node_identity_by_key Graph_init
              (NThread (mkThread 7 101 "conn1"))
              (NThread (mkThread 7 202 "conn1-again"))
              (NLock contended_lock) 7 101 202 "conn1" "conn1-again" "" ""
              (or_introl (conj eq_refl eq_refl))))).
Defined.

(* ===================================================================== *)
(** ** Keys and equality *)
(* ===================================================================== *)

Lemma append_nil_l s : "" +:+ s = s.
Proof. reflexivity. Qed.

Lemma append_cons c a b : String c a +:+ b = String c (a +:+ b).
Proof. reflexivity. Qed.

Lemma uint_of_string_zeros k s :
  HexadecimalString.NilEmpty.uint_of_string (zeros k +:+ s)
  = Nat.iter k Hexadecimal.D0 <$> HexadecimalString.NilEmpty.uint_of_string s.
Proof.
  induction k as [|k IH]; cbn [zeros].
  - rewrite append_nil_l.
    by destruct (HexadecimalString.NilEmpty.uint_of_string s).
  - rewrite append_cons. cbn [HexadecimalString.NilEmpty.uint_of_string].
    rewrite IH. by destruct (HexadecimalString.NilEmpty.uint_of_string s).
Qed.

Lemma of_hex_uint_zeros k d :
  N.of_hex_uint (Nat.iter k Hexadecimal.D0 d) = N.of_hex_uint d.
Proof. induction k as [|k IH]; [done|]. simpl. exact IH. Qed.

Lemma hex_value_hex_digits n : hex_value (hex_digits n) = Some n.
Proof.
  unfold hex_value, hex_digits, HexadecimalString.NilZero.string_of_uint.
  pose proof (HexadecimalN.Unsigned.of_to n) as Hn.
  destruct (N.to_hex_uint n) eqn:Hd;
    try (rewrite HexadecimalString.NilEmpty.usu;
         unfold fmap, option_fmap, option_map; by rewrite Hn).
  simpl. by rewrite <- Hn.
Qed.

Lemma hex_value_zero_pad w n : hex_value (zero_pad w (hex_digits n)) = Some n.
Proof.
  pose proof (hex_value_hex_digits n) as H. unfold hex_value, zero_pad in *.
  rewrite uint_of_string_zeros.
  destruct (HexadecimalString.NilEmpty.uint_of_string (hex_digits n)) as [d|];
    [|done].
  simpl in *. by rewrite of_hex_uint_zeros.
Qed.

Lemma zero_pad_head w n :
  ∃ c s, zero_pad w (hex_digits n) = String c s ∧ c ≠ "-"%char.
Proof.
  pose proof (hex_value_zero_pad w n) as H.
  destruct (zero_pad w (hex_digits n)) as [|c s] eqn:Hs.
  - unfold zero_pad in Hs. pose proof (plain_hex_digits n) as Hp.
    assert (hex_digits n = "") as Hnil.
    { destruct (zeros (w - String.length (hex_digits n)));
        [by rewrite append_nil_l in Hs|].
      rewrite append_cons in Hs. discriminate Hs. }
    unfold hex_digits, HexadecimalString.NilZero.string_of_uint in Hnil.
    pose proof (HexadecimalN.Unsigned.of_to n) as Hn.
    destruct (N.to_hex_uint n); discriminate.
  - exists c, s. split; [done|]. intros ->. unfold hex_value in H.
    cbn [HexadecimalString.NilEmpty.uint_of_string] in H.
    destruct (HexadecimalString.NilEmpty.uint_of_string s); discriminate H.
Qed.

Lemma length_zero_pad w s :
  String.length (zero_pad w s) = Nat.max w (String.length s).
Proof.
  unfold zero_pad.
  assert (∀ a b, String.length (a +:+ b) = (String.length a + String.length b)%nat)
    as Happ.
  { intros a b. induction a as [|c a IH]; [done|].
    rewrite append_cons. simpl. by rewrite IH. }
  assert (∀ k, String.length (zeros k) = k) as Hz.
  { intros k. induction k as [|k IH]; simpl; [done|]. by rewrite IH. }
  rewrite Happ, Hz. lia.
Qed.

Lemma parse_012x_format z : parse_012x (format_012x z) = Some z.
Proof.
  unfold format_012x. destruct (z <? 0)%Z eqn:Hz.
  - rewrite append_cons, append_nil_l. cbn [parse_012x].
    rewrite hex_value_zero_pad. simpl. f_equal.
    apply Z.ltb_lt in Hz. lia.
  - destruct (zero_pad_head 12 (Z.to_N z)) as (c & s & Hs & Hc).
    rewrite Hs. unfold parse_012x.
    assert (Z.of_N <$> hex_value (String c s) = Some z) as Hv.
    { rewrite <- Hs, hex_value_zero_pad. simpl. f_equal.
      apply Z.ltb_ge in Hz. lia. }
    destruct c as [[] [] [] [] [] [] [] []]; try exact Hv. done.
Qed.

Lemma format_012x_inj a b : format_012x a = format_012x b → a = b.
Proof.
  intros Hab. pose proof (parse_012x_format a) as Ha.
  rewrite Hab, parse_012x_format in Ha. by injection Ha.
Qed.

Lemma Thread_key_inj t1 t2 : Thread_key t1 = Thread_key t2 ↔ thread_id t1 = thread_id t2.
Proof.
  unfold Thread_key. split; [|by intros ->]. intros H.
  apply format_012x_inj. rewrite !append_cons, !append_nil_l in H. by simplify_eq.
Qed.

Lemma Lock_key_inj l1 l2 : Lock_key l1 = Lock_key l2 ↔ addr l1 = addr l2.
Proof.
  unfold Lock_key. split; [|by intros ->]. intros H.
  apply format_012x_inj. rewrite !append_cons, !append_nil_l in H. by simplify_eq.
Qed.

(** X1: the text ['{:012x}'] gives for an integer reads back as that
    integer, and has at least twelve characters; hence two threads have the
    same key exactly when they have the same [thread_id], two locks exactly
    when they have the same [addr], and a thread never has the key of a
    lock. *)
Theorem key_round_trip (z : Z) (t1 t2 : Thread) (l1 l2 : Lock) :
  parse_012x (format_012x z) = Some z
  ∧ (12 ≤ String.length (format_012x z))%nat
  ∧ (Thread_key t1 = Thread_key t2 ↔ thread_id t1 = thread_id t2)
  ∧ (Lock_key l1 = Lock_key l2 ↔ addr l1 = addr l2)
  ∧ Thread_key t1 ≠ Lock_key l1.
Proof.
  split; [apply parse_012x_format|]. split.
  { unfold format_012x. destruct (z <? 0)%Z.
    - rewrite append_cons, append_nil_l. cbn [String.length].
      rewrite length_zero_pad. lia.
    - rewrite length_zero_pad. lia. }
  split; [apply Thread_key_inj|]. split; [apply Lock_key_inj|].
  apply Thread_key_ne_Lock_key.
Qed.

Lemma equal_key a b : equal a b = true ↔ key a = key b.
Proof.
  destruct a as [t1|l1], b as [t2|l2]; unfold equal; simpl.
  - rewrite Thread_key_inj. by case_decide.
  - split; [done|]. intros H. by destruct (Thread_key_ne_Lock_key t1 l2).
  - split; [done|]. intros H. by destruct (Thread_key_ne_Lock_key t2 l1).
  - rewrite Lock_key_inj. by case_decide.
Qed.

(** X2: [==] on nodes holds exactly when the two nodes have the same key,
    so it is reflexive and symmetric, a thread never equals a lock, and two
    equal nodes are one node of a graph: registering the second changes
    nothing and an edge may name either. *)
Theorem equal_is_key_equality (g : Graph) (a b m : Node) :
  (equal a b = true ↔ key a = key b)
  ∧ equal a a = true
  ∧ equal a b = equal b a
  ∧ (∀ t l, equal (NThread t) (NLock l) = false)
  ∧ (equal a b = true →
       add_node (add_node g a) b = add_node g a
       ∧ add_edge (add_node g a) b m = add_edge (add_node g a) a m
       ∧ add_edge (add_node g a) m b = add_edge (add_node g a) m a).
Proof.
  split; [apply equal_key|]. split; [by apply equal_key|]. split.
  { destruct (equal a b) eqn:Hab, (equal b a) eqn:Hba; try done.
    - apply equal_key in Hab. symmetry in Hab. apply equal_key in Hab. congruence.
    - apply equal_key in Hba. symmetry in Hba. apply equal_key in Hba. congruence. }
  split; [done|]. intros Heq%equal_key.
  assert (registered (add_node g a) (key a)) as Hreg.
  { apply registered_add_node. by right. }
  split; [by apply add_node_same_key|].
  split; [by apply add_edge_same_key_from|by apply add_edge_same_key_to].
Qed.

(* ===================================================================== *)
(** ** More on nodes, edges and pruning *)
(* ===================================================================== *)

Lemma add_node_app g n :
  ∃ new, add_node g n = g ++ new
    ∧ new = (if find_node g n is Some _ then [] else [(key n, mkEntry n [])]).
Proof.
  destruct (find_node g n) as [e|] eqn:Hf.
  - exists []. by rewrite app_nil_r, (add_node_present g n e).
  - exists [(key n, mkEntry n [])]. by rewrite add_node_absent.
Qed.

(** X3: [add_node] then [find_node]: the entry found for a node of the
    same key is the one already stored, or a fresh entry without edges for
    the node just added; any other key is found as before.  The old
    entries keep their places, a new one is appended last, and the number
    of nodes grows by one exactly when the key was not registered. *)
Theorem find_node_add_node (g : Graph) (n m : Node) :
  find_node (add_node g n) m
  = (if decide (key m = key n)
     then Some (from_option id (mkEntry n []) (find_node g n))
     else find_node g m)
  ∧ (∃ new, add_node g n = g ++ new
       ∧ new = (if find_node g n is Some _ then [] else [(key n, mkEntry n [])]))
  ∧ length (add_node g n)
    = (if find_node g n is Some _ then length g else S (length g))
  ∧ num_edges (add_node g n) = num_edges g.
Proof.
  split; [|split; [apply add_node_app|]].
  - unfold find_node. case_decide as Hk.
    + rewrite Hk. apply dict_get_add_node_eq.
    + by apply dict_get_add_node_ne.
  - destruct (add_node_app g n) as (new & -> & ->). unfold num_edges.
    destruct (find_node g n); rewrite ?app_nil_r; [done|].
    rewrite length_app, flat_map_app, length_app. simpl. lia.
Qed.

Lemma num_edges_add_node g n : num_edges (add_node g n) = num_edges g.
Proof.
  destruct (add_node_app g n) as (new & -> & ->). unfold num_edges.
  destruct (find_node g n); rewrite ?app_nil_r; [done|].
  rewrite flat_map_app, length_app. simpl. lia.
Qed.

Lemma num_edges_set (g : Graph) k e e' :
  dict_get g k = Some e →
  (num_edges (dict_set g k e') + length (next_nodes e)
   = num_edges g + length (next_nodes e'))%nat.
Proof.
  unfold num_edges. induction g as [|[k0 e0] g IH]; simpl; [done|].
  destruct (decide (k0 = k)) as [->|Hne]; simpl.
  - intros [= ->]. rewrite !length_app. lia.
  - intros H. specialize (IH H). rewrite !length_app. lia.
Qed.

Lemma dict_keys_add_node g n :
  dict_keys (add_node g n)
  = dict_keys g ++ (if find_node g n is Some _ then [] else [key n]).
Proof.
  destruct (add_node_app g n) as (new & -> & ->). unfold dict_keys.
  rewrite fmap_app. by destruct (find_node g n).
Qed.

Lemma dict_get_add_nodes_from g f t :
  dict_get (add_node (add_node g f) t) (key f)
  = Some (mkEntry (representative g f) (outgoing g (key f))).
Proof.
  assert (dict_get (add_node g f) (key f)
          = Some (mkEntry (representative g f) (outgoing g (key f)))) as Hf.
  { rewrite dict_get_add_node_eq. unfold representative, outgoing.
    by destruct (dict_get g (key f)) as [[en el]|]. }
  destruct (decide (key f = key t)) as [Heq|Hne].
  - by rewrite (add_node_same_key g f t Heq).
  - by rewrite dict_get_add_node_ne.
Qed.

(** X4: [add_edge] adds the edge from the key of [from_node] to the key of
    [to_node] and changes no other: the edges afterwards are the old ones
    and that one, the registered keys are the old ones and the two ends,
    the old keys keep their order with at most two new ones appended, every
    stored node stays the stored one, and the number of edges grows by one
    exactly when the edge was not there. *)
Theorem add_edge_adds_one_edge (g : Graph) (from_node to_node : Node) :
  let g' := add_edge g from_node to_node in
  (∀ a b, edge g' a b ↔ edge g a b ∨ (a = key from_node ∧ b = key to_node))
  ∧ (∀ k, registered g' k ↔ registered g k ∨ k = key from_node ∨ k = key to_node)
  ∧ (∃ new, dict_keys g' = dict_keys g ++ new ∧ (length new ≤ 2)%nat)
  ∧ (∀ k e, dict_get g k = Some e →
       ∃ e', dict_get g' k = Some e' ∧ node e' = node e)
  ∧ num_edges g'
    = (if bool_decide (key to_node ∈ outgoing g (key from_node))
       then num_edges g else S (num_edges g)).
Proof.
  intros g'. split; [|split; [|split; [|split]]].
  - intros a b. unfold edge, g'. rewrite outgoing_add_edge.
    destruct (decide (a = key from_node)) as [->|Hne].
    + case_bool_decide as Hin.
      * split; [auto|]. intros [?|[_ ->]]; done.
      * rewrite elem_of_app, list_elem_of_singleton. naive_solver.
    + naive_solver.
  - apply registered_add_edge.
  - unfold g'. rewrite add_edge_unfold. cbv zeta.
    assert (dict_keys (add_node (add_node g from_node) to_node)
            = dict_keys g
              ++ ((if find_node g from_node is Some _ then [] else [key from_node])
                  ++ (if find_node (add_node g from_node) to_node is Some _
                      then [] else [key to_node]))) as Hkeys.
    { by rewrite !dict_keys_add_node, <- app_assoc. }
    assert (length ((if find_node g from_node is Some _ then []
                     else [key from_node])
                    ++ (if find_node (add_node g from_node) to_node is Some _
                        then [] else [key to_node])) ≤ 2)%nat as Hlen.
    { rewrite length_app.
      destruct (find_node g from_node),
        (find_node (add_node g from_node) to_node); simpl; lia. }
    case_bool_decide; [eauto|].
    rewrite dict_keys_set_present; [eauto|].
    apply registered_add_node. left. apply registered_add_node. by right.
  - intros k e He. by apply node_add_edge.
  - unfold g'. rewrite add_edge_unfold. cbv zeta.
    case_bool_decide as Hin; [by rewrite !num_edges_add_node|].
    pose proof (dict_get_add_nodes_from g from_node to_node) as Hget.
    pose proof (num_edges_set _ _ _
                  (mkEntry (representative g from_node)
                     (outgoing g (key from_node) ++ [key to_node])) Hget) as Hn.
    simpl in Hn. rewrite length_app in Hn. simpl in Hn.
    rewrite !num_edges_add_node in Hn. lia.
Qed.

Lemma tc_edge_iff (g g' : Graph) :
  (∀ a b, edge g' a b ↔ edge g a b) → ∀ x y, tc (edge g') x y ↔ tc (edge g) x y.
Proof.
  intros Hiff x y. split; intros H.
  - induction H as [x y H|x y z H _ IH]; [by apply tc_once, Hiff|].
    eapply tc_l; [by apply Hiff|done].
  - induction H as [x y H|x y z H _ IH]; [by apply tc_once, Hiff|].
    eapply tc_l; [by apply Hiff|done].
Qed.

Lemma filter_all_true {A} (f : A → bool) (l : list A) :
  (∀ x, x ∈ l → f x = true) → List.filter f l = l.
Proof.
  induction l as [|x l IH]; intros H; simpl; [done|].
  rewrite (H x) by apply list_elem_of_here. f_equal. apply IH.
  intros y Hy. by apply H, list_elem_of_further.
Qed.

Lemma remove_twice g :
  graph_ok g →
  remove_nodes_without_edge (remove_nodes_without_edge g)
  = remove_nodes_without_edge g.
Proof.
  intros Hok. pose proof (graph_ok_remove g Hok) as Hok'.
  rewrite (remove_nodes_without_edge_filter (remove_nodes_without_edge g))
    by apply Hok'.
  apply filter_all_true. intros [k e] Hin. simpl.
  apply (keeps_spec _ k e Hok' Hin).
  apply dict_elem_get in Hin; [|apply Hok'].
  apply dict_get_remove in Hin as [_ H]; [|done].
  destruct H as [[b Hb]|[a Ha]]; [left; exists b|right; exists a];
    by apply edge_remove.
Qed.

Lemma num_edges_filter (P : string * Entry → bool) (l : Graph) :
  (∀ item, P item = false → next_nodes item.2 = []) →
  num_edges (List.filter P l) = num_edges l.
Proof.
  intros HP. unfold num_edges. induction l as [|item l IH]; simpl; [done|].
  destruct (P item) eqn:Hitem; simpl.
  - rewrite !length_app. by rewrite IH.
  - by rewrite (HP item Hitem).
Qed.

(** X5: pruning removes no edge: the pruned graph has the edges of the
    graph it was made from, so the same keys lie on cycles, every key an
    edge names is still registered, and pruning once more changes
    nothing. *)
Theorem pruning_keeps_edges (g : Graph) :
  graph_ok g →
  let g' := remove_nodes_without_edge g in
  (∀ a b, edge g' a b ↔ edge g a b)
  ∧ (∀ x, on_cycle g' x ↔ on_cycle g x)
  ∧ (has_cycle g' ↔ has_cycle g)
  ∧ num_edges g' = num_edges g
  ∧ (∀ a b, edge g a b → registered g a → registered g' a)
  ∧ remove_nodes_without_edge g' = g'.
Proof.
  intros Hok g'.
  assert (∀ a b, edge g' a b ↔ edge g a b) as Hedge.
  { intros a b. by apply edge_remove. }
  split; [done|]. split; [intros x; by apply tc_edge_iff|].
  split.
  { unfold has_cycle, on_cycle.
    split; intros [x Hx]; exists x; by apply (tc_edge_iff g g' Hedge). }
  split.
  { unfold g'. rewrite remove_nodes_without_edge_filter by apply Hok.
    apply num_edges_filter. intros [k e]. unfold keeps. simpl.
    by destruct (next_nodes e). }
  split; [|by apply remove_twice].
  intros a b Hab [e He]. exists e. apply dict_get_remove; [done|].
  split; [done|]. left. by exists b.
Qed.

Lemma pruning_keeps_edges_witness :
  graph_ok unknown_owner_graph
  ∧ num_edges (remove_nodes_without_edge unknown_owner_graph)
    = num_edges unknown_owner_graph
  ∧ remove_nodes_without_edge (remove_nodes_without_edge unknown_owner_graph)
    = remove_nodes_without_edge unknown_owner_graph.
Proof.
  pose proof unknown_owner_graph_ok as (Hok & _).
  split; [exact Hok|].
  destruct (pruning_keeps_edges unknown_owner_graph Hok)
    as (_ & _ & _ & Hnum & _ & Hidem).
  split; [exact Hnum|exact Hidem].
Defined.

Lemma find_from_node_app_isolated g k n from_node :
  find_from_node (g ++ [(k, mkEntry n [])]) from_node = find_from_node g from_node.
Proof.
  induction g as [|[k0 e0] g IH]; simpl.
  - done.
  - by rewrite IH.
Qed.

(** X6: a node registered without any edge does not survive pruning and
    changes nothing else: pruning after [add_node] gives what pruning
    alone gives. *)
Theorem pruning_drops_added_node (g : Graph) (n : Node) :
  graph_ok g → targets_registered g →
  remove_nodes_without_edge (add_node g n) = remove_nodes_without_edge g.
Proof.
  intros Hok Hreg. destruct (find_node g n) as [e|] eqn:Hf.
  { by rewrite (add_node_present g n e). }
  pose proof (graph_ok_add_node g n Hok) as Hok'.
  rewrite (remove_nodes_without_edge_filter (add_node g n)) by apply Hok'.
  rewrite (remove_nodes_without_edge_filter g) by apply Hok.
  rewrite add_node_absent by done. rewrite List.filter_app.
  assert (∀ e, keeps (g ++ [(key n, mkEntry n [])]) e = keeps g e) as Hkeeps.
  { intros e0. unfold keeps. by rewrite find_from_node_app_isolated. }
  assert (keeps g (mkEntry n []) = false) as Hn.
  { unfold keeps. simpl. apply bool_decide_eq_false_2.
    rewrite find_from_node_Some. intros (k & e & Hin & Hk). simpl in Hk.
    assert (edge g k (key n)) as Hedge.
    { apply edge_elem; [apply Hok|]. eauto. }
    destruct (Hreg _ _ Hedge) as [e' He']. unfold find_node in Hf. congruence. }
  simpl. rewrite Hkeeps, Hn, app_nil_r.
  apply List.filter_ext. intros [k e]. apply Hkeeps.
Qed.

Lemma pruning_drops_added_node_witness :
  graph_ok self_deadlock_graph ∧ targets_registered self_deadlock_graph
  ∧ remove_nodes_without_edge
      (add_node self_deadlock_graph (NThread (placeholder_thread 999)))
    = remove_nodes_without_edge self_deadlock_graph.
Proof.
  pose proof self_deadlock_graph_ok as (Hok & Hreg & _).
  split; [exact Hok|]. split; [exact Hreg|].
  exact (pruning_drops_added_node self_deadlock_graph
           (NThread (placeholder_thread 999)) Hok Hreg).
Defined.

(** X7: the pruned graph is empty exactly when the graph has no edge at
    all, whatever the number of its nodes. *)
Theorem pruned_empty_iff_no_edge (g : Graph) :
  graph_ok g →
  (is_empty (remove_nodes_without_edge g) = true ↔ ∀ a b, ¬ edge g a b)
  ∧ (is_empty (remove_nodes_without_edge g) = true ↔ num_edges g = 0%nat).
Proof.
  intros Hok.
  assert (is_empty (remove_nodes_without_edge g) = true ↔ ∀ a b, ¬ edge g a b)
    as Hiff.
  { split.
    - intros Hempty a b Hab. apply (edge_remove g a b Hok) in Hab.
      destruct (remove_nodes_without_edge g); [|done].
      unfold edge, outgoing in Hab. simpl in Hab. by apply elem_of_nil in Hab.
    - intros Hno.
      destruct (remove_nodes_without_edge g) as [|[k e] g'] eqn:Hg; [done|].
      exfalso.
      assert (dict_get (remove_nodes_without_edge g) k = Some e) as Hget.
      { rewrite Hg. simpl. by rewrite decide_True. }
      apply (dict_get_remove g k e Hok) in Hget as [_ [[b Hb]|[a Ha]]];
        by eapply Hno. }
  split; [done|]. rewrite Hiff. unfold num_edges. split.
  - intros Hno. destruct (flat_map _ g) as [|b l] eqn:Hflat; [done|]. exfalso.
    assert (In b (flat_map (λ item : string * Entry, next_nodes item.2) g))
      as Hin by (rewrite Hflat; by left).
    apply in_flat_map in Hin as ([k e] & Hke & Hb). simpl in Hb.
    apply (Hno k b). apply edge_elem; [apply Hok|].
    exists e. by rewrite !list_elem_of_In.
  - intros Hlen a b (e & He & Hb)%edge_inv.
    apply length_zero_iff_nil in Hlen.
    assert (In b (flat_map (λ item : string * Entry, next_nodes item.2) g))
      as Hin.
    { apply in_flat_map. exists (a, e). by rewrite <- !list_elem_of_In. }
    by rewrite Hlen in Hin.
Qed.

Lemma pruned_empty_iff_no_edge_witness :
  graph_ok unknown_owner_graph
  ∧ (is_empty (remove_nodes_without_edge unknown_owner_graph) = true
     ↔ num_edges unknown_owner_graph = 0%nat).
Proof.
  pose proof unknown_owner_graph_ok as (Hok & _).
  split; [exact Hok|].
  exact (proj2 (pruned_empty_iff_no_edge unknown_owner_graph Hok)).
Defined.

(* ===================================================================== *)
(** ** The search without the assumption that every key is registered *)
(* ===================================================================== *)

Section search_any.
Variable g : Graph.

Lemma dfs_loop_spec_any rec fuel k path ns vis :
  (∀ k' vis' path', dfs_pre_any g fuel k' vis' path' →
     dfs_post_any g k' vis' path' (rec k' vis' path')) →
  (∀ n, n ∈ ns → edge g k n) →
  (∀ x, x ∈ path ++ [k] → x ∈ vis) →
  (∀ x, x ∈ vis → registered g x) →
  NoDup (path ++ [k]) → chain g (path ++ [k]) →
  finished_inv g vis (path ++ [k]) →
  (size (key_set g ∖ vis) < fuel)%nat →
  match dfs_loop rec ns vis (path ++ [k]) with
  | Ok o =>
      match ret o with
      | None => out_path o = path ∧ vis ⊆ out_visited o
                ∧ (∀ x, x ∈ out_visited o → registered g x)
                ∧ finished_inv g (out_visited o) (path ++ [k])
                ∧ ∀ n, n ∈ ns → n ∈ out_visited o ∧ n ∉ path ++ [k]
      | Some c => cycle_found g (path ++ [k]) o c
      end
  | Raise (KeyError b) => dangling g b
  | _ => False
  end.
Proof.
  intros Hrec. revert vis.
  induction ns as [|n ns IH]; intros vis Hns Hsub Hvreg Hnd Hch Hinv Hsize; simpl.
  - split; [apply removelast_last|]. split; [done|]. split; [done|].
    split; [done|]. by intros n ?%elem_of_nil.
  - assert (edge g k n) as Hkn by (apply Hns, list_elem_of_here).
    assert (∀ n', n' ∈ ns → edge g k n') as Hns'.
    { intros n' ?. by apply Hns, list_elem_of_further. }
    case_bool_decide as Hpath.
    { simpl. exists n, k. split; [done|]. split; [done|]. split; [done|].
      split; [apply last_snoc|]. done. }
    case_bool_decide as Hvis.
    { specialize (IH vis Hns' Hsub Hvreg Hnd Hch Hinv Hsize).
      destruct (dfs_loop rec ns vis (path ++ [k])) as [o|e|]; [|done..].
      destruct (ret o) as [c|]; [done|].
      destruct IH as (? & Hmono & ? & ? & Hall). split; [done|]. split; [done|].
      split; [done|]. split; [done|]. intros n' [->|?]%elem_of_cons; [|auto].
      split; [by apply Hmono|done]. }
    assert (dfs_pre_any g fuel n vis (path ++ [k])) as Hpre.
    { split; [done|]. split; [done|]. split; [done|]. split; [done|].
      split; [done|]. split; [|split; [|done]].
      - intros a. rewrite last_snoc. by intros [= <-].
      - intros Hnil. destruct path; discriminate Hnil. }
    specialize (Hrec n vis (path ++ [k]) Hpre). unfold dfs_post_any in Hrec.
    destruct (rec n vis (path ++ [k])) as [o|e|]; simpl; [|done..].
    destruct (ret o) as [c|] eqn:Hret.
    + destruct (cycle_found_is_cycle _ _ _ _ Hrec) as (_ & Hne & _).
      destruct c as [|c0 c]; [done|]. simpl. rewrite Hret.
      destruct Hrec as (n' & z & Hpre' & H).
      exists n', z. split; [|done]. by eapply prefix_app_l.
    + simpl. destruct Hrec as (Hp & Hmono & Hn & Hvreg' & Hinv').
      rewrite Hp.
      assert (size (key_set g ∖ out_visited o) < fuel)%nat as Hsize'.
      { eapply Nat.le_lt_trans; [|exact Hsize].
        apply subseteq_size. set_solver. }
      specialize (IH (out_visited o) Hns').
      assert (∀ x, x ∈ path ++ [k] → x ∈ out_visited o) as Hsub'.
      { intros x Hx. by apply Hmono, Hsub. }
      specialize (IH Hsub' Hvreg' Hnd Hch Hinv' Hsize').
      destruct (dfs_loop rec ns (out_visited o) (path ++ [k])) as [o'|e|];
        [|done..].
      destruct (ret o') as [c|]; [done|].
      destruct IH as (? & Hmono' & ? & ? & Hall). split; [done|].
      split; [set_solver|]. split; [done|]. split; [done|].
      intros n' [->|?]%elem_of_cons; [|auto]. split; [by apply Hmono'|done].
Qed.

Lemma depth_first_search_spec_any fuel k vis path :
  dfs_pre_any g fuel k vis path →
  dfs_post_any g k vis path (depth_first_search fuel g k vis path).
Proof.
  revert k vis path. induction fuel as [|fuel IH]; intros k vis path.
  { intros (_ & _ & _ & _ & _ & _ & _ & _ & ?). lia. }
  intros (Hk & Hsub & Hvreg & Hnd & Hch & Hlast & Hroot & Hinv & Hsize).
  simpl. destruct (dict_get g k) as [e|] eqn:He.
  2:{ simpl. split; [by intros [? ?]; congruence|].
      destruct path as [|p path _] using rev_ind.
      - destruct (Hroot eq_refl) as [? ?]. congruence.
      - exists p. apply Hlast, last_snoc. }
  assert (outgoing g k = next_nodes e) as Hout.
  { unfold outgoing. by rewrite He. }
  assert (k ∉ path) as Hkpath by (intros ?; by apply Hk, Hsub).
  pose proof (dfs_loop_spec_any (depth_first_search fuel g) fuel k path
                (next_nodes e) ({[k]} ∪ vis) IH) as Hloop.
  assert (∀ n, n ∈ next_nodes e → edge g k n) as H1.
  { intros n Hn. unfold edge. by rewrite Hout. }
  assert (∀ x, x ∈ path ++ [k] → x ∈ {[k]} ∪ vis) as H2.
  { intros x [?|?%list_elem_of_singleton]%elem_of_app; set_solver. }
  assert (∀ x, x ∈ {[k]} ∪ vis → registered g x) as H2'.
  { intros x [->%elem_of_singleton|?]%elem_of_union; [by exists e|auto]. }
  assert (NoDup (path ++ [k])) as H3.
  { apply NoDup_app. split; [done|]. split; [|apply NoDup_singleton].
    intros x Hx ?%list_elem_of_singleton. by subst. }
  assert (chain g (path ++ [k])) as H4 by (by apply chain_snoc).
  assert (finished_inv g ({[k]} ∪ vis) (path ++ [k])) as H5.
  { intros x Hx Hx'. rewrite elem_of_app, list_elem_of_singleton in Hx'.
    assert (x ∈ vis) as Hxv by set_solver.
    assert (x ∉ path) as Hxp by tauto.
    destruct (Hinv x Hxv Hxp) as [Hsucc Hcyc]. split; [|done].
    intros y Hy. destruct (Hsucc y Hy) as [Hyv Hyp].
    split; [set_solver|]. rewrite elem_of_app, list_elem_of_singleton.
    intros [?| ->]; done. }
  assert (size (key_set g ∖ ({[k]} ∪ vis)) < fuel)%nat as H6.
  { assert (size (key_set g ∖ ({[k]} ∪ vis)) < size (key_set g ∖ vis))%nat;
      [|lia].
    apply subset_size. split; [set_solver|].
    intros Hsubset. assert (k ∈ key_set g ∖ vis) as Hin.
    { apply elem_of_difference. split; [|done].
      unfold key_set. rewrite elem_of_list_to_set. apply dict_get_is_Some.
      by exists e. }
    apply Hsubset in Hin. set_solver. }
  specialize (Hloop H1 H2 H2' H3 H4 H5 H6). unfold dfs_post_any.
  destruct (dfs_loop _ _ _ _) as [o|err|]; [|done..].
  destruct (ret o) as [c|]; [done|].
  destruct Hloop as (Hp & Hmono & Hvreg' & Hinv' & Hall).
  split; [done|]. split; [set_solver|]. split; [set_solver|]. split; [done|].
  intros x Hx Hx'. destruct (decide (x = k)) as [->|Hne].
  - split.
    + intros y Hy. unfold edge in Hy. rewrite Hout in Hy.
      destruct (Hall y Hy) as [Hyv Hyp]. split; [done|].
      intros ?. apply Hyp, elem_of_app. by left.
    + intros Hcyc. unfold on_cycle in Hcyc.
      inversion Hcyc as [? ? Hky|? y ? Hky Hyk]; subst.
      * unfold edge in Hky. rewrite Hout in Hky.
        destruct (Hall k Hky) as [_ Hkp]. apply Hkp, elem_of_app.
        right. apply list_elem_of_here.
      * unfold edge in Hky. rewrite Hout in Hky.
        destruct (Hall y Hky) as [Hyv Hyp].
        destruct (finished_inv_rtc g _ _ y k Hinv' Hyv Hyp) as [_ Hkp].
        { by apply tc_rtc. }
        apply Hkp, elem_of_app. right. apply list_elem_of_here.
  - assert (x ∉ path ++ [k]) as Hx1.
    { rewrite elem_of_app, list_elem_of_singleton. tauto. }
    destruct (Hinv' x Hx Hx1) as [Hsucc Hcyc]. split; [|done].
    intros y Hy. destruct (Hsucc y Hy) as [Hyv Hyp]. split; [done|].
    intros ?. apply Hyp, elem_of_app. by left.
Qed.

Hypothesis Hnd : NoDup (dict_keys g).

Lemma detect_cycle_loop_spec_any ks vis :
  (∀ k, k ∈ ks → registered g k) → (∀ x, x ∈ vis → registered g x) →
  finished_inv g vis [] →
  match detect_cycle_loop g ks vis with
  | Ok o =>
      match ret o with
      | None => vis ⊆ out_visited o ∧ (∀ k, k ∈ ks → k ∈ out_visited o)
                ∧ (∀ x, x ∈ out_visited o → registered g x)
                ∧ finished_inv g (out_visited o) []
      | Some c => ∃ root, root ∈ ks ∧ cycle_found g [root] o c
      end
  | Raise (KeyError b) => dangling g b
  | _ => False
  end.
Proof.
  revert vis.
  induction ks as [|k ks IH]; intros vis Hks Hvreg Hinv; cbn [detect_cycle_loop].
  - simpl. split; [done|]. split; [|done]. by intros k ?%elem_of_nil.
  - assert (∀ k', k' ∈ ks → registered g k') as Hks'.
    { intros k' ?. by apply Hks, list_elem_of_further. }
    case_bool_decide as Hvis.
    { specialize (IH vis Hks' Hvreg Hinv).
      destruct (detect_cycle_loop g ks vis) as [o|e|]; [|done..].
      destruct (ret o) as [c|].
      - destruct IH as (root & ? & ?). exists root.
        split; [by apply list_elem_of_further|done].
      - destruct IH as (Hmono & Hall & ?). split; [done|]. split; [|done].
        intros k' [->|?]%elem_of_cons; [by apply Hmono|auto]. }
    assert (dfs_pre_any g (dfs_fuel g) k vis []) as Hpre.
    { split; [done|]. split; [by intros x ?%elem_of_nil|]. split; [done|].
      split; [apply NoDup_nil_2|]. split; [done|]. split; [done|].
      split; [intros _; apply Hks, list_elem_of_here|]. split; [done|].
      unfold dfs_fuel. apply Nat.lt_succ_r.
      transitivity (size (key_set g)); [apply subseteq_size; set_solver|].
      unfold key_set. rewrite size_list_to_set by apply Hnd.
      unfold dict_keys. by rewrite length_fmap. }
    pose proof (depth_first_search_spec_any _ _ _ _ Hpre) as Hdfs.
    unfold dfs_post_any in Hdfs.
    destruct (depth_first_search (dfs_fuel g) g k vis []) as [o|e|];
      simpl; [|done..].
    destruct (ret o) as [c|] eqn:Hret.
    + destruct (cycle_found_is_cycle _ _ _ _ Hdfs) as (_ & Hne & _).
      destruct c as [|c0 c]; [done|]. simpl. rewrite Hret.
      exists k. split; [apply list_elem_of_here|done].
    + simpl. destruct Hdfs as (_ & Hmono & Hk & Hvreg' & Hinv').
      specialize (IH (out_visited o) Hks' Hvreg' Hinv').
      destruct (detect_cycle_loop g ks (out_visited o)) as [o'|e|]; [|done..].
      destruct (ret o') as [c|].
      * destruct IH as (root & ? & ?). exists root.
        split; [by apply list_elem_of_further|done].
      * destruct IH as (Hmono' & Hall & ?). split; [set_solver|].
        split; [|done]. intros k' [->|?]%elem_of_cons; [by apply Hmono'|auto].
Qed.

Lemma detect_cycle_cases :
  match detect_cycle g with
  | Ok None => targets_registered g ∧ acyclic g
  | Ok (Some ds) => ∃ c, c ≠ [] ∧ is_cycle g c ∧ described_by g c ds
  | Raise (KeyError b) => dangling g b
  | _ => False
  end.
Proof.
  unfold detect_cycle.
  pose proof (detect_cycle_loop_spec_any (dict_keys g) ∅) as H.
  destruct (detect_cycle_loop g (dict_keys g) ∅) as [o|e|];
    cbn [mbind result_bind].
  - destruct (ret o) as [c|] eqn:Hret.
    + destruct H as (root & _ & Hfound);
        [by intros k ?%dict_get_is_Some|by intros x ?%not_elem_of_empty
        |by intros x ?%not_elem_of_empty|].
      destruct (cycle_found_is_cycle _ _ _ _ Hfound) as (Hcyc & Hne & _).
      destruct Hfound as (n & z & _ & _ & Hch & Hz & Hzn & Hn & Hc).
      assert (∀ k, k ∈ c → registered g k) as Hcreg.
      { intros k Hk. apply (chain_registered g (out_path o) z); try done.
        - by eapply edge_registered.
        - rewrite <- (take_drop (index n (out_path o)) (out_path o)).
          apply elem_of_app. right. by rewrite <- Hc. }
      destruct (describe_spec g c Hcreg) as (ds & Hdesc & Hds).
      destruct c as [|c0 c]; [done|]. rewrite Hdesc. simpl. eauto.
    + destruct H as (_ & Hall & Hvreg & Hinv);
        [by intros k ?%dict_get_is_Some|by intros x ?%not_elem_of_empty
        |by intros x ?%not_elem_of_empty|].
      split.
      * intros a b Hab. apply edge_registered in Hab as Ha.
        apply dict_get_is_Some, Hall in Ha.
        destruct (Hinv a Ha) as [Hsucc _]; [apply not_elem_of_nil|].
        by apply Hvreg, Hsucc.
      * intros x Hx. apply tc_edge_registered in Hx as Hr.
        apply dict_get_is_Some, Hall in Hr.
        destruct (Hinv x Hr) as [_ Hno]; [apply not_elem_of_nil|]. done.
  - apply H; [by intros k ?%dict_get_is_Some|by intros x ?%not_elem_of_empty
             |by intros x ?%not_elem_of_empty].
  - apply H; [by intros k ?%dict_get_is_Some|by intros x ?%not_elem_of_empty
             |by intros x ?%not_elem_of_empty].
Qed.
End search_any.

(** X8: on any mapping with distinct keys [detect_cycle] ends in one of
    three ways.  It returns [None] exactly when every key named by an
    outgoing list is registered and no key lies on a cycle; a list it
    returns is the list of descriptions of a cycle of the graph; and the
    only exception it raises is [KeyError], for a key that an outgoing list
    names and that is not registered. *)
Theorem detect_cycle_outcomes (g : Graph) :
  NoDup (dict_keys g) →
  (detect_cycle g = Ok None ↔ targets_registered g ∧ acyclic g)
  ∧ (∀ ds, detect_cycle g = Ok (Some ds) →
       ds ≠ [] ∧ ∃ c, is_cycle g c ∧ described_by g c ds ∧ has_cycle g)
  ∧ (∀ e, detect_cycle g = Raise e → ∃ b, e = KeyError b ∧ dangling g b)
  ∧ detect_cycle g ≠ OutOfFuel.
Proof.
  intros Hnd. pose proof (detect_cycle_cases g Hnd) as H.
  split; [|split; [|split]].
  - split.
    + intros Heq. by rewrite Heq in H.
    + intros [Hreg Hacyc]. destruct (detect_cycle g) as [[ds|]|[b| | |]|];
        try done; exfalso.
      * destruct H as (c & Hne & Hcyc & _). destruct c as [|x c]; [done|].
        by apply (Hacyc x), (is_cycle_on_cycle g (x :: c)).
      * destruct H as [Hb [a Hab]]. by apply Hb, (Hreg a b).
  - intros ds Heq. rewrite Heq in H. destruct H as (c & Hne & Hcyc & Hds).
    split.
    { intros ->. apply Forall2_nil_inv_r in Hds. done. }
    exists c. split; [done|]. split; [done|].
    destruct c as [|x c]; [done|]. exists x.
    by apply (is_cycle_on_cycle g (x :: c)).
  - intros e Heq. rewrite Heq in H. destruct e as [b| | |]; try done. eauto.
  - intros Heq. by rewrite Heq in H.
Qed.

Lemma detect_cycle_outcomes_witness :
  NoDup (dict_keys dangling_graph)
  ∧ ∃ b, detect_cycle dangling_graph = Raise (KeyError b) ∧ dangling dangling_graph b.
Proof.
  assert (NoDup (dict_keys dangling_graph)) as Hnd.
  { apply (bool_decide_unpack _). by vm_compute. }
  split; [exact Hnd|].
  destruct (detect_cycle_outcomes dangling_graph Hnd) as (_ & _ & Hraise & _).
  destruct (Hraise (KeyError (Lock_key contended_lock))) as (b & Hb & Hdang).
  { by vm_compute. }
  exists b. split; [|exact Hdang]. rewrite <- Hb. by vm_compute.
Defined.

(* ===================================================================== *)
(** ** The rendering *)
(* ===================================================================== *)

Lemma is_hex_char_hex_uint d :
  Forall (λ c, is_hex_char c = true)
    (list_ascii_of_string (HexadecimalString.NilEmpty.string_of_uint d)).
Proof. induction d; simpl; repeat constructor; done. Qed.

Lemma is_hex_char_format_012x z :
  Forall (λ c, is_hex_char c = true) (list_ascii_of_string (format_012x z)).
Proof.
  assert (∀ n, Forall (λ c, is_hex_char c = true)
                 (list_ascii_of_string (hex_digits n))) as Hhex.
  { intros n. unfold hex_digits, HexadecimalString.NilZero.string_of_uint.
    destruct (N.to_hex_uint n); try apply is_hex_char_hex_uint.
    repeat constructor; done. }
  assert (∀ k, Forall (λ c, is_hex_char c = true)
                 (list_ascii_of_string (zeros k))) as Hz.
  { intros k. induction k; simpl; repeat constructor; done. }
  unfold format_012x, zero_pad. destruct (z <? 0)%Z.
  - rewrite chars_app. simpl. constructor; [done|].
    rewrite chars_app. apply Forall_app. split; [apply Hz|apply Hhex].
  - rewrite chars_app. apply Forall_app. split; [apply Hz|apply Hhex].
Qed.

Lemma format_012x_last z :
  ∃ c l, rev (list_ascii_of_string (format_012x z)) = c :: l
         ∧ is_hex_char c = true.
Proof.
  pose proof (is_hex_char_format_012x z) as Hall.
  destruct (rev (list_ascii_of_string (format_012x z))) as [|c l] eqn:Hrev.
  - apply (f_equal (@rev ascii)) in Hrev. rewrite rev_involutive in Hrev.
    simpl in Hrev.
    assert (format_012x z = "") as Hnil by (by apply chars_inj).
    pose proof (parse_012x_format z) as Hp. rewrite Hnil in Hp.
    vm_compute in Hp. injection Hp as <-. by vm_compute in Hnil.
  - exists c, l. split; [done|]. rewrite Forall_forall in Hall. apply Hall.
    apply list_elem_of_In, in_rev. rewrite Hrev. by left.
Qed.

(** No key is a description: a description ends with a closing bracket, a
    key with a digit. *)
Lemma key_ne_str n n' : key n ≠ str n'.
Proof.
  intros Heq. apply (f_equal (λ s, rev (list_ascii_of_string s))) in Heq.
  assert (∃ c l, rev (list_ascii_of_string (key n)) = c :: l
                 ∧ is_hex_char c = true) as (c & l & Hkey & Hc).
  { destruct n as [t|lk]; simpl; unfold Thread_key, Lock_key;
      rewrite chars_app, rev_app_distr.
    - destruct (format_012x_last (thread_id t)) as (c & l & -> & Hc).
      simpl. eauto.
    - destruct (format_012x_last (addr lk)) as (c & l & -> & Hc).
      simpl. eauto. }
  rewrite Hkey in Heq. destruct n' as [t|lk]; cbn [str] in Heq.
  - rewrite rev_chars_Thread_str in Heq. simpl in Heq.
    injection Heq as -> _. done.
  - rewrite rev_chars_Lock_str in Heq. simpl in Heq.
    injection Heq as -> _. done.
Qed.

Lemma to_graph_descriptions g nodes message :
  graph_ok g → (∀ d, d ∈ nodes → ∃ n, d = str n) →
  to_graph g (Some nodes) message = to_graph g None message.
Proof.
  intros [_ Hkey] Hnodes. unfold to_graph. cbv zeta.
  assert (∀ item : string * Entry, item ∈ g →
            (truthy (Some nodes) && bool_decide (item.1 ∈ default [] (Some nodes)))
            = false) as Hcolor.
  { intros [k e] Hin. simpl. apply andb_false_intro2, bool_decide_eq_false_2.
    intros Hk. destruct (Hnodes k Hk) as [n Hn].
    rewrite <- (Hkey k e Hin) in Hn. by apply key_ne_str in Hn. }
  do 6 f_equal. apply map_ext_in. intros item Hin%list_elem_of_In.
  by rewrite (Hcolor item Hin).
Qed.



(* ===================================================================== *)
(** ** Rules for [mspec] *)
(* ===================================================================== *)

Section mspec_rules.
Context (P : pass_state → pass_state → Prop) (HP : steps P).

Lemma mspec_ret {A} E (a : A) : mspec P E (mret a : M A).
Proof. intros st r st' [= <- <-]. split; [apply (proj1 HP)|]. by split. Qed.

Lemma mspec_raise {A} (E : exn → Prop) e : E e → mspec P E (raise e : M A).
Proof.
  intros He st r st' [= <- <-]. split; [apply (proj1 HP)|]. split; [|done].
  by intros e' [= <-].
Qed.

Lemma mspec_bind {A B} E (m : M A) (k : A → M B) :
  mspec P E m → (∀ a, mspec P E (k a)) → mspec P E (m ≫= k).
Proof.
  intros Hm Hk st r st'. rewrite run_bind.
  destruct (m st) as [ra st1] eqn:Hrun.
  destruct (Hm st ra st1 Hrun) as (HP1 & HE1 & Hfuel).
  destruct ra as [a|e|].
  - intros Hrun2. destruct (Hk a st1 r st' Hrun2) as (HP2 & HE2 & Hfuel2).
    split; [by eapply (proj2 HP)|]. by split.
  - intros [= <- <-]. split; [done|]. split; [|done].
    intros e' [= <-]. by apply HE1.
  - done.
Qed.

Lemma mspec_when E b m : mspec P E m → mspec P E (when b m).
Proof. destruct b; [done|]. intros _. apply mspec_ret. Qed.

Lemma mspec_for_each {A} E (l : list A) body :
  (∀ x, mspec P E (body x)) → mspec P E (for_each l body).
Proof.
  intros Hbody. induction l as [|x l IH]; simpl.
  - apply mspec_ret.
  - apply mspec_bind; [apply Hbody|]. by intros _.
Qed.

Lemma mspec_try (E E' : exn → Prop) body handler :
  mspec P E' body → (∀ msg, mspec P E (handler msg)) →
  (∀ e, E' e → is_GdbError e ∨ E e) →
  (∀ e, E e → ¬ is_GdbError e) →
  mspec P E (try_except_gdb body handler).
Proof.
  intros Hb Hh Hsplit Hno st r st'. unfold try_except_gdb.
  destruct (body st) as [rb st1] eqn:Hrun.
  destruct (Hb st rb st1 Hrun) as (HP1 & HE1 & Hfuel).
  destruct rb as [a|e|]; [| |done].
  - intros [= <- <-]. by split.
  - destruct (Hsplit e (HE1 e eq_refl)) as [[msg ->]|He].
    + intros Hrun2. destruct (Hh msg st1 r st' Hrun2) as (HP2 & HE2 & Hfuel2).
      split; [by eapply (proj2 HP)|]. by split.
    + assert (∀ msg, e ≠ GdbError msg) as Hne.
      { intros msg ->. apply (Hno _ He). by exists msg. }
      destruct e as [k| |msg|msg]; try (by destruct (Hne msg));
        intros [= <- <-]; (split; [done|]); (split; [|done]);
        by intros e' [= <-].
Qed.

Lemma mspec_weaken {A} (E E' : exn → Prop) (m : M A) :
  (∀ e, E e → E' e) → mspec P E m → mspec P E' m.
Proof.
  intros HE Hm st r st' Hrun. destruct (Hm st r st' Hrun) as (? & He & ?).
  split; [done|]. split; [|done]. intros e Hr. by apply HE, He.
Qed.
End mspec_rules.

Lemma steps_prints_only : steps prints_only.
Proof.
  split.
  - intros st. split; [done|]. split; [done|]. exists []. by rewrite app_nil_r.
  - intros a b c (Hg1 & Hf1 & l1 & Ho1) (Hg2 & Hf2 & l2 & Ho2).
    split; [congruence|]. split; [congruence|]. exists (l1 ++ l2).
    by rewrite Ho2, Ho1, app_assoc.
Qed.

Lemma mspec_print_prints_only E line : mspec prints_only E (print line).
Proof.
  intros st r st' [= <- <-]. split; [|by split].
  split; [done|]. split; [done|]. by exists [line].
Qed.

Lemma mspec_item_prints_only thread_dict lwp :
  mspec prints_only (λ e, is_KeyError e ∨ is_GdbError e)
    (thread_dict_item thread_dict lwp).
Proof.
  unfold thread_dict_item. destruct (thread_dict_get thread_dict lwp).
  - apply mspec_ret, steps_prints_only.
  - apply mspec_raise; [apply steps_prints_only|]. left. by eexists.
Qed.

Lemma mspec_get_locks_show thread_dict threads :
  mspec prints_only is_KeyError (get_locks false thread_dict true threads).
Proof.
  pose proof steps_prints_only as HP.
  apply mspec_for_each; [done|]. intros thread.
  apply (mspec_try _ HP _ (λ e, is_KeyError e ∨ is_GdbError e));
    [|intros msg; apply mspec_print_prints_only|tauto
     |by intros e [k ->] [msg ?]].
  destruct (is_valid thread); [|by apply mspec_ret].
  apply mspec_bind; [done| |].
  - unfold find_mutex_holder.
    destruct (mutex_probe thread) as [|msg|m];
      [by apply mspec_ret|apply mspec_raise; [done|right; by eexists]|].
    apply mspec_bind; [done| |].
    { destruct (thread_dict_get thread_dict (mutex_holder_lwpid m)).
      - by apply mspec_ret.
      - apply mspec_bind; [done|apply mspec_print_prints_only|].
        intros _. by apply mspec_ret. }
    intros holder. apply mspec_bind; [done|apply mspec_item_prints_only|].
    intros waiter. apply mspec_bind; [done|apply mspec_print_prints_only|].
    intros _. by apply mspec_ret.
  - intros _. unfold find_lock_manager_holders.
    destruct (locker_probe thread) as [|msg|head];
      [by apply mspec_ret|apply mspec_raise; [done|right; by eexists]|].
    apply mspec_bind; [done|apply mspec_item_prints_only|].
    intros waiter. destruct head as [msg|lock_head text granted];
      [apply mspec_raise; [done|right; by eexists]|].
    apply mspec_for_each; [done|]. intros [msg|holder_id mode];
      [apply mspec_raise; [done|right; by eexists]|].
    apply mspec_bind; [done|apply mspec_print_prints_only|].
    intros _. by apply mspec_ret.
Qed.

(** X10: [mongodb_show_locks] only prints: whatever gdb reports, the graph
    and the files of the state are left as they were, and the command
    either ends normally or raises [KeyError] (a blocked thread is not in
    [thread_dict]); a holder that [find_thread] does not find never makes
    it end in [AttributeError]. *)
Theorem mongodb_show_locks_only_prints (thread_dict : thread_dict_t)
    (threads : list thread_obs) (st : pass_state) :
  let run := mongodb_show_locks thread_dict threads st in
  st_graph run.2 = st_graph st
  ∧ st_files run.2 = st_files st
  ∧ (∃ lines, st_out run.2 = st_out st ++ lines)
  ∧ (run.1 = Ok tt ∨ ∃ k, run.1 = Raise (KeyError k)).
Proof.
  intros run.
  assert (mspec prints_only is_KeyError (mongodb_show_locks thread_dict threads))
    as Hspec.
  { unfold mongodb_show_locks.
    apply (mspec_try _ steps_prints_only _ is_KeyError);
      [apply mspec_get_locks_show|intros msg; apply mspec_print_prints_only
      |auto|by intros e [k ->] [msg ?]]. }
  destruct (Hspec st run.1 run.2) as ((Hg & Hf & Hout) & HE & Hfuel);
    [apply surjective_pairing|].
  split; [done|]. split; [done|]. split; [done|].
  destruct run.1 as [[]|e|]; [by left| |done].
  right. destruct (HE e eq_refl) as [k ->]. by exists k.
Qed.

(* ===================================================================== *)
(** ** One thread of [get_locks] *)
(* ===================================================================== *)




(** X12: [find_mutex_holder] for a thread blocked in [std::mutex::lock()]
    and present in [thread_dict]: it ends normally, writes no file, and
    the graph gains the edge from the waiting thread to the mutex and the
    edge from the mutex to its holder, the holder being the thread of
    [thread_dict] with the owner's LWP or, failing that, the placeholder.
    When the owner is the waiting thread itself, the mutex then lies on a
    cycle. *)
Theorem find_mutex_holder_edges (thread_dict : thread_dict_t) (show : bool)
    (obs : thread_obs) (m : mutex_obs) (waiter : Thread) (st : pass_state) :
  mutex_probe obs = Frame m →
  thread_dict_get thread_dict (selected_lwpid obs) = Some waiter →
  let holder :=
    default (placeholder_thread (mutex_holder_lwpid m))
      (thread_dict_get thread_dict (mutex_holder_lwpid m)) in
  let mutex := NLock (mkLock (mutex_value m) "Mutex") in
  let run := find_mutex_holder true thread_dict show obs st in
  run.1 = Ok tt
  ∧ st_files run.2 = st_files st
  ∧ st_graph run.2
    = add_edge (add_edge (st_graph st) (NThread waiter) mutex) mutex
        (NThread holder)
  ∧ edge (st_graph run.2) (Thread_key waiter) (key mutex)
  ∧ edge (st_graph run.2) (key mutex) (Thread_key holder)
  ∧ (mutex_holder_lwpid m = selected_lwpid obs → on_cycle (st_graph run.2) (key mutex)).
Proof.
  intros Hm Hw holder mutex run.
  assert (run.1 = Ok tt ∧ st_files run.2 = st_files st
          ∧ st_graph run.2
            = add_edge (add_edge (st_graph st) (NThread waiter) mutex) mutex
                (NThread holder)) as (Hr & Hf & Hg).
  { unfold run, holder, find_mutex_holder, thread_dict_item.
    rewrite Hm, Hw.
    destruct (thread_dict_get thread_dict (mutex_holder_lwpid m));
      destruct show; done. }
  split; [done|]. split; [done|]. split; [done|].
  assert (edge (st_graph run.2) (Thread_key waiter) (key mutex)) as He1.
  { rewrite Hg. unfold edge. rewrite !outgoing_add_edge.
    rewrite decide_False by (simpl; apply Thread_key_ne_Lock_key).
    change (key (NThread waiter)) with (Thread_key waiter).
    rewrite decide_True by done.
    case_bool_decide; [done|]. apply elem_of_app. right. apply list_elem_of_here. }
  assert (edge (st_graph run.2) (key mutex) (Thread_key holder)) as He2.
  { rewrite Hg. unfold edge. rewrite outgoing_add_edge, decide_True by done.
    change (key (NThread holder)) with (Thread_key holder).
    case_bool_decide; [done|]. apply elem_of_app. right. apply list_elem_of_here. }
  split; [done|]. split; [done|].
  intros Hself. unfold holder in He2. rewrite Hself, Hw in He2. simpl in He2.
  eapply tc_l; [exact He2|]. by apply tc_once.
Qed.

Lemma find_mutex_holder_edges_witness :
  mutex_probe waits_for_unknown_owner = Frame (mkMutexObs 4096 "0x1000" 999)
  ∧ thread_dict_get snapshot_threads (selected_lwpid waits_for_unknown_owner)
    = Some (mkThread 1000 100 "conn1")
  ∧ edge (st_graph (find_mutex_holder true snapshot_threads false
                      waits_for_unknown_owner initial_state).2)
      (key (NLock (mkLock 4096 "Mutex"))) (Thread_key (placeholder_thread 999)).
Proof.
  split; [reflexivity|]. split; [reflexivity|].
  exact (proj1 (proj2 (proj2 (proj2 (proj2
           (find_mutex_holder_edges snapshot_threads false
              waits_for_unknown_owner (mkMutexObs 4096 "0x1000" 999)
              (mkThread 1000 100 "conn1") initial_state
              eq_refl eq_refl)))))).
Defined.

(* ===================================================================== *)
(** ** The verdict of [mongodb_waitsfor_graph] *)
(* ===================================================================== *)

Lemma described_by_str g c ds :
  described_by g c ds → ∀ d, d ∈ ds → ∃ n, d = str n.
Proof.
  intros Hds. induction Hds as [|k d ks ds (e & _ & ->) _ IH].
  - by intros d ?%elem_of_nil.
  - intros d' [->|?]%elem_of_cons; [by exists (node e)|auto].
Qed.




Section verdict.
Variable str_of_list : list string → string.

(** The message of the command for a graph, and whether it names a
    cycle. *)
Lemma command_verdict g :
  command_graph g →
  ∃ nodes,
    detect_cycle g = Ok nodes
    ∧ to_graph g nodes
        (Some (if truthy nodes
               then "# Cycle detected in the graph nodes "
                    +:+ str_of_list (default [] nodes)
               else "# No cycle detected in the graph"))
      = to_graph g None
          (Some (if truthy nodes
                 then "# Cycle detected in the graph nodes "
                      +:+ str_of_list (default [] nodes)
                 else "# No cycle detected in the graph"))
    ∧ ((acyclic g ∧ truthy nodes = false)
       ∨ (has_cycle g ∧ truthy nodes = true
          ∧ ∃ c, is_cycle g c ∧ described_by g c (default [] nodes))).
Proof.
  intros (Hok & [Hreg _] & _).
  pose proof (detect_cycle_cases g (proj1 Hok)) as H.
  destruct (detect_cycle g) as [[ds|]|[b| | |]|]; try done.
  - destruct H as (c & Hne & Hcyc & Hds). exists (Some ds).
    split; [done|]. split.
    { apply to_graph_descriptions; [done|]. by eapply described_by_str. }
    right. split.
    { destruct c as [|x c]; [done|]. exists x.
      by apply (is_cycle_on_cycle g (x :: c)). }
    split; [|by exists c].
    destruct ds as [|d ds]; [|done]. apply Forall2_nil_inv_r in Hds. done.
  - exists None. split; [done|]. split; [done|]. left. by destruct H.
  - destruct H as [Hb [a Hab]]. exfalso. apply Hb. by apply (Hreg a b).
Qed.
End verdict.

(** X13: when [get_locks] ends normally and the pruned graph is not
    empty, the command called without a file ends normally, writes no
    file, and prints after the diagnostics one rendering of the pruned
    graph, with no node marked.  Its message line says that no cycle was
    detected exactly when the graph built has no cycle, and otherwise
    names the descriptions of a cycle of the graph. *)
Theorem waitsfor_graph_verdict (str_of_list : list string → string)
    (thread_dict : thread_dict_t) (threads : list thread_obs)
    (st1 : pass_state) :
  get_locks true thread_dict false threads initial_state = (Ok tt, st1) →
  is_empty (remove_nodes_without_edge (st_graph st1)) = false →
  let g := remove_nodes_without_edge (st_graph st1) in
  let run :=
    mongodb_waitsfor_graph str_of_list thread_dict threads "" initial_state in
  ∃ message,
    run.1 = Ok tt
    ∧ st_files run.2 = []
    ∧ st_graph run.2 = g
    ∧ st_out run.2 = st_out st1 ++ [to_graph g None (Some message)]
    ∧ ((acyclic (st_graph st1) ∧ message = "# No cycle detected in the graph")
       ∨ (has_cycle (st_graph st1)
          ∧ ∃ c ds, is_cycle g c ∧ described_by g c ds
              ∧ message = "# Cycle detected in the graph nodes "
                          +:+ str_of_list ds)).
Proof.
  intros Hlocks Hempty g run.
  assert (command_graph (st_graph st1)) as Hcg.
  { apply (keeps_command_graph_get_locks true thread_dict false threads
             initial_state (Ok tt) st1 command_graph_init Hlocks). }
  pose proof (command_graph_remove _ Hcg) as Hcg'. fold g in Hcg'.
  destruct (command_verdict str_of_list g Hcg') as (nodes & Hdet & Hrender & Hv).
  destruct (only_diagnostics_get_locks thread_dict threads _ _ _ Hlocks)
    as (Hfiles & _).
  simpl in Hfiles.
  assert (∀ a b, edge g a b ↔ edge (st_graph st1) a b) as Hedge.
  { intros a b. apply edge_remove, Hcg. }
  exists (if truthy nodes
          then "# Cycle detected in the graph nodes "
               +:+ str_of_list (default [] nodes)
          else "# No cycle detected in the graph").
  assert (run = (Ok tt, mkState g
                   (st_out st1
                    ++ [to_graph g nodes
                          (Some (if truthy nodes
                                 then "# Cycle detected in the graph nodes "
                                      +:+ str_of_list (default [] nodes)
                                 else "# No cycle detected in the graph"))])
                   (st_files st1))) as ->.
  { unfold run, mongodb_waitsfor_graph, try_except_gdb.
    rewrite run_bind, Hlocks.
    do 3 (rewrite run_bind; cbn [get_graph set_graph st_graph st_out st_files]).
    rewrite Hempty. fold g. rewrite run_bind. unfold lift. rewrite Hdet.
    by rewrite bool_decide_eq_false_2 by (by intros []). }
  cbn [fst snd st_graph st_out st_files]. rewrite Hrender.
  split; [done|]. split; [done|]. split; [done|]. split; [done|].
  destruct Hv as [[Hacyc ->]|(Hcyc & -> & c & Hc & Hds)].
  - left. split; [|done]. intros x Hx. apply (Hacyc x).
    by apply (tc_edge_iff _ _ Hedge).
  - right. split.
    + destruct Hcyc as [x Hx]. exists x. by apply (tc_edge_iff _ _ Hedge) in Hx.
    + by exists c, (default [] nodes).
Qed.

Lemma waitsfor_graph_verdict_witness :
  let st1 :=
    (get_locks true snapshot_threads false [waits_for_unknown_owner]
       initial_state).2 in
  get_locks true snapshot_threads false [waits_for_unknown_owner] initial_state
  = (Ok tt, st1)
  ∧ is_empty (remove_nodes_without_edge (st_graph st1)) = false
  ∧ ∃ message,
      st_out (mongodb_waitsfor_graph (λ _, "") snapshot_threads
                [waits_for_unknown_owner] "" initial_state).2
      = st_out st1
        ++ [to_graph (remove_nodes_without_edge (st_graph st1)) None
              (Some message)].
Proof.
  intros st1.
  assert (get_locks true snapshot_threads false [waits_for_unknown_owner]
            initial_state = (Ok tt, st1)) as Hlocks by (by vm_compute).
  assert (is_empty (remove_nodes_without_edge (st_graph st1)) = false)
    as Hempty by (by vm_compute).
  split; [exact Hlocks|]. split; [exact Hempty|].
  destruct (waitsfor_graph_verdict (λ _, "") snapshot_threads
              [waits_for_unknown_owner] st1 Hlocks Hempty)
    as (message & _ & _ & _ & Hout & _).
  exists message. exact Hout.
Defined.



(* ===================================================================== *)
(** ** The dictionary of threads *)
(* ===================================================================== *)

Lemma thread_dict_get_set_eq d l t : thread_dict_get (thread_dict_set d l t) l = Some t.
Proof.
  induction d as [|[l' t'] d IH]; simpl.
  - by rewrite decide_True.
  - destruct (decide (l' = l)) as [->|Hne]; simpl.
    + by rewrite decide_True.
    + by rewrite decide_False.
Qed.

Lemma thread_dict_get_set_ne d l l' t :
  l ≠ l' → thread_dict_get (thread_dict_set d l t) l' = thread_dict_get d l'.
Proof.
  intros Hne. induction d as [|[l0 t0] d IH]; simpl.
  - by rewrite decide_False.
  - destruct (decide (l0 = l)) as [->|Hne0]; simpl.
    + by rewrite !decide_False.
    + by rewrite IH.
Qed.

Lemma thread_dict_set_elem d l t l' t' :
  (l', t') ∈ thread_dict_set d l t → (l', t') = (l, t) ∨ (l', t') ∈ d.
Proof.
  induction d as [|[l0 t0] d IH]; simpl.
  - intros H. apply list_elem_of_singleton in H. by left.
  - destruct (decide (l0 = l)) as [->|Hne]; rewrite !elem_of_cons; naive_solver.
Qed.

Lemma thread_dict_set_keys d l t :
  ∃ new, (thread_dict_set d l t).*1 = d.*1 ++ new
         ∧ (new = [] ∧ l ∈ d.*1 ∨ new = [l] ∧ l ∉ d.*1).
Proof.
  induction d as [|[l0 t0] d IH]; simpl.
  - exists [l]. split; [done|]. right. split; [done|]. apply not_elem_of_nil.
  - destruct (decide (l0 = l)) as [->|Hne]; simpl.
    + exists []. rewrite app_nil_r. split; [done|]. left. split; [done|].
      apply list_elem_of_here.
    + destruct IH as (new & Heq & Hnew). exists new.
      change (list_fmap _ _ fst ?x) with (x.*1) in *. rewrite Heq.
      split; [done|].
      destruct Hnew as [[-> ?]|[-> ?]]; [left|right]; (split; [done|]).
      * by apply list_elem_of_further.
      * apply not_elem_of_cons. by split.
Qed.

Lemma thread_dict_get_elem d l t : thread_dict_get d l = Some t → (l, t) ∈ d.
Proof.
  induction d as [|[l' t'] d IH]; simpl; [done|].
  destruct (decide (l' = l)) as [->|Hne].
  - intros [= ->]. apply list_elem_of_here.
  - intros H. apply list_elem_of_further. auto.
Qed.

Lemma thread_dict_elem_get d l t :
  NoDup d.*1 → (l, t) ∈ d → thread_dict_get d l = Some t.
Proof.
  induction d as [|[l' t'] d IH]; simpl.
  - intros _ H. by apply elem_of_nil in H.
  - rewrite NoDup_cons. intros [Hnotin Hnd] Hin.
    apply elem_of_cons in Hin as [[= -> ->]|Hin].
    + by rewrite decide_True.
    + rewrite decide_False; [auto|].
      intros ->. apply Hnotin. apply list_elem_of_fmap. by exists (l, t).
Qed.

Lemma thread_dict_ok_set d l t :
  thread_dict_ok d → lwpid t = l → thread_id t ≠ 0%Z →
  thread_dict_ok (thread_dict_set d l t).
Proof.
  intros [Hnd Hall] Hl Hid. split.
  - destruct (thread_dict_set_keys d l t) as (new & -> & [[-> _]|[-> Hnew]]).
    + by rewrite app_nil_r.
    + apply NoDup_app. split; [done|]. split; [|apply NoDup_singleton].
      intros x Hx ?%list_elem_of_singleton. by subst.
  - intros l' t' [[= -> ->]|Hin]%thread_dict_set_elem; [done|auto].
Qed.

Lemma find_thread_Some d id t :
  find_thread d id = Some t → thread_id t = id ∧ ∃ l, (l, t) ∈ d.
Proof.
  induction d as [|[l' t'] d IH]; simpl; [done|].
  destruct (decide (thread_id t' = id)) as [Heq|Hne].
  - intros [= ->]. split; [done|]. exists l'. apply list_elem_of_here.
  - intros H. destruct (IH H) as (? & l & ?). split; [done|].
    exists l. by apply list_elem_of_further.
Qed.

Lemma find_thread_None d id :
  find_thread d id = None ↔ ∀ l t, (l, t) ∈ d → thread_id t ≠ id.
Proof.
  induction d as [|[l' t'] d IH]; simpl.
  - split; [|done]. intros _ l t H. by apply elem_of_nil in H.
  - destruct (decide (thread_id t' = id)) as [Heq|Hne].
    + split; [done|]. intros H. destruct (H l' t'); [apply list_elem_of_here|done].
    + rewrite IH. split.
      * intros H l t [[= -> ->]|Hin]%elem_of_cons; [done|by eapply H].
      * intros H l t Hin. eapply H. by apply list_elem_of_further.
Qed.

Lemma get_threads_info_from_spec threads d st :
  thread_dict_ok d →
  ∃ td,
    (get_threads_info_from threads d st).1 = Ok td
    ∧ prints_only st (get_threads_info_from threads d st).2
    ∧ thread_dict_ok td
    ∧ (∀ l t, (l, t) ∈ td →
         (l, t) ∈ d ∨ ∃ thread, thread ∈ threads ∧ recorded thread t)
    ∧ (∀ l, is_Some (thread_dict_get d l) → is_Some (thread_dict_get td l))
    ∧ (∀ thread t, thread ∈ threads → recorded thread t →
         is_Some (thread_dict_get td (info_lwpid thread))).
Proof.
  pose proof steps_prints_only as [Hrefl Htrans].
  revert d st. induction threads as [|thread threads IH]; intros d st Hd.
  - exists d. simpl. split; [done|]. split; [apply Hrefl|]. split; [done|].
    split; [auto|]. split; [done|]. by intros thread t ?%elem_of_nil.
  - assert (∀ d' st', thread_dict_ok d' →
              get_threads_info_from (thread :: threads) d st
              = get_threads_info_from threads d' st' →
              prints_only st st' →
              (∀ l t, (l, t) ∈ d' → (l, t) ∈ d ∨ recorded thread t) →
              (∀ l, is_Some (thread_dict_get d l) → is_Some (thread_dict_get d' l)) →
              (∀ t, recorded thread t →
                 is_Some (thread_dict_get d' (info_lwpid thread))) →
              ∃ td,
                (get_threads_info_from (thread :: threads) d st).1 = Ok td
                ∧ prints_only st (get_threads_info_from (thread :: threads) d st).2
                ∧ thread_dict_ok td
                ∧ (∀ l t, (l, t) ∈ td →
                     (l, t) ∈ d
                     ∨ ∃ thread', thread' ∈ thread :: threads ∧ recorded thread' t)
                ∧ (∀ l, is_Some (thread_dict_get d l) →
                        is_Some (thread_dict_get td l))
                ∧ (∀ thread' t, thread' ∈ thread :: threads → recorded thread' t →
                     is_Some (thread_dict_get td (info_lwpid thread')))) as Hstep.
    { intros d' st' Hd' Heq Hst Hfrom Hmono Hthis.
      destruct (IH d' st' Hd') as (td & Hr & Hp & Hok & Hprov & Hmono' & Hall).
      exists td. rewrite Heq. split; [done|]. split; [by eapply Htrans|].
      split; [done|]. split; [|split].
      - intros l t Hin. destruct (Hprov l t Hin) as [Hin'|(th & ? & ?)].
        + destruct (Hfrom l t Hin') as [?|?]; [by left|].
          right. exists thread. split; [apply list_elem_of_here|done].
        + right. exists th. split; [by apply list_elem_of_further|done].
      - intros l Hl. by apply Hmono', Hmono.
      - intros th t [->|Hin]%elem_of_cons Hrec; [|by eapply Hall].
        by eapply Hmono', Hthis. }
    destruct (info_is_valid thread) eqn:Hvalid.
    2:{ apply (Hstep d st Hd); [|apply Hrefl|auto|done|].
        - cbn [get_threads_info_from]. by rewrite Hvalid.
        - intros t [Hv _]. congruence. }
    destruct (info_read thread) as [msg|thread_name tid] eqn:Hread.
    { apply (Hstep d (mkState (st_graph st)
                        (st_out st ++ ["Ignoring GDB error '" +:+ msg
                                       +:+ "' in get_threads_info"])
                        (st_files st)) Hd); [| |auto|done|].
      - cbn [get_threads_info_from]. by rewrite Hvalid, Hread, run_bind.
      - split; [done|]. split; [done|]. by eexists.
      - intros t (_ & id & Hinfo & _). congruence. }
    destruct (thread_id_truthy tid) eqn:Htruthy.
    + destruct tid as [id|]; [|done]. simpl in Htruthy.
      apply negb_true_iff, Z.eqb_neq in Htruthy.
      apply (Hstep _ st (thread_dict_ok_set d (info_lwpid thread)
                           (mkThread id (info_lwpid thread) thread_name)
                           Hd eq_refl Htruthy)); [|apply Hrefl| | |].
      * cbn [get_threads_info_from]. rewrite Hvalid, Hread. simpl.
        apply Z.eqb_neq in Htruthy. by rewrite Htruthy.
      * intros l t [[= -> ->]|Hin]%thread_dict_set_elem; [|by left].
        right. split; [done|]. exists id. by rewrite Hread.
      * intros l Hl. destruct (decide (info_lwpid thread = l)) as [->|Hne].
        -- by rewrite thread_dict_get_set_eq.
        -- by rewrite thread_dict_get_set_ne.
      * intros t _. by rewrite thread_dict_get_set_eq.
    + apply (Hstep d (mkState (st_graph st)
                        (st_out st ++ ["Unable to retrieve thread_info for thread "
                                       +:+ format_int (info_num thread)])
                        (st_files st)) Hd); [| |auto|done|].
      * cbn [get_threads_info_from]. by rewrite Hvalid, Hread, Htruthy, run_bind.
      * split; [done|]. split; [done|]. by eexists.
      * intros t (_ & id & Hinfo & Hid & _). rewrite Hread in Hinfo.
        injection Hinfo as _ ->. simpl in Htruthy.
        apply negb_false_iff, Z.eqb_eq in Htruthy. done.
Qed.

(** X15: [get_threads_info] never raises and only prints.  The dictionary
    it returns has one entry per LWP id, each thread stored under its own
    LWP id with a thread id that is not zero; every entry comes from a
    valid thread whose id gdb could read, and every such thread has an
    entry.  In such a dictionary [find_thread] returns a thread with the
    thread id asked for, which is also the thread stored under that
    thread's LWP id, and returns [None] exactly when no thread has that
    id. *)
Theorem get_threads_info_spec (threads : list thread_info_obs) (st : pass_state) :
  let run := get_threads_info threads st in
  ∃ thread_dict,
    run.1 = Ok thread_dict
    ∧ prints_only st run.2
    ∧ thread_dict_ok thread_dict
    ∧ (∀ l t, (l, t) ∈ thread_dict →
         ∃ thread, thread ∈ threads ∧ recorded thread t)
    ∧ (∀ thread t, thread ∈ threads → recorded thread t →
         is_Some (thread_dict_get thread_dict (info_lwpid thread)))
    ∧ (∀ id t, find_thread thread_dict id = Some t →
         thread_id t = id ∧ thread_dict_get thread_dict (lwpid t) = Some t)
    ∧ (∀ id, find_thread thread_dict id = None
             ↔ ∀ l t, (l, t) ∈ thread_dict → thread_id t ≠ id).
Proof.
  intros run.
  assert (thread_dict_ok []) as Hnil.
  { split; [apply NoDup_nil_2|]. intros l t H. by apply elem_of_nil in H. }
  destruct (get_threads_info_from_spec threads [] st Hnil)
    as (td & Hr & Hp & Hok & Hprov & _ & Hall).
  exists td. split; [done|]. split; [done|]. split; [done|]. split; [|split; [done|split]].
  - intros l t Hin. destruct (Hprov l t Hin) as [H|H]; [|done].
    by apply elem_of_nil in H.
  - intros id t Hfind. apply find_thread_Some in Hfind as (Hid & l & Hin).
    split; [done|]. destruct Hok as [Hnd Hkeys].
    destruct (Hkeys l t Hin) as [-> _]. by apply thread_dict_elem_get.
  - apply find_thread_None.
Qed.

(* ===================================================================== *)
(** ** Blocks and frames *)
(* ===================================================================== *)

Lemma find_func_block_from_spec b :
  match find_func_block_from b with
  | Some fb =>
      is_Some (block_function fb)
      ∧ ∃ inner outer, enclosing b = inner ++ fb :: outer
                       ∧ Forall (λ x, block_function x = None) inner
  | None => Forall (λ x, block_function x = None) (enclosing b)
  end.
Proof.
  induction b as [f|f sb IH].
  - destruct f as [fn|]; simpl.
    + split; [by eexists|]. exists [], []. by split.
    + by repeat constructor.
  - destruct f as [fn|]; simpl.
    + split; [by eexists|]. exists [], (enclosing sb). by split.
    + change (match block_function sb with
              | Some _ => Some sb
              | None => match sb with
                        | OutermostBlock _ => None
                        | NestedBlock _ sb0 => find_func_block_from sb0
                        end
              end) with (find_func_block_from sb).
      destruct (find_func_block_from sb) as [fb|].
      * destruct IH as (Hfn & inner & outer & Heq & Hall). split; [done|].
        exists (NestedBlock None sb :: inner), outer. rewrite Heq.
        split; [done|]. by constructor.
      * by constructor.
Qed.

Lemma find_func_block_from_fixed b fb :
  find_func_block_from b = Some fb → find_func_block_from fb = Some fb.
Proof.
  induction b as [f|f sb IH].
  - destruct f as [fn|]; simpl; [|done]. by intros [= <-].
  - destruct f as [fn|]; [by intros [= <-]|]. apply IH.
Qed.

(** X16: [find_func_block] returns the innermost of the block and its
    superblocks that has a function, and [None] exactly when none of them
    has one (or when there is no block); applying it to its own result
    changes nothing. *)
Theorem find_func_block_innermost (b : block) :
  match find_func_block (Some b) with
  | Some fb =>
      is_Some (block_function fb)
      ∧ ∃ inner outer, enclosing b = inner ++ fb :: outer
                       ∧ Forall (λ x, block_function x = None) inner
  | None => Forall (λ x, block_function x = None) (enclosing b)
  end
  ∧ find_func_block None = None
  ∧ find_func_block (find_func_block (Some b)) = find_func_block (Some b).
Proof.
  split; [apply find_func_block_from_spec|]. split; [done|].
  cbn [find_func_block]. destruct (find_func_block_from b) as [fb|] eqn:Hfb; [|done].
  by apply find_func_block_from_fixed in Hfb.
Qed.

(** X17: [find_frame] returns the newest frame whose function matches:
    every newer frame was passed over, and nothing is printed.  It returns
    [None] when every frame is passed over, printing one line exactly when
    the walk ends with a [gdb.error] of [frame.older()].  It raises only
    at a frame, reached past frames passed over, whose [block()] raises
    with a message other than the one for a missing block, and then with
    that message.  The graph and the files are never changed. *)
Theorem find_frame_newest_match (matches : string → bool) (f : frame)
    (st : pass_state) :
  let run := find_frame matches f st in
  match run.1 with
  | Ok (Some found) =>
      run.2 = st
      ∧ frame_matches matches found = true ∧ frame_raises found = None
      ∧ ∃ newer older, older_frames f = newer ++ found :: older
                       ∧ Forall (passed_over matches) newer
  | Ok None =>
      Forall (passed_over matches) (older_frames f)
      ∧ st_graph run.2 = st_graph st ∧ st_files run.2 = st_files st
      ∧ match walk_end f with
        | NoOlder => st_out run.2 = st_out st
        | OlderError msg =>
            st_out run.2
            = st_out st ++ ["Ignoring GDB error '" +:+ msg +:+ "' in find_frame"]
        end
  | Raise e =>
      run.2 = st
      ∧ ∃ newer x older msg,
          older_frames f = newer ++ x :: older
          ∧ Forall (passed_over matches) newer
          ∧ frame_block_read x = BlockRaises msg ∧ msg ≠ cannot_locate
          ∧ e = GdbError msg
  | OutOfFuel => False
  end.
Proof.
  induction f as [br e|br f' IH]; intros run; subst run.
  - cbn [find_frame].
    destruct (frame_raises (LastFrame br e)) as [msg|] eqn:Hraises.
    { simpl. split; [done|]. exists [], (LastFrame br e), [], msg.
      split; [done|]. split; [done|]. unfold frame_raises in Hraises.
      destruct (frame_block_read (LastFrame br e)) as [|m]; [done|].
      destruct (decide (m = cannot_locate)); [done|].
      injection Hraises as ->. done. }
    destruct (frame_matches matches (LastFrame br e)) eqn:Hm.
    { simpl. split; [done|]. split; [done|]. split; [done|].
      exists [], []. by split. }
    destruct e as [|msg]; simpl.
    + split; [|done]. by repeat constructor.
    + split; [|done]. by repeat constructor.
  - cbn [find_frame].
    destruct (frame_raises (StackFrame br f')) as [msg|] eqn:Hraises.
    { simpl. split; [done|].
      exists [], (StackFrame br f'), (older_frames f'), msg.
      split; [done|]. split; [done|]. unfold frame_raises in Hraises.
      destruct (frame_block_read (StackFrame br f')) as [|m]; [done|].
      destruct (decide (m = cannot_locate)); [done|].
      injection Hraises as ->. done. }
    destruct (frame_matches matches (StackFrame br f')) eqn:Hm.
    { simpl. split; [done|]. split; [done|]. split; [done|].
      exists [], (older_frames f'). by split. }
    cbn [older_frames walk_end]. cbv zeta in IH.
    destruct (find_frame matches f' st) as [[[found|]|e|] st'];
      cbn [fst snd] in *.
    + destruct IH as (? & ? & ? & newer & older & Heq & Hall).
      split; [done|]. split; [done|]. split; [done|].
      exists (StackFrame br f' :: newer), older. rewrite Heq.
      split; [done|]. by constructor.
    + destruct IH as (Hall & ?). split; [|done]. by constructor.
    + destruct IH as (? & newer & x & older & msg & Heq & Hall & ?).
      split; [done|]. exists (StackFrame br f' :: newer), x, older, msg.
      rewrite Heq. split; [done|]. split; [|done]. by constructor.
    + done.
Qed.

(* ===================================================================== *)
(** ** The edges of a lock-manager lock *)
(* ===================================================================== *)

Lemma edge_add_edge g f t a b :
  edge (add_edge g f t) a b ↔ edge g a b ∨ (a = key f ∧ b = key t).
Proof.
  unfold edge. rewrite outgoing_add_edge.
  destruct (decide (a = key f)) as [->|Hne].
  - case_bool_decide as Hin.
    + split; [auto|]. intros [?|[_ ->]]; done.
    + rewrite elem_of_app, list_elem_of_singleton. naive_solver.
  - naive_solver.
Qed.

Lemma granted_list_loop (thread_dict : thread_dict_t) (show : bool)
    (lock_head : Z) (lock_head_text : string) (lock_waiter : Thread)
    (granted_list : list lock_request) (holders : list Thread) (st : pass_state) :
  Forall2 (granted_to thread_dict) granted_list holders →
  let lock := NLock (mkLock lock_head "MongoDB lock") in
  let run :=
    for_each granted_list (λ request,
      match request with
      | RequestError msg => raise (GdbError msg)
      | Request lock_holder_id mode_text =>
          let lock_holder := find_thread thread_dict lock_holder_id in
          _ ← when show
                (print ("MongoDB Lock at " +:+ lock_head_text +:+ " ("
                        +:+ mode_text +:+ ") held by "
                        +:+ str_optional_thread lock_holder
                        +:+ " waited on by " +:+ Thread_str lock_waiter));
          when true
            (_ ← graph_add_edge (NThread lock_waiter) lock;
             graph_add_edge_to_holder lock lock_holder)
      end) st in
  run.1 = Ok tt
  ∧ (st_files run.2 = st_files st
     ∧ ∃ lines, st_out run.2 = st_out st ++ lines)
  ∧ (show = false → st_out run.2 = st_out st)
  ∧ (∀ a b, edge (st_graph run.2) a b
            ↔ edge (st_graph st) a b
              ∨ (holders ≠ [] ∧ a = Thread_key lock_waiter ∧ b = key lock)
              ∨ (a = key lock ∧ ∃ h, h ∈ holders ∧ b = Thread_key h)).
Proof.
  intros Hall lock. revert st.
  induction Hall as [|request h granted_list holders
                      (id & mode & -> & Hfind) _ IH]; intros st run.
  - subst run. simpl. split; [done|].
    split; [by split; [|exists []; rewrite app_nil_r]|].
    split; [done|]. intros a b. split; [auto|].
    intros [?|[[? _]|(_ & h & ?%elem_of_nil & _)]]; done.
  - subst run. cbn [for_each]. rewrite run_bind. rewrite Hfind.
    set (st1 := mkState
                  (add_edge (add_edge (st_graph st) (NThread lock_waiter) lock)
                     lock (NThread h))
                  (if show
                   then st_out st
                        ++ ["MongoDB Lock at " +:+ lock_head_text +:+ " ("
                            +:+ mode +:+ ") held by "
                            +:+ str_optional_thread (Some h)
                            +:+ " waited on by " +:+ Thread_str lock_waiter]
                   else st_out st)
                  (st_files st)).
    assert ((_ ← when show
                   (print ("MongoDB Lock at " +:+ lock_head_text +:+ " ("
                           +:+ mode +:+ ") held by "
                           +:+ str_optional_thread (Some h)
                           +:+ " waited on by " +:+ Thread_str lock_waiter));
             when true
               (_ ← graph_add_edge (NThread lock_waiter) lock;
                graph_add_edge_to_holder lock (Some h))) st
            = (Ok tt, st1)) as ->.
    { unfold st1. destruct show, st; done. }
    specialize (IH st1). cbv zeta in IH.
    destruct IH as (Hr & (Hfiles & lines & Hout) & Hquiet & Hedges).
    split; [done|]. split; [|split].
    + split; [done|]. rewrite Hout. unfold st1. cbn [st_out].
      destruct show; [|by eexists]. rewrite <- app_assoc. by eexists.
    + intros ->. by rewrite Hquiet.
    + intros a b. rewrite Hedges. unfold st1. cbn [st_graph].
      rewrite !edge_add_edge.
      change (key (NThread lock_waiter)) with (Thread_key lock_waiter).
      change (key (NThread h)) with (Thread_key h).
      split.
      * intros [[[?|[-> ->]]|[-> ->]]|[(_ & -> & ->)|(-> & h' & Hin & ->)]].
        -- by left.
        -- right. left. done.
        -- right. right. split; [done|]. exists h. split; [apply list_elem_of_here|done].
        -- right. left. done.
        -- right. right. split; [done|]. exists h'.
           split; [by apply list_elem_of_further|done].
      * intros [?|[(_ & -> & ->)|(-> & h' & [->|Hin]%elem_of_cons & ->)]].
        -- left. left. by left.
        -- left. left. by right.
        -- left. by right.
        -- right. right. split; [done|]. by exists h'.
Qed.

(** X18: [find_lock_manager_holders] for a thread present in
    [thread_dict] that waits for a lock-manager lock whose granted list is
    read without error, every locker being a thread of [thread_dict]: it
    ends normally, writes no file, prints nothing unless asked to show, and
    the graph gains exactly the edge from the waiting thread to the lock
    and the edges from the lock to the holders.  With an empty granted list
    nothing changes at all, the waiting thread gets no edge; when the
    waiting thread is itself among the holders it lies on a cycle. *)
Theorem find_lock_manager_holders_edges (thread_dict : thread_dict_t)
    (show : bool) (obs : thread_obs) (lock_head : Z) (lock_head_text : string)
    (granted_list : list lock_request) (holders : list Thread)
    (lock_waiter : Thread) (st : pass_state) :
  locker_probe obs = Frame (LockHead lock_head lock_head_text granted_list) →
  thread_dict_get thread_dict (selected_lwpid obs) = Some lock_waiter →
  Forall2 (granted_to thread_dict) granted_list holders →
  let lock := NLock (mkLock lock_head "MongoDB lock") in
  let run := find_lock_manager_holders true thread_dict show obs st in
  run.1 = Ok tt
  ∧ st_files run.2 = st_files st
  ∧ (show = false → st_out run.2 = st_out st)
  ∧ (∀ a b, edge (st_graph run.2) a b
            ↔ edge (st_graph st) a b
              ∨ (holders ≠ [] ∧ a = Thread_key lock_waiter ∧ b = key lock)
              ∨ (a = key lock ∧ ∃ h, h ∈ holders ∧ b = Thread_key h))
  ∧ (granted_list = [] → run.2 = st)
  ∧ (lock_waiter ∈ holders → on_cycle (st_graph run.2) (Thread_key lock_waiter)).
Proof.
  intros Hprobe Hw Hall lock run.
  pose proof (granted_list_loop thread_dict show lock_head lock_head_text
                lock_waiter granted_list holders st Hall) as Hloop.
  assert (run = for_each granted_list (λ request,
      match request with
      | RequestError msg => raise (GdbError msg)
      | Request lock_holder_id mode_text =>
          let lock_holder := find_thread thread_dict lock_holder_id in
          _ ← when show
                (print ("MongoDB Lock at " +:+ lock_head_text +:+ " ("
                        +:+ mode_text +:+ ") held by "
                        +:+ str_optional_thread lock_holder
                        +:+ " waited on by " +:+ Thread_str lock_waiter));
          when true
            (_ ← graph_add_edge (NThread lock_waiter) lock;
             graph_add_edge_to_holder lock lock_holder)
      end) st) as Hrun.
  { unfold run, find_lock_manager_holders, thread_dict_item.
    rewrite Hprobe, Hw. by rewrite run_bind. }
  clearbody run. subst run.
  destruct Hloop as (Hr & (Hfiles & _) & Hquiet & Hedges).
  split; [exact Hr|]. split; [exact Hfiles|]. split; [exact Hquiet|].
  split; [exact Hedges|]. split.
  - intros ->. simpl. by destruct st.
  - intros Hin. assert (holders ≠ []) as Hne.
    { intros ->. by apply elem_of_nil in Hin. }
    eapply tc_l.
    + apply Hedges. right. left. done.
    + apply tc_once, Hedges. right. right. split; [done|]. by exists lock_waiter.
Qed.

Lemma find_lock_manager_holders_edges_witness :
  let obs :=
    mkThreadObs true 100 NoFrame
      (Frame (LockHead 20480 "0x5000" [Request 1000 "MODE_X"])) in
  let lock_waiter := mkThread 1000 100 "conn1" in
  locker_probe obs = Frame (LockHead 20480 "0x5000" [Request 1000 "MODE_X"])
  ∧ thread_dict_get snapshot_threads (selected_lwpid obs) = Some lock_waiter
  ∧ Forall2 (granted_to snapshot_threads) [Request 1000 "MODE_X"] [lock_waiter]
  ∧ on_cycle
      (st_graph (find_lock_manager_holders true snapshot_threads false obs
                   initial_state).2)
      (Thread_key lock_waiter).
Proof.
  intros obs lock_waiter.
  assert (Forall2 (granted_to snapshot_threads) [Request 1000 "MODE_X"]
            [lock_waiter]) as Hall.
  { constructor; [|constructor]. exists 1000%Z, "MODE_X". split; reflexivity. }
  split; [reflexivity|]. split; [reflexivity|]. split; [exact Hall|].
  apply (find_lock_manager_holders_edges snapshot_threads false obs 20480
           "0x5000" [Request 1000 "MODE_X"] [lock_waiter] lock_waiter
           initial_state eq_refl eq_refl Hall).
  apply list_elem_of_here.
Defined.

(* ===================================================================== *)
(** ** The commands, from [invoke] *)
(* ===================================================================== *)

Lemma get_threads_info_returns threads st :
  ∃ thread_dict st', get_threads_info threads st = (Ok thread_dict, st').
Proof.
  assert (thread_dict_ok []) as Hnil.
  { split; [apply NoDup_nil_2|]. intros l t H. by apply elem_of_nil in H. }
  destruct (get_threads_info_from_spec threads [] st Hnil) as (td & Hr & _).
  exists td, (get_threads_info threads st).2. unfold get_threads_info.
  rewrite <- Hr. apply surjective_pairing.
Qed.

Lemma try_except_gdb_bind {A} (m : M A) (k : A → M unit)
    (handler : string → M unit) st :
  (∃ a st', m st = (Ok a, st')) →
  try_except_gdb (a ← m; k a) handler st
  = (a ← m; try_except_gdb (k a) handler) st.
Proof.
  intros (a & st' & Hm). unfold try_except_gdb at 1. by rewrite !run_bind, Hm.
Qed.

Lemma try_except_gdb_print_no_gdb_error (body : M unit) (notice : string → string)
    st msg :
  (try_except_gdb body (λ err, print (notice err)) st).1 ≠ Raise (GdbError msg).
Proof.
  unfold try_except_gdb. destruct (body st) as [[[]|e|] st']; [done| |done].
  destruct e; simpl; congruence.
Qed.

(** X19: the commands as [invoke] runs them.  [get_threads_info] never
    raises, so running it inside the command's [try] is the same as
    running it first and the rest of the command, with the dictionary it
    returned, inside the [try].  No [gdb.error] ever leaves either
    command. *)
Theorem commands_from_invoke (str_of_list : list string → string)
    (threads_info : list thread_info_obs) (threads : list thread_obs)
    (arg : string) (st : pass_state) :
  MongoDBShowLocks_invoke threads_info threads st
  = (thread_dict ← get_threads_info threads_info;
     mongodb_show_locks thread_dict threads) st
  ∧ MongoDBWaitsForGraph_invoke str_of_list threads_info threads arg st
    = (_ ← set_graph Graph_init;
       thread_dict ← get_threads_info threads_info;
       mongodb_waitsfor_graph str_of_list thread_dict threads arg) st
  ∧ (∀ msg,
       (MongoDBShowLocks_invoke threads_info threads st).1 ≠ Raise (GdbError msg)
       ∧ (MongoDBWaitsForGraph_invoke str_of_list threads_info threads arg st).1
         ≠ Raise (GdbError msg)).
Proof.
  split; [|split].
  - unfold MongoDBShowLocks_invoke.
    rewrite try_except_gdb_bind by apply get_threads_info_returns. done.
  - unfold MongoDBWaitsForGraph_invoke. rewrite !(run_bind (set_graph _)).
    cbn [set_graph].
    rewrite try_except_gdb_bind by apply get_threads_info_returns. done.
  - intros msg. split.
    + apply (try_except_gdb_print_no_gdb_error _
               (λ err, "Ignoring GDB error '" +:+ err
                       +:+ "' in mongodb_show_locks")).
    + unfold MongoDBWaitsForGraph_invoke. rewrite run_bind. cbn [set_graph].
      apply (try_except_gdb_print_no_gdb_error _
               (λ err, "Ignoring GDB error '" +:+ err
                       +:+ "' in mongod_deadlock_graph")).
Qed.
